(** * phylorian: likelihood kernels and the bounded optimizer

    A shallow embedding of [src/python/bounded_while_loop.py],
    [src/python/h20.py] and [src/python/likelihood.py], with the properties
    the specification states about them. *)

From Stdlib Require Import ZArith QArith Qabs List Lia Bool String.
From Stdlib Require Import Reals Lra Psatz Epsilon.
Import ListNotations.

(** ** Floating-point scores

    The optimizer compares scores and uses [-inf] as a sentinel.  A score is a
    float; the model keeps the IEEE special values and represents every
    finite value by an exact rational (rounding and the sign of zero are left
    out: the only divisor the code uses is an absolute value). *)
Module Float.

Inductive float : Type :=
| NaN
| NInf
| Fin (q : Q)
| PInf.

(** [a > b] *)
Definition gt (a b : float) : bool :=
  match a, b with
  | NaN, _ => false
  | _, NaN => false
  | NInf, _ => false
  | Fin _, NInf => true
  | Fin x, Fin y => negb (Qle_bool x y)
  | Fin _, PInf => false
  | PInf, PInf => false
  | PInf, _ => true
  end.

(** [a == b] *)
Definition eqb (a b : float) : bool :=
  match a, b with
  | NInf, NInf => true
  | PInf, PInf => true
  | Fin x, Fin y => Qeq_bool x y
  | _, _ => false
  end.

(** [a >= b] *)
Definition ge (a b : float) : bool :=
  match a, b with
  | NaN, _ => false
  | _, NaN => false
  | _, NInf => true
  | NInf, _ => false
  | Fin x, Fin y => Qle_bool y x
  | Fin _, PInf => false
  | PInf, _ => true
  end.

(** [a - b] *)
Definition sub (a b : float) : float :=
  match a, b with
  | NaN, _ => NaN
  | _, NaN => NaN
  | PInf, PInf => NaN
  | NInf, NInf => NaN
  | PInf, _ => PInf
  | NInf, _ => NInf
  | Fin _, PInf => NInf
  | Fin _, NInf => PInf
  | Fin x, Fin y => Fin (x - y)
  end.

(** [jnp.abs a] *)
Definition abs (a : float) : float :=
  match a with
  | NaN => NaN
  | NInf => PInf
  | PInf => PInf
  | Fin x => Fin (Qabs x)
  end.

(** [a / b], for a divisor whose zero is [+0] *)
Definition div (a b : float) : float :=
  match a, b with
  | NaN, _ => NaN
  | _, NaN => NaN
  | Fin _, PInf => Fin 0
  | Fin _, NInf => Fin 0
  | Fin x, Fin y =>
      if Qeq_bool y 0 then
        if Qeq_bool x 0 then NaN
        else if Qle_bool x 0 then NInf else PInf
      else Fin (x / y)
  | PInf, Fin y => if Qle_bool 0 y then PInf else NInf
  | NInf, Fin y => if Qle_bool 0 y then NInf else PInf
  | _, _ => NaN
  end.

End Float.

(** ** bounded_while_loop.py *)
Module BoundedWhileLoop.
Import Float.

(** A call either returns or raises [ValueError]. *)
Inductive result (A : Type) : Type :=
| Ok (a : A)
| ValueError (msg : string).
Arguments Ok {A} a.
Arguments ValueError {A} msg.

Section Loop.
Context {V : Type}.
Variable cond_fun : V -> bool.
Variable body_fun : V -> V.

(** [_while_loop]: [max_steps // 2] on a positive integer drops its last
    binary digit, so the recursion is structural on the digits. *)
Fixpoint _while_loop (data : bool * V) (max_steps : positive) : bool * V :=
  match max_steps with
  | xH =>
      let '(pred, val) := data in
      let new_val := body_fun val in
      let new_val := if pred then new_val else val in
      (cond_fun new_val, new_val)
  | xO half | xI half =>
      let _call := fun _data => _while_loop _data half in
      let _scan_fn := fun _data : bool * V =>
        if fst _data then _call _data else _data in
      _scan_fn (_scan_fn data)
  end.

Definition bounded_while_loop (init_val : V) (max_steps : Z) : result V :=
  if (max_steps <? 0)%Z then
    ValueError "max_steps must be a non-negative integer"
  else if (max_steps =? 0)%Z then
    Ok init_val
  else if negb (Z.land max_steps (max_steps - 1) =? 0)%Z then
    ValueError "max_steps must be a power of two"
  else
    let init_data := (cond_fun init_val, init_val) in
    Ok (snd (_while_loop init_data (Z.to_pos max_steps))).

(** One turn of the loop the recursion unrolls: the body where the
    predicate holds, nothing otherwise. *)
Definition guarded_step (val : V) : V :=
  if cond_fun val then body_fun val else val.

(** Number of turns [_while_loop] unrolls for [max_steps]. *)
Fixpoint unrolled_steps (max_steps : positive) : nat :=
  match max_steps with
  | xH => 1
  | xO half | xI half => 2 * unrolled_steps half
  end.

End Loop.

Section Optimize.
Context {S : Type}.
Variable score_fun : S -> float.
Variable update_fun : S -> S.
Variable min_inc : float.

(** The loop value: [(prev_score, (current_score, current_state),
    (best_score, best_state))]. *)
Definition loop_val : Type := float * (float * S) * (float * S).

Definition cond_fun (args : loop_val) : bool :=
  let '(prev_score, (current_score, current_state), (best_score, best_state)) := args in
  let inc := div (sub current_score prev_score) (abs prev_score) in
  gt current_score prev_score && (eqb prev_score NInf || gt inc min_inc).

Definition body_fun (args : loop_val) : loop_val :=
  let '(prev_score, (current_score, current_state), (best_score, best_state)) := args in
  let prev_score := current_score in
  let current_state := update_fun current_state in
  let current_score := score_fun current_state in
  let keep := fun (A : Type) (a b : A) => if gt current_score best_score then a else b in
  (prev_score, (current_score, current_state),
   (keep float current_score best_score, keep S current_state best_state)).

Definition init_val (init_state : S) : loop_val :=
  let init_score_state := (score_fun init_state, init_state) in
  (NInf, init_score_state, init_score_state).

Definition bounded_optimize (init_state : S) (max_steps : Z) : result (float * S) :=
  match bounded_while_loop cond_fun body_fun (init_val init_state) max_steps with
  | Ok v => Ok (snd v)
  | ValueError msg => ValueError msg
  end.

Definition current (v : loop_val) : float * S := snd (fst v).
Definition best (v : loop_val) : float * S := snd v.

(** The loop values of a run of [n] turns, the initial one first. *)
Definition run (init_state : S) (n : nat) : list loop_val :=
  map (fun j => Nat.iter j (guarded_step cond_fun body_fun) (init_val init_state))
      (seq 0 (Datatypes.S n)).

(** The (score, state) pairs the run goes through. *)
Definition visited (init_state : S) (n : nat) : list (float * S) :=
  map current (run init_state n).

End Optimize.

End BoundedWhileLoop.

(** ** Real-number helpers shared by the numeric kernels

    The numeric code is read in exact real arithmetic; a [jnp.where] on a
    comparison becomes a test with the decidable order of the reals. *)
Module Numeric.
Local Open Scope R_scope.

Definition Rltb (a b : R) : bool := if Rlt_dec a b then true else false.

(** [jnp.sum] along the last axis *)
Definition sum (l : list R) : R := fold_right Rplus 0 l.

(** [jnp.geomspace (start, stop, num)] for positive end points: [num] points
    in geometric progression, [start] first and [stop] last. *)
Definition geomspace (start stop : R) (num : nat) : list R :=
  map (fun i => start * Rpower (stop / start) (INR i / INR (num - 1)))
      (seq 0 num).

(** [jnp.ediff1d] *)
Fixpoint ediff1d (ts : list R) : list R :=
  match ts with
  | t0 :: ((t1 :: _) as rest) => (t1 - t0) :: ediff1d rest
  | _ => []
  end.

End Numeric.

(** ** h20.py

    The indel model in exact real arithmetic, with the [+inf] a division by
    zero yields kept where the code tests against it.  What float32 adds,
    underflow to zero and overflow to an infinity, is the subject of
    [H20Float32] below. *)
Module H20.
Import Numeric.
Local Open Scope R_scope.

(** [jnp.finfo('float32').smallest_normal] *)
Definition smallest_float32 : R := / 2 ^ 126.

(** [(lam, mu, x, y)] *)
Definition indelParams : Type := (R * R * R * R)%type.
(** [(a, b, u, q)] *)
Definition counts : Type := (R * R * R * R)%type.
Definition matrix : Type := list (list R).

Definition lm (t rate prob : R) : R := exp (- rate * t / (1 - prob)).

Definition indels (t rate prob : R) : R := 1 / lm t rate prob - 1.

Definition derivs (t : R) (cnt : counts) (params : indelParams) : counts :=
  let '(lam, mu, x, y) := params in
  let '(a, b, u, q) := cnt in
  let L := lm t lam x in
  let M := lm t mu y in
  let num := mu * (b * M + q * (1 - M)) in
  let unsafe_denom := M * (1 - y) + L * q * y + L * M * (y * (1 + b - q) - 1) in
  let denom := if Rlt_dec 0 unsafe_denom then unsafe_denom else 1 in
  let one_minus_m := if Rlt_dec M 1 then 1 - M else smallest_float32 in
  if Rlt_dec 0 unsafe_denom then
    (mu * b * u * L * M * (1 - y) / denom - (lam + mu) * a,
     - b * num * L / denom + lam * (1 - b),
     - u * num * L / denom + lam * a,
     ((M * (1 - L) - q * L * (1 - M)) * num / denom - q * lam / (1 - y))
       / one_minus_m)
  else (- lam - mu, lam, lam, 0).

Definition initCounts (params : indelParams) : counts := (1, 0, 0, 0).

(** Arithmetic on the 4-vector of counts *)
Definition cadd (c d : counts) : counts :=
  let '(a, b, u, q) := c in
  let '(a', b', u', q') := d in (a + a', b + b', u + u', q + q').
Definition cscale (k : R) (c : counts) : counts :=
  let '(a, b, u, q) := c in (k * a, k * b, k * u, k * q).

(** A vector field [d(t, state, args)], as [ODETerm] wraps it. *)
Definition vector_field : Type := R -> counts -> indelParams -> counts.

Section RK4.
Variable field : vector_field.
Variable params : indelParams.

Definition RK4body (y : counts) (t_dt : R * R) : counts * counts :=
  let '(t, dt) := t_dt in
  let k1 := field t y params in
  let k2 := field (t + dt / 2) (cadd y (cscale (dt / 2) k1)) params in
  let k3 := field (t + dt / 2) (cadd y (cscale (dt / 2) k2)) params in
  let k4 := field (t + dt) (cadd y (cscale dt k3)) params in
  let y_next :=
    cadd y (cscale (dt / 6)
              (cadd k1 (cadd (cscale 2 k2) (cadd (cscale 2 k3) k4)))) in
  (y_next, y_next).

(** [jax.lax.scan (RK4body, y0, xs)] *)
Fixpoint scan (y : counts) (xs : list (R * R)) : counts * list counts :=
  match xs with
  | [] => (y, [])
  | x :: rest =>
      let '(y1, y_out) := RK4body y x in
      let '(y_end, ys) := scan y1 rest in
      (y_end, y_out :: ys)
  end.

End RK4.

(** What a call of [integrateCounts_RK4] ends in: it returns, a division of
    Python numbers by zero raises [ZeroDivisionError], or its assertion
    fails. *)
Inductive completion (A : Type) : Type :=
| Completed (a : A)
| ZeroDivisionError
| AssertionError.
Arguments Completed {A} a.
Arguments ZeroDivisionError {A}.
Arguments AssertionError {A}.

Definition bind {A B : Type} (m : completion A) (f : A -> completion B)
    : completion B :=
  match m with
  | Completed a => f a
  | ZeroDivisionError => ZeroDivisionError
  | AssertionError => AssertionError
  end.

Notation "x <- m ;; k" := (bind m (fun x => k))
  (at level 61, m at next level, right associativity).

(** [a / b] on Python numbers *)
Definition divide (a b : R) : completion R :=
  if Req_dec_T b 0 then ZeroDivisionError else Completed (a / b).

(** [integrateCounts_RK4 (t, indelParams, steps, ts)], called with Python
    numbers for [t] and the rates, as [parseHistorianParams] returns them:
    [gmrate] is computed, and may raise, before the times are looked at. *)
Definition integrateCounts_RK4 (t : R) (params : indelParams)
    (steps : nat) (ts : option (list R))
    : completion (counts * list counts * list R) :=
  let '(lam, mu, x, y) := params in
  let y0 := initCounts params in
  inv_lam <- divide 1 lam ;;
  inv_mu <- divide 1 mu ;;
  gmrate <- divide 1 (inv_lam + inv_mu) ;;
  ts <- match ts with
        | Some ts => Completed ts
        | None =>
            step <- divide t (INR steps) ;;
            inv_gmrate <- divide 1 gmrate ;;
            let dt0 := Rmin step inv_gmrate in
            Completed (0 :: geomspace dt0 t steps)
        end ;;
  if (List.length ts =? 0)%nat then AssertionError
  else
    let dts := ediff1d ts in
    let '(y1, ys) := scan derivs params y0 (combine (removelast ts) dts) in
    Completed (y1, y0 :: ys, ts).

(** The extended value of [1 / (1 - exp (- mu * t))]: IEEE division by the
    zero the subtraction yields is [+inf], and the test below relies on it. *)
Inductive xreal : Type :=
| Finite (r : R)
| PlusInf.

Definition expectedMatchRunLength (t mu : R) : xreal :=
  let d := 1 - exp (- mu * t) in
  if Req_dec_T d 0 then PlusInf else Finite (1 / d).

(** [alphabetSize ** e] *)
Definition power (alphabetSize : nat) (e : xreal) : xreal :=
  match e, alphabetSize with
  | PlusInf, O => Finite 0
  | PlusInf, S O => Finite 1
  | PlusInf, _ => PlusInf
  | Finite r, O =>
      if Rlt_dec 0 r then Finite 0
      else if Req_dec_T r 0 then Finite 1 else PlusInf
  | Finite r, _ => Finite (Rpower (INR alphabetSize) r)
  end.

(** [lhs > kappa * w] *)
Definition exceeds (lhs kappa : R) (w : xreal) : bool :=
  match w with
  | Finite r => Rltb (kappa * r) lhs
  | PlusInf => false
  end.

Definition alignmentIsProbablyUndetectable
    (t : R) (params : indelParams) (alphabetSize : nat) : bool :=
  let '(lam, mu, x, y) := params in
  let expectedMatchRunLength := expectedMatchRunLength t mu in
  let expectedInsertions := indels t lam x in
  let expectedDeletions := indels t mu y in
  let kappa := 2 in
  if Rlt_dec 0 t then
    exceeds ((expectedInsertions + 1) * (expectedDeletions + 1)) kappa
            (power alphabetSize expectedMatchRunLength)
  else false.

Definition zeroTimeTransitionMatrix (params : indelParams) : matrix :=
  let '(lam, mu, x, y) := params in
  [[1; 0; 0];
   [1 - x; x; 0];
   [1 - y; 0; y]].

Definition transitionMatrixFromCounts
    (t : R) (params : indelParams) (cnt : counts) (norm : bool) : matrix :=
  let '(lam, mu, x, y) := params in
  let '(a, b, u, q) := cnt in
  let L := lm t lam x in
  let M := lm t mu y in
  let one_minus_L := if Rlt_dec L 1 then 1 - L else smallest_float32 in
  let one_minus_M := if Rlt_dec M 1 then 1 - M else smallest_float32 in
  let mx :=
    [[a; b; 1 - a - b];
     [u * L / one_minus_L;
      1 - (b + q * (1 - M) / M) * L / one_minus_L;
      (b + q * (1 - M) / M - u) * L / one_minus_L];
     [(1 - a - u) * M / one_minus_M; q; 1 - q - (1 - a - u) * M / one_minus_M]] in
  if norm then
    let mx := map (map (Rmax 0)) mx in
    map (fun row => map (fun e => e / sum row) row) mx
  else mx.

Definition largeTimeTransitionMatrix (t : R) (params : indelParams) : matrix :=
  let '(lam, mu, x, y) := params in
  let g := 1 - lm t lam x in
  let r := 1 - lm t mu y in
  [[(1 - g) * (1 - r); g; (1 - g) * r];
   [(1 - g) * (1 - r); g; (1 - g) * r];
   [1 - r; 0; r]].

Definition tMin : R := 1 / 1000.

(** [dummyRootTransitionMatrix ()] *)
Definition dummyRootTransitionMatrix : matrix :=
  [[0; 1; 0]; [1; 1; 0]; [1; 0; 0]].

Section Integrator.
(** [diffeqsolve (term, Dopri5 (), t0, t1, dt0, y0, args, stepsize_controller)]
    of the diffrax library, read as the state it returns at [t1]. *)
Variable diffeqsolve : vector_field -> R -> R -> counts -> indelParams -> counts.

(** [integrateCounts = integrateCounts_diffrax], the final state *)
Definition integrateCounts (t : R) (params : indelParams) : counts :=
  let y0 := initCounts params in
  diffeqsolve derivs 0 t y0 params.

Definition smallTimeTransitionMatrix (t : R) (params : indelParams) : matrix :=
  let abuq := integrateCounts t params in
  transitionMatrixFromCounts t params abuq true.

Definition transitionMatrix
    (t : R) (params : indelParams) (alphabetSize : nat) : matrix :=
  let tSafe := Rmax t tMin in
  if Rlt_dec 0 t then
    if alignmentIsProbablyUndetectable tSafe params alphabetSize
    then largeTimeTransitionMatrix tSafe params
    else smallTimeTransitionMatrix tSafe params
  else zeroTimeTransitionMatrix params.

End Integrator.

(** What every Runge-Kutta scheme does, the adaptive Dormand-Prince scheme
    included: when the field vanishes at the initial state at all times,
    every stage is zero and the state returned is the initial one. *)
Definition stationary
    (solve : vector_field -> R -> R -> counts -> indelParams -> counts) : Prop :=
  forall field t0 t1 y0 args,
    (forall t, field t y0 args = (0, 0, 0, 0)) -> solve field t0 t1 y0 args = y0.

(** The fixed-step scheme of this file as a solver: one RK4 step from [t0]
    to [t1]. *)
Definition rk4_solve : vector_field -> R -> R -> counts -> indelParams -> counts :=
  fun field t0 t1 y0 args => fst (scan field args y0 [(t0, t1 - t0)]).

(** Every row has three entries, none negative, and sums to one. *)
Definition row_stochastic (mx : matrix) : Prop :=
  List.length mx = 3%nat /\
  Forall (fun row => List.length row = 3%nat /\ Forall (Rle 0) row /\ sum row = 1) mx.

End H20.

(** ** float32 values

    The indel model runs in float32 and several of its branches exist only
    to keep NaN and the infinities out.  Here a float32 is NaN, an infinity
    or a number; a result whose magnitude is above the largest float32 is an
    infinity, one below half the smallest subnormal is zero.  Rounding
    inside that range is left out, and a zero is [+0]: the zeros this code
    divides by are underflowed exponentials and differences [1 - 1]. *)
Module Float32.
Import Numeric.
Local Open Scope R_scope.

Inductive float32 : Type :=
| NaN
| Inf (negative : bool)
| Num (r : R).

(** [jnp.finfo ('float32').max] *)
Definition largest : R := (2 - / 2 ^ 23) * 2 ^ 127.
(** [jnp.finfo ('float32').smallest_subnormal] *)
Definition smallest_subnormal : R := / 2 ^ 149.

(** The float32 a real result becomes *)
Definition to_float32 (r : R) : float32 :=
  if Rlt_dec largest (Rabs r) then Inf (Rltb r 0)
  else if Rlt_dec (Rabs r) (smallest_subnormal / 2) then Num 0
  else Num r.

Definition neg (a : float32) : float32 :=
  match a with
  | NaN => NaN
  | Inf s => Inf (negb s)
  | Num r => Num (- r)
  end.

Definition add (a b : float32) : float32 :=
  match a, b with
  | NaN, _ | _, NaN => NaN
  | Inf s, Inf s' => if Bool.eqb s s' then Inf s else NaN
  | Inf s, Num _ | Num _, Inf s => Inf s
  | Num x, Num y => to_float32 (x + y)
  end.

Definition sub (a b : float32) : float32 := add a (neg b).

Definition mul (a b : float32) : float32 :=
  match a, b with
  | NaN, _ | _, NaN => NaN
  | Inf s, Inf s' => Inf (xorb s s')
  | Inf s, Num y | Num y, Inf s =>
      if Req_dec_T y 0 then NaN else Inf (xorb s (Rltb y 0))
  | Num x, Num y => to_float32 (x * y)
  end.

Definition div (a b : float32) : float32 :=
  match a, b with
  | NaN, _ | _, NaN => NaN
  | Inf _, Inf _ => NaN
  | Inf s, Num y => Inf (xorb s (Rltb y 0))
  | Num _, Inf _ => Num 0
  | Num x, Num y =>
      if Req_dec_T y 0 then
        if Req_dec_T x 0 then NaN else Inf (Rltb x 0)
      else to_float32 (x / y)
  end.

(** [jnp.exp] *)
Definition exp (a : float32) : float32 :=
  match a with
  | NaN => NaN
  | Inf true => Num 0
  | Inf false => Inf false
  | Num r => to_float32 (Rtrigo_def.exp r)
  end.

(** [a > b] *)
Definition gt (a b : float32) : bool :=
  match a, b with
  | NaN, _ | _, NaN => false
  | Inf true, _ => false
  | Inf false, Inf false => false
  | Inf false, _ => true
  | Num _, Inf s => s
  | Num x, Num y => Rltb y x
  end.

(** [a < b] *)
Definition lt (a b : float32) : bool := gt b a.

(** [a >= b] *)
Definition ge (a b : float32) : bool :=
  match a, b with
  | NaN, _ | _, NaN => false
  | Inf s, Inf s' => implb s s'
  | Inf s, Num _ => negb s
  | Num _, Inf s => s
  | Num x, Num y => negb (Rltb x y)
  end.

(** [jnp.maximum]: NaN when either argument is *)
Definition maximum (a b : float32) : float32 :=
  match a, b with
  | NaN, _ | _, NaN => NaN
  | _, _ => if gt a b then a else b
  end.

(** [base ** e] for a Python integer [base] that is not negative *)
Definition pow (base : nat) (e : float32) : float32 :=
  match e with
  | NaN => if (base =? 1)%nat then Num 1 else NaN
  | Inf false => match base with O => Num 0 | S O => Num 1 | _ => Inf false end
  | Inf true => match base with O => Inf false | S O => Num 1 | _ => Num 0 end
  | Num r =>
      match base with
      | O => if Rlt_dec 0 r then Num 0
             else if Req_dec_T r 0 then Num 1 else Inf false
      | _ => to_float32 (Rpower (INR base) r)
      end
  end.

(** [jnp.sum] along the last axis *)
Definition sum (l : list float32) : float32 := fold_right add (Num 0) l.

(** *** Values that are not numbers *)

(** NaN, [+inf] or a number that is not negative: what [jnp.maximum (0, _)]
    and [jnp.exp] return. *)
Definition not_negative (a : float32) : Prop :=
  match a with
  | NaN => True
  | Inf s => s = false
  | Num r => 0 <= r
  end.

Definition nan_or_inf (a : float32) : Prop :=
  match a with
  | Num _ => False
  | _ => True
  end.

Definition nan_or_pinf (a : float32) : Prop := a = NaN \/ a = Inf false.

Declare Scope float32_scope.
Delimit Scope float32_scope with f32.
Bind Scope float32_scope with float32.
Notation "a + b" := (add a b) : float32_scope.
Notation "a - b" := (sub a b) : float32_scope.
Notation "a * b" := (mul a b) : float32_scope.
Notation "a / b" := (div a b) : float32_scope.
Notation "- a" := (neg a) : float32_scope.

End Float32.

(** ** h20.py on float32 values

    The functions of [h20.py] on the way to [transitionMatrix] once more,
    operation by operation, on float32 values. *)
Module H20Float32.
Import Float32.
Local Open Scope float32_scope.

(** [jnp.finfo ('float32').smallest_normal] *)
Definition smallest_float32 : float32 := Num (/ 2 ^ 126).

(** [(lam, mu, x, y)] *)
Definition indelParams : Type := (float32 * float32 * float32 * float32)%type.
(** [(a, b, u, q)] *)
Definition counts : Type := (float32 * float32 * float32 * float32)%type.
Definition matrix : Type := list (list float32).

Definition lm (t rate prob : float32) : float32 :=
  exp (- rate * t / (Num 1 - prob)).

Definition indels (t rate prob : float32) : float32 :=
  Num 1 / lm t rate prob - Num 1.

Definition derivs (t : float32) (cnt : counts) (params : indelParams) : counts :=
  let '(lam, mu, x, y) := params in
  let '(a, b, u, q) := cnt in
  let L := lm t lam x in
  let M := lm t mu y in
  let num := mu * (b * M + q * (Num 1 - M)) in
  let unsafe_denom :=
    M * (Num 1 - y) + L * q * y + L * M * (y * (Num 1 + b - q) - Num 1) in
  let denom := if gt unsafe_denom (Num 0) then unsafe_denom else Num 1 in
  let one_minus_m := if lt M (Num 1) then Num 1 - M else smallest_float32 in
  if gt unsafe_denom (Num 0) then
    (mu * b * u * L * M * (Num 1 - y) / denom - (lam + mu) * a,
     - b * num * L / denom + lam * (Num 1 - b),
     - u * num * L / denom + lam * a,
     ((M * (Num 1 - L) - q * L * (Num 1 - M)) * num / denom - q * lam / (Num 1 - y))
       / one_minus_m)
  else (- lam - mu, lam, lam, Num 0).

Definition initCounts (params : indelParams) : counts :=
  (Num 1, Num 0, Num 0, Num 0).

(** A vector field [d(t, state, args)], as [ODETerm] wraps it. *)
Definition vector_field : Type := float32 -> counts -> indelParams -> counts.

Definition alignmentIsProbablyUndetectable
    (t : float32) (params : indelParams) (alphabetSize : nat) : bool :=
  let '(lam, mu, x, y) := params in
  let expectedMatchRunLength := Num 1 / (Num 1 - exp (- mu * t)) in
  let expectedInsertions := indels t lam x in
  let expectedDeletions := indels t mu y in
  let kappa := Num 2 in
  if gt t (Num 0) then
    gt ((expectedInsertions + Num 1) * (expectedDeletions + Num 1))
       (kappa * pow alphabetSize expectedMatchRunLength)
  else false.

Definition zeroTimeTransitionMatrix (params : indelParams) : matrix :=
  let '(lam, mu, x, y) := params in
  [[Num 1; Num 0; Num 0];
   [Num 1 - x; x; Num 0];
   [Num 1 - y; Num 0; y]].

Definition transitionMatrixFromCounts
    (t : float32) (params : indelParams) (cnt : counts) (norm : bool) : matrix :=
  let '(lam, mu, x, y) := params in
  let '(a, b, u, q) := cnt in
  let L := lm t lam x in
  let M := lm t mu y in
  let one_minus_L := if lt L (Num 1) then Num 1 - L else smallest_float32 in
  let one_minus_M := if lt M (Num 1) then Num 1 - M else smallest_float32 in
  let mx :=
    [[a; b; Num 1 - a - b];
     [u * L / one_minus_L;
      Num 1 - (b + q * (Num 1 - M) / M) * L / one_minus_L;
      (b + q * (Num 1 - M) / M - u) * L / one_minus_L];
     [(Num 1 - a - u) * M / one_minus_M; q;
      Num 1 - q - (Num 1 - a - u) * M / one_minus_M]] in
  if norm then
    let mx := map (map (maximum (Num 0))) mx in
    map (fun row => map (fun e => e / sum row) row) mx
  else mx.

Definition largeTimeTransitionMatrix (t : float32) (params : indelParams) : matrix :=
  let '(lam, mu, x, y) := params in
  let g := Num 1 - lm t lam x in
  let r := Num 1 - lm t mu y in
  [[(Num 1 - g) * (Num 1 - r); g; (Num 1 - g) * r];
   [(Num 1 - g) * (Num 1 - r); g; (Num 1 - g) * r];
   [Num 1 - r; Num 0; r]].

Definition tMin : float32 := Num (1 / 1000).

Section Integrator.
(** [diffeqsolve] of the diffrax library, read as the state it returns at
    the end time. *)
Variable diffeqsolve :
  vector_field -> float32 -> float32 -> counts -> indelParams -> counts.

Definition integrateCounts (t : float32) (params : indelParams) : counts :=
  let y0 := initCounts params in
  diffeqsolve derivs (Num 0) t y0 params.

Definition smallTimeTransitionMatrix (t : float32) (params : indelParams) : matrix :=
  let abuq := integrateCounts t params in
  transitionMatrixFromCounts t params abuq true.

Definition transitionMatrix
    (t : float32) (params : indelParams) (alphabetSize : nat) : matrix :=
  let tSafe := maximum t tMin in
  if gt t (Num 0) then
    if alignmentIsProbablyUndetectable tSafe params alphabetSize
    then largeTimeTransitionMatrix tSafe params
    else smallTimeTransitionMatrix tSafe params
  else zeroTimeTransitionMatrix params.

End Integrator.

(** Arithmetic on the 4-vector of counts *)
Definition cadd (c d : counts) : counts :=
  let '(a, b, u, q) := c in
  let '(a', b', u', q') := d in (a + a', b + b', u + u', q + q').
Definition cscale (k : float32) (c : counts) : counts :=
  let '(a, b, u, q) := c in (k * a, k * b, k * u, k * q).

(** A solver to run the model with: one Euler step from [t0] to [t1]. *)
Definition euler_solve :
    vector_field -> float32 -> float32 -> counts -> indelParams -> counts :=
  fun field t0 t1 y0 args => cadd y0 (cscale (t1 - t0) (field t0 y0 args)).

(** What the specification asks of a transition matrix, with the
    comparisons of float32: three rows of three entries, every entry [>= 0]
    and every row sum within [1e-6] of one. *)
Definition row_stochastic (mx : matrix) : Prop :=
  List.length mx = 3%nat /\
  Forall (fun row =>
            List.length row = 3%nat /\
            Forall (fun e => ge e (Num 0) = true) row /\
            exists s, sum row = Num s /\ (Rabs (s - 1) <= / 1000000)%R)
         mx.

End H20Float32.

(** ** likelihood.py *)
Module Likelihood.
Import Numeric.
Local Open Scope R_scope.

Local Notation "'matrix'" := (list (list R)).

(** *** Array indexing as JAX does it

    A negative index counts from the end.  An index that is still out of
    bounds is clamped when an entry is read and dropped when an entry is
    updated. *)
Definition normalize_index (size : nat) (i : Z) : Z :=
  if (i <? 0)%Z then (i + Z.of_nat size)%Z else i.

Definition jget {T : Type} (default : T) (l : list T) (i : Z) : T :=
  let j := normalize_index (List.length l) i in
  let j := Z.max 0 (Z.min j (Z.of_nat (List.length l) - 1)) in
  nth (Z.to_nat j) l default.

Fixpoint alter {T : Type} (f : T -> T) (l : list T) (i : nat) : list T :=
  match l, i with
  | [], _ => []
  | x :: rest, O => f x :: rest
  | x :: rest, S i => x :: alter f rest i
  end.

(** [l.at[i].multiply / divide]: [f] applied to entry [i] *)
Definition jupdate {T : Type} (f : T -> T) (l : list T) (i : Z) : list T :=
  let j := normalize_index (List.length l) i in
  if ((0 <=? j) && (j <? Z.of_nat (List.length l)))%Z
  then alter f l (Z.to_nat j) else l.

(** An elementwise operation on two arrays of the same shape *)
Fixpoint map2 {A B C : Type} (f : A -> B -> C) (l : list A) (l' : list B) : list C :=
  match l, l' with
  | a :: r, b :: r' => f a b :: map2 f r r'
  | _, _ => []
  end.

(** *** Input checks *)
Inductive checked : Type :=
| Passed
| AssertionError.

Definition Rleb (a b : R) : bool := if Rle_dec a b then true else false.

Definition alignmentIsValid (alignment : list (list Z)) (alphabetSize : Z) : checked :=
  if negb (forallb (forallb (fun tok => (-1 <=? tok)%Z)) alignment) then AssertionError
  else if negb (forallb (forallb (fun tok => (tok <? alphabetSize)%Z)) alignment)
  then AssertionError
  else Passed.

(** [x <= jnp.arange (n)] with NumPy broadcasting; [None] when the shapes do
    not broadcast. *)
Definition le_arange (x : list Z) (n : nat) : option bool :=
  match x with
  | [p] => Some (forallb (fun i => (p <=? Z.of_nat i)%Z) (seq 0 n))
  | _ =>
      if (n =? 1)%nat then Some (forallb (fun p => (p <=? 0)%Z) x)
      else if (List.length x =? n)%nat
      then Some (forallb (fun pi => (fst pi <=? Z.of_nat (snd pi))%Z)
                   (combine x (seq 0 n)))
      else None
  end.

Definition treeIsValid
    (distanceToParent : list R) (parentIndex : list Z) (alignmentRows : nat) : checked :=
  if negb (forallb (fun d => Rleb 0 d) distanceToParent) then AssertionError
  else if negb (forallb (fun p => (-1 <=? p)%Z) (tl parentIndex)) then AssertionError
  else match le_arange parentIndex alignmentRows with
       | Some true => Passed
       | _ => AssertionError
       end.

(** *** Matrix exponential

    [jax.scipy.linalg.expm], a library function, read as what it
    approximates: the sum of the exponential series, entry by entry. *)
Definition entry (m : matrix) (i j : nat) : R := nth j (nth i m []) 0.

(** The [n] by [n] array with entry [f i j] at [(i, j)] *)
Definition tabulate (n : nat) (f : nat -> nat -> R) : matrix :=
  map (fun i => map (f i) (seq 0 n)) (seq 0 n).

Definition mmul (n : nat) (a b : matrix) : matrix :=
  tabulate n (fun i j => sum (map (fun k => entry a i k * entry b k j) (seq 0 n))).

(** [jnp.eye (n)] *)
Definition eye (n : nat) : matrix :=
  tabulate n (fun i j => if (i =? j)%nat then 1 else 0).

Fixpoint mpow (n : nat) (m : matrix) (k : nat) : matrix :=
  match k with
  | O => eye n
  | S k => mmul n m (mpow n m k)
  end.

Definition expm_partial (m : matrix) (i j : nat) (N : nat) : R :=
  sum_f_R0 (fun k => entry (mpow (List.length m) m k) i j / INR (fact k)) N.

(** The limit of a convergent sequence *)
Definition limit (u : nat -> R) : R :=
  epsilon (inhabits 0) (fun l => Un_cv u l).

Definition expm (m : matrix) : matrix :=
  tabulate (List.length m) (fun i j => limit (expm_partial m i j)).

(** *** Branch matrices *)
Definition square (m : matrix) : bool :=
  forallb (fun row => (List.length row =? List.length m)%nat) m.

(** [None] stands for a failed shape assertion. *)
Definition computeSubMatrixForBranchLengths
    (distanceToParent : list R) (subRate : matrix) : option (list matrix) :=
  if square subRate then
    Some (map (fun d => expm (map (map (fun q => q * d)) subRate)) distanceToParent)
  else None.

(** [(tMin, tMax, nSteps)] *)
Definition defaultDiscretizationParams : R * R * nat := (1 / 1000, 10, 400%nat).

Definition getDiscretizedTimes (discretizationParams : R * R * nat) : list R :=
  let '(tMin, tMax, nSteps) := discretizationParams in
  0 :: geomspace tMin tMax nSteps.

Definition computeSubMatrixForDiscretizedTimes
    (subRate : matrix) (discretizationParams : R * R * nat) : option (list matrix) :=
  let t := getDiscretizedTimes discretizationParams in
  computeSubMatrixForBranchLengths t subRate.

(** [jnp.digitize (x, bins)] for increasing [bins]: the index of the first
    bin above [x], the number of bins when there is none. *)
Fixpoint digitize (x : R) (bins : list R) : nat :=
  match bins with
  | [] => O
  | b :: rest => if Rlt_dec x b then O else S (digitize x rest)
  end.

(** [jnp.clip (t, lo, hi)] *)
Definition clip (t lo hi : R) : R := Rmin (Rmax t lo) hi.

Definition discretizeBranchLength (t : R) (discretizationParams : R * R * nat) : nat :=
  let '(tMin, tMax, nSteps) := discretizationParams in
  if Req_dec_T t 0 then O
  else (1 + digitize (clip t tMin tMax) (geomspace tMin tMax nSteps))%nat.

(** The index is taken with [discretizeBranchLength (t)], on the default
    grid: [discretizationParams] is not passed on. *)
Definition computeSubMatrixForDiscretizedBranchLengths
    (t : list R) (discreteTimeSubMatrix : list matrix)
    (discretizationParams : R * R * nat) : list matrix :=
  map (fun ti =>
         jget [] discreteTimeSubMatrix
              (Z.of_nat (discretizeBranchLength ti defaultDiscretizationParams)))
      t.

(** *** Pruning *)
Definition dot (v w : list R) : R := sum (map2 Rmult v w).

(** [jnp.einsum ('ij,j->i', m, v)] *)
Definition matvec (m : matrix) (v : list R) : list R := map (fun row => dot row v) m.

(** [jnp.max] along the last axis, which is not empty *)
Definition vmax (v : list R) : R :=
  match v with
  | [] => 0
  | x :: rest => fold_left Rmax rest x
  end.

(** [jnp.concatenate ([jnp.ones (A)[None, :], jnp.eye (A)])] *)
Definition tokenLookup (A : nat) : matrix := repeat 1 A :: eye A.

(** The pruning state: [likelihood] of shape (R, C, A) and [logNorm] of
    shape (C). *)
Definition pruning : Type := (list (list (list R)) * list R)%type.

Definition pruneStep (parentIndex : list Z) (subMatrix : list matrix)
    (state : pruning) (child : nat) : pruning :=
  let '(likelihood, logNorm) := state in
  let parent := jget 0%Z parentIndex (Z.of_nat child) in
  let message :=
    map (matvec (jget [] subMatrix (Z.of_nat child)))
        (jget [] likelihood (Z.of_nat child)) in
  let likelihood := jupdate (fun row => map2 (map2 Rmult) row message) likelihood parent in
  let maxLike := map vmax (jget [] likelihood parent) in
  let likelihood :=
    jupdate (fun row => map2 (fun v m => map (fun e => e / m) v) row maxLike)
            likelihood parent in
  let logNorm := map2 Rplus logNorm (map ln maxLike) in
  (likelihood, logNorm).

(** Unbatched case (no hidden rate categories).  Shapes are read off the
    first entries of the nested lists; [None] stands for a failed shape
    assertion. *)
Definition subLogLikeForMatrices
    (alignment : list (list Z)) (parentIndex : list Z)
    (subMatrix : list matrix) (rootProb : list R) : option (list R) :=
  let R := List.length subMatrix in
  let A := List.length (hd [] subMatrix) in
  let C := List.length (hd [] alignment) in
  if negb (List.length parentIndex =? R)%nat then None
  else if negb (List.length rootProb =? A)%nat then None
  else if negb (forallb (fun m => (List.length m =? A)%nat && square m) subMatrix) then None
  else
    let tokenLookup := tokenLookup A in
    let likelihood :=
      map (map (fun tok => jget [] tokenLookup (tok + 1)%Z)) alignment in
    let logNorm := repeat 0 C in
    let '(likelihood, logNorm) :=
      fold_left (pruneStep parentIndex subMatrix) (rev (seq 1 (R - 1)))
                (likelihood, logNorm) in
    let logNorm :=
      map2 Rplus logNorm
           (map (fun v => ln (dot v rootProb)) (jget [] likelihood 0%Z)) in
    Some logNorm.

Definition subLogLike
    (alignment : list (list Z)) (distanceToParent : list R) (parentIndex : list Z)
    (subRate : matrix) (rootProb : list R) : option (list R) :=
  match computeSubMatrixForBranchLengths distanceToParent subRate with
  | Some subMatrix => subLogLikeForMatrices alignment parentIndex subMatrix rootProb
  | None => None
  end.

(** *** Padding *)
Definition bit_length (z : Z) : Z :=
  if (z =? 0)%Z then 0%Z else (Z.log2 (Z.abs z) + 1)%Z.

(** [jnp.ceil] *)
Definition ceil (x : R) : Z := (1 - up (- x))%Z.

Definition padDimension (len : Z) (multiplier : R) : Z :=
  if Req_dec_T multiplier 2 then Z.shiftl 1 (bit_length (len - 1))
  else ceil (Rpower multiplier (IZR (ceil (ln (IZR len) / ln multiplier)))).

(** [jnp.arange (lo, hi)] *)
Definition arange (lo hi : Z) : list Z :=
  map (fun i => (lo + Z.of_nat i)%Z) (seq 0 (Z.to_nat (hi - lo))).

(** [None] stands for the shape error of [jnp.concatenate] when columns are
    added to an alignment that has more rows than [nRows]. *)
Definition padAlignment
    (alignment : list (list Z)) (parentIndex : list Z) (distanceToParent : list R)
    (nRows nCols : option Z) (colMultiplier rowMultiplier : R)
    : option (list (list Z) * list Z * list R) :=
  let unpaddedRows := Z.of_nat (List.length alignment) in
  let unpaddedCols := Z.of_nat (List.length (hd [] alignment)) in
  let nCols := match nCols with
               | None => padDimension unpaddedCols colMultiplier
               | Some n => n
               end in
  let nRows := match nRows with
               | None => padDimension unpaddedRows rowMultiplier
               | Some n => n
               end in
  let '(alignment, distanceToParent, parentIndex) :=
    if (unpaddedRows <? nRows)%Z then
      (alignment ++ repeat (repeat (-1)%Z (Z.to_nat unpaddedCols))
                           (Z.to_nat (nRows - unpaddedRows)),
       distanceToParent ++ repeat 0 (Z.to_nat (nRows - unpaddedRows)),
       parentIndex ++ arange unpaddedRows nRows)
    else (alignment, distanceToParent, parentIndex) in
  if (unpaddedCols <? nCols)%Z then
    if (Z.of_nat (List.length alignment) =? nRows)%Z then
      Some (map (fun row => row ++ repeat (-1)%Z (Z.to_nat (nCols - unpaddedCols)))
                alignment,
            parentIndex, distanceToParent)
    else None
  else Some (alignment, parentIndex, distanceToParent).

(** *** Auxiliary definitions for the statements below *)
(** The [i]-th point of [jnp.geomspace (tMin, tMax, nSteps)]. *)
Definition gridTime (tMin tMax : R) (nSteps i : nat) : R :=
  tMin * Rpower (tMax / tMin) (INR i / INR (nSteps - 1)).

(** A matrix all of whose entries are zero *)
Definition zero_entries (m : matrix) : Prop := forall i j, entry m i j = 0.

(** A two-state generator whose second state is absorbing. *)
Definition absorbingRate : matrix := [[-1; 1]; [0; 0]].

(** The symmetric two-state generator. *)
Definition symmetricRate : matrix := [[-1; 1]; [1; -1]].

(** The stages of [subLogLikeForMatrices] once its shape assertions hold *)
Definition initialLikelihood (A : nat) (alignment : list (list Z)) : list (list (list R)) :=
  map (map (fun tok => jget [] (tokenLookup A) (tok + 1)%Z)) alignment.

Definition pruned (alignment : list (list Z)) (parentIndex : list Z)
    (subMatrix : list matrix) : pruning :=
  fold_left (pruneStep parentIndex subMatrix)
    (rev (seq 1 (List.length subMatrix - 1)))
    (initialLikelihood (List.length (hd [] subMatrix)) alignment,
     repeat 0 (List.length (hd [] alignment))).

Definition rootLogLike (rootProb : list R) (state : pruning) : list R :=
  map2 Rplus (snd state)
       (map (fun v => ln (dot v rootProb)) (jget [] (fst state) 0%Z)).

Definition shapes_agree (parentIndex : list Z) (subMatrix : list matrix)
    (rootProb : list R) : Prop :=
  List.length parentIndex = List.length subMatrix /\
  List.length rootProb = List.length (hd [] subMatrix) /\
  Forall (fun m => List.length m = List.length (hd [] subMatrix) /\ square m = true)
         subMatrix.

(** The padded state agrees with the unpadded one on the original rows and
    columns. *)
Definition agrees (R0 C0 k : nat) (padded unpadded : pruning) : Prop :=
  List.length (fst unpadded) = R0 /\
  List.length (fst padded) = (R0 + k)%nat /\
  (forall r, (r < R0)%nat ->
     firstn C0 (nth r (fst padded) []) = nth r (fst unpadded) []) /\
  firstn C0 (snd padded) = snd unpadded.

(** What [padAlignment] returns: [k] all-gap rows, then [c] gap columns *)
Definition padded_alignment (alignment : list (list Z)) (k c : nat) : list (list Z) :=
  map (fun row => row ++ repeat (-1)%Z c)
      (alignment ++ repeat (repeat (-1)%Z (List.length (hd [] alignment))) k).

(** *** Substitution models *)
(** [jnp.diag (v)] *)
Definition diag (v : list R) : matrix :=
  tabulate (List.length v) (fun i j => if (i =? j)%nat then nth i v 0 else 0).

(** Shapes are those of a square rate matrix and a root distribution of the
    same size; NumPy broadcasting of other shapes is left out. *)
Definition normalizeSubRate (subRate : matrix) : matrix :=
  let subRate := map (map Rabs) subRate in
  map2 (map2 Rminus) subRate (diag (map sum subRate)).

(** [jax.nn.softmax], a library function, read as the library computes it:
    the logits are shifted by their maximum before the exponential. *)
Definition probsFromLogits (logits : list R) : list R :=
  let unnormalized := map (fun x => exp (x - vmax logits)) logits in
  map (fun e => e / sum unnormalized) unnormalized.

Definition normalizeRootProb (rootProb : list R) : list R :=
  map (fun p => p / sum rootProb) rootProb.

Definition normalizeSubModel (subRate : matrix) (rootProb : list R) : matrix * list R :=
  (normalizeSubRate subRate, normalizeRootProb rootProb).

Definition parametricSubModel (subRate : matrix) (rootLogits : list R) : matrix * list R :=
  (normalizeSubRate subRate, probsFromLogits rootLogits).

(** [jnp.einsum ('i,...ij,j->...ij', 1 / sqrtRootProb, symSubRate, sqrtRootProb)] *)
Definition reversibleSubRate (symSubRate : matrix) (rootProb : list R) : matrix :=
  let sqrtRootProb := map sqrt rootProb in
  map2 (fun c row => map2 (fun s d => c * s * d) row sqrtRootProb)
       (map (fun s => 1 / s) sqrtRootProb) symSubRate.

(** [m.swapaxes (-1, -2)] *)
Definition swapaxes (m : matrix) : matrix :=
  map (fun j => map (fun row => nth j row 0) m) (seq 0 (List.length (hd [] m))).

Definition symmetrizeSubRate (m : matrix) : matrix :=
  normalizeSubRate (map (map (Rmult (1 / 2))) (map2 (map2 Rplus) m (swapaxes m))).

Definition parametricReversibleSubModel (subRate : matrix) (rootLogits : list R)
    : matrix * list R :=
  let rootProb := probsFromLogits rootLogits in
  let subRate := reversibleSubRate (symmetrizeSubRate subRate) rootProb in
  (subRate, rootProb).

(** A rate matrix of a continuous-time Markov chain on [n] states: [n] rows
    of [n] entries, no negative entry off the diagonal, every row summing to
    zero. *)
Definition generator (n : nat) (m : matrix) : Prop :=
  List.length m = n /\
  (forall i, (i < n)%nat -> List.length (nth i m []) = n) /\
  (forall i j, (i < n)%nat -> (j < n)%nat -> i <> j -> 0 <= entry m i j) /\
  (forall i, (i < n)%nat -> sum (nth i m []) = 0).

(** *** Auxiliary definitions for the statements on columns *)
(** What pruning keeps of a state of [R0] rows and [C] columns over [A]
    letters: its shape and, when [gaps] holds (column [c] holds gaps only),
    the vector of ones in every row of that column and a zero there in
    [logNorm]. *)
Definition row_kept (A C c : nat) (gaps : Prop) (row : list (list R)) : Prop :=
  List.length row = C /\ (gaps -> nth c row [] = repeat 1 A).

Definition kept (A C R0 c : nat) (gaps : Prop) (state : pruning) : Prop :=
  List.length (fst state) = R0 /\
  Forall (row_kept A C c gaps) (fst state) /\
  List.length (snd state) = C /\
  (gaps -> nth c (snd state) 0 = 0).

(** Column [c] of a pruning state: one likelihood vector per row and the
    column's entry of [logNorm]. *)
Definition column_of (c : nat) (state : pruning) : list (list R) * R :=
  (map (fun row => nth c row []) (fst state), nth c (snd state) 0).

(** [pruneStep] as it acts on one column *)
Definition columnStep (parentIndex : list Z) (subMatrix : list matrix)
    (state : list (list R) * R) (child : nat) : list (list R) * R :=
  let '(likelihood, logNorm) := state in
  let parent := jget 0%Z parentIndex (Z.of_nat child) in
  let message :=
    matvec (jget [] subMatrix (Z.of_nat child)) (jget [] likelihood (Z.of_nat child)) in
  let likelihood := jupdate (fun v => map2 Rmult v message) likelihood parent in
  let maxLike := vmax (jget [] likelihood parent) in
  let likelihood := jupdate (fun v => map (fun e => e / maxLike) v) likelihood parent in
  (likelihood, logNorm + ln maxLike).

(** A state with rows, each of [C] columns, and [C] entries in [logNorm] *)
Definition rectangular (C : nat) (state : pruning) : Prop :=
  fst state <> [] /\
  Forall (fun row : list (list R) => List.length row = C) (fst state) /\
  List.length (snd state) = C.

(** Row [a] of [jnp.eye (A)]: the likelihood vector of the letter [a] *)
Definition onehot (A a : nat) : list R :=
  map (fun j => if (a =? j)%nat then 1 else 0) (seq 0 A).

End Likelihood.

(** ** likelihood.py: models in Historian format *)
Module Historian.
Import Numeric Likelihood.
Local Open Scope R_scope.
Local Open Scope string_scope.
Local Notation "'matrix'" := (list (list R)).

(** *** Models in Historian format

    The parsed JSON document, read with the types the parser expects: a
    dict is a list of (key, value) pairs in which the first pair with a key
    gives its value. *)
Definition dict (V : Type) : Type := list (string * V).

Fixpoint lookup {V : Type} (key : string) (d : dict V) : option V :=
  match d with
  | [] => None
  | (k, v) :: rest => if String.eqb key k then Some v else lookup key rest
  end.

(** [d.get (key, default)] *)
Definition get {V : Type} (d : dict V) (key : string) (default : V) : V :=
  match lookup key d with
  | Some v => v
  | None => default
  end.

(** The keys ['subrate'] and ['rootprob'] of a dict, where present *)
Record subModelJson : Type := {
  subrate : option (dict (dict R));
  rootprob : option (dict R)
}.

(** The document: its keys ['alphabet'] and ['mixture'] where present, its
    keys ['subrate'] and ['rootprob'], and its numeric keys. *)
Record paramsJson : Type := {
  alphabet : option (list string);
  top : subModelJson;
  mixture : option (list subModelJson);
  numbers : dict R
}.

(** A call returns, raises [KeyError] on a missing key, or fails in the
    array library: without letters there is no matrix to normalize. *)
Inductive raised (A : Type) : Type :=
| Returned (a : A)
| KeyError (key : string)
| ArrayError.
Arguments Returned {A} a.
Arguments KeyError {A} key.
Arguments ArrayError {A}.

Definition parseSubRate (alphabet : list string) (p : subModelJson)
    : raised (matrix * list R) :=
  match alphabet with
  | [] => ArrayError
  | _ =>
      match subrate p with
      | None => KeyError "subrate"
      | Some rates =>
          let subRate :=
            map (fun i => map (fun j => get (get rates i []) j 0) alphabet) alphabet in
          match rootprob p with
          | None => KeyError "rootprob"
          | Some probs =>
              let rootProb := map (fun i => get probs i 0) alphabet in
              Returned (normalizeSubModel subRate rootProb)
          end
      end
  end.

(** A list comprehension over calls that may raise: the first error ends it. *)
Fixpoint each {A B : Type} (f : A -> raised B) (l : list A) : raised (list B) :=
  match l with
  | [] => Returned []
  | a :: rest =>
      match f a with
      | Returned b =>
          match each f rest with
          | Returned bs => Returned (b :: bs)
          | KeyError key => KeyError key
          | ArrayError => ArrayError
          end
      | KeyError key => KeyError key
      | ArrayError => ArrayError
      end
  end.

Definition parseHistorianParams (params : paramsJson)
    : raised (list string * list (matrix * list R) * list R) :=
  match alphabet params with
  | None => KeyError "alphabet"
  | Some alphabet =>
      let mixture :=
        match mixture params with
        | Some components => each (parseSubRate alphabet) components
        | None => each (parseSubRate alphabet) [top params]
        end in
      match mixture with
      | Returned mixture =>
          let indelParams :=
            map (fun name => get (numbers params) name 0)
                ["insrate"; "delrate"; "insextprob"; "delextprob"] in
          Returned (alphabet, mixture, indelParams)
      | KeyError key => KeyError key
      | ArrayError => ArrayError
      end
  end.

(** *** Writing a model *)
(** A dict comprehension: a pair produced later replaces an earlier pair
    with the same key, so the pairs are kept last first. *)
Definition comprehension {V : Type} (pairs : list (string * V)) : dict V := rev pairs.

(** The first dict [toHistorianParams] returns: one model, or a dict with
    the key ['mixture']. *)
Inductive modelJson : Type :=
| Single (model : subModelJson)
| Mixture (models : list subModelJson).

(** [range (len (alphabet))] *)
Definition letterIndices (alphabet : list string) : list nat :=
  seq 0 (List.length alphabet).

Definition toSubRate (alphabet : list string) (subRate : matrix) (rootProb : list R)
    : subModelJson :=
  {| subrate :=
       Some (comprehension
               (map (fun i =>
                       (nth i alphabet "",
                        comprehension
                          (map (fun j =>
                                  (nth j alphabet "",
                                   jget 0 (jget [] subRate (Z.of_nat i)) (Z.of_nat j)))
                               (filter (fun j => negb (i =? j)%nat)
                                       (letterIndices alphabet)))))
                    (letterIndices alphabet)));
     rootprob :=
       Some (comprehension
               (map (fun i => (nth i alphabet "", jget 0 rootProb (Z.of_nat i)))
                    (letterIndices alphabet))) |}.

Definition toHistorianParams (alphabet : list string)
    (mixture : list (matrix * list R)) (indelParams : list R) : modelJson * dict R :=
  let indel :=
    comprehension
      (combine ["insrate"; "delrate"; "insextprob"; "delextprob"] indelParams) in
  match mixture with
  | [(subRate, rootProb)] => (Single (toSubRate alphabet subRate rootProb), indel)
  | _ =>
      (Mixture (map (fun m => toSubRate alphabet (fst m) (snd m)) mixture), indel)
  end.

(** The document that holds the alphabet and the keys of the two dicts
    [toHistorianParams] returns *)
Definition document (letters : list string) (out : modelJson * dict R) : paramsJson :=
  {| alphabet := Some letters;
     top := match fst out with
            | Single model => model
            | Mixture _ => {| subrate := None; rootprob := None |}
            end;
     mixture := match fst out with
                | Single _ => None
                | Mixture models => Some models
                end;
     numbers := snd out |}.

(** A normalized model over [n] letters *)
Definition normalized (n : nat) (m : matrix * list R) : Prop :=
  generator n (fst m) /\ List.length (snd m) = n /\ sum (snd m) = 1.

End Historian.

(** ** testcigar.py *)
Module TestCigar.
Import Historian.

(** What becomes of a run of [main] on the way to its computation *)
Inductive progress : Type :=
| Proceeds
| AssertionError (msg : string)
| Raised.

(** [main] from the parsing of the model to its two assertions.  The calls
    into [cigartree] around them are not part of these sources; the
    assertions look at the parsed model only. *)
Definition main_assertions (modelJson : paramsJson) : progress :=
  match parseHistorianParams modelJson with
  | Returned (alphabet, mixture, indelParams) =>
      if negb (List.length mixture =? 1)%nat then
        AssertionError "Only one mixture component is supported for substitution model"
      else if negb (List.length indelParams =? 1)%nat then
        AssertionError "Only one indel parameter set is supported for indel model"
      else Proceeds
  | _ => Raised
  end.

End TestCigar.

(** ** Properties of the bounded optimizer *)
Module BoundedWhileLoopFacts.
Import Float BoundedWhileLoop.

(** *** Order facts on scores *)
Section FloatOrder.

Lemma not_gt_ge (a b : float) :
  a <> NaN -> b <> NaN -> gt a b = false -> ge b a = true.
Proof.
  destruct a, b; simpl; try congruence; intros _ _.
  rewrite negb_false_iff. trivial.
Qed.

Lemma gt_irrefl (a : float) : gt a a = false.
Proof.
  destruct a; simpl; try reflexivity.
  apply negb_false_iff, Qle_bool_iff, Qle_refl.
Qed.

(** A value that does not exceed [b] does not exceed anything above [b]. *)
Lemma not_gt_below (p b c : float) :
  gt p b = false -> gt c b = true -> gt p c = false.
Proof.
  destruct p, b, c; simpl; try congruence.
  rewrite !negb_false_iff, negb_true_iff, !Qle_bool_iff. intros H1 H2.
  destruct (Qlt_le_dec q0 q1) as [Hlt|Hle].
  - apply Qle_trans with q0; [exact H1 | apply Qlt_le_weak, Hlt].
  - apply Qle_bool_iff in Hle. congruence.
Qed.

(** [>=] never relates a NaN. *)
Lemma ge_number (a b : float) : ge a b = true -> b <> NaN.
Proof. destruct a, b; simpl; congruence. Qed.

End FloatOrder.

(** *** The recursion is a bounded while loop *)
Section LoopFacts.
Context {V : Type}.
Variable cond_fun : V -> bool.
Variable body_fun : V -> V.

Local Notation "'step'" := (guarded_step cond_fun body_fun).

Lemma guarded_step_stopped (v : V) (n : nat) :
  cond_fun v = false -> Nat.iter n step v = v.
Proof.
  intros H. induction n as [|n IH]; simpl; [reflexivity|].
  rewrite IH. unfold guarded_step. now rewrite H.
Qed.

Lemma iter_add (n m : nat) (v : V) :
  Nat.iter (n + m) step v = Nat.iter n step (Nat.iter m step v).
Proof. induction n as [|n IH]; simpl; [reflexivity | now rewrite IH]. Qed.

Lemma while_loop_unrolls (max_steps : positive) :
  forall v,
    _while_loop cond_fun body_fun (cond_fun v, v) max_steps =
    (cond_fun (Nat.iter (unrolled_steps max_steps) step v),
     Nat.iter (unrolled_steps max_steps) step v).
Proof.
  assert (twice : forall half,
    (forall v, _while_loop cond_fun body_fun (cond_fun v, v) half =
               (cond_fun (Nat.iter (unrolled_steps half) step v),
                Nat.iter (unrolled_steps half) step v)) ->
    forall v,
      (let _scan_fn := fun _data : bool * V =>
         if fst _data then _while_loop cond_fun body_fun _data half else _data in
       _scan_fn (_scan_fn (cond_fun v, v))) =
      (cond_fun (Nat.iter (2 * unrolled_steps half) step v),
       Nat.iter (2 * unrolled_steps half) step v)).
  { intros half IH v. cbv zeta.
    replace (2 * unrolled_steps half)%nat
      with (unrolled_steps half + unrolled_steps half)%nat by lia.
    rewrite iter_add.
    set (n := unrolled_steps half) in *.
    assert (first : (if fst (cond_fun v, v)
                     then _while_loop cond_fun body_fun (cond_fun v, v) half
                     else (cond_fun v, v)) =
                    (cond_fun (Nat.iter n step v), Nat.iter n step v)).
    { simpl fst. destruct (cond_fun v) eqn:E.
      - rewrite <- E. apply IH.
      - rewrite (guarded_step_stopped v n E). now rewrite E. }
    rewrite first. set (w := Nat.iter n step v).
    simpl fst. destruct (cond_fun w) eqn:E.
    - rewrite <- E. apply IH.
    - rewrite (guarded_step_stopped w n E). now rewrite E. }
  induction max_steps as [half IH|half IH|]; intros v.
  - exact (twice half IH v).
  - exact (twice half IH v).
  - simpl. unfold guarded_step. destruct (cond_fun v); reflexivity.
Qed.

Lemma land_double (a b : Z) : Z.land (2 * a) (2 * b + 1) = (2 * Z.land a b)%Z.
Proof.
  apply Z.bits_inj'. intros n Hn. rewrite Z.land_spec.
  destruct (Z.eq_dec n 0) as [->|Hne].
  - now rewrite !Z.testbit_even_0.
  - replace n with (Z.succ (n - 1)) by lia.
    rewrite !Z.testbit_even_succ, Z.testbit_odd_succ, Z.land_spec by lia.
    reflexivity.
Qed.

Lemma land_pred_pow2 (k : nat) :
  Z.land (2 ^ Z.of_nat k) (2 ^ Z.of_nat k - 1) = 0%Z.
Proof.
  replace (2 ^ Z.of_nat k - 1)%Z with (Z.ones (Z.of_nat k))
    by (rewrite Z.ones_equiv; lia).
  rewrite Z.land_ones by lia. apply Z.mod_same. lia.
Qed.

Lemma land_pred_zero_pow2 (p : positive) :
  Z.land (Z.pos p) (Z.pos p - 1) = 0%Z ->
  exists k : nat, Z.pos p = (2 ^ Z.of_nat k)%Z.
Proof.
  induction p as [p IH|p IH|]; intros H.
  - exfalso.
    replace (Z.pos p~1 - 1)%Z with (2 * Z.pos p)%Z in H by lia.
    replace (Z.pos p~1) with (2 * Z.pos p + 1)%Z in H by lia.
    rewrite Z.land_comm, land_double, Z.land_diag in H. lia.
  - replace (Z.pos p~0 - 1)%Z with (2 * (Z.pos p - 1) + 1)%Z in H by lia.
    replace (Z.pos p~0) with (2 * Z.pos p)%Z in H by lia.
    rewrite land_double in H.
    destruct IH as [k Hk]; [lia|].
    exists (Datatypes.S k).
    rewrite Nat2Z.inj_succ, Z.pow_succ_r by lia. lia.
  - exists 0%nat. reflexivity.
Qed.

Lemma unrolled_steps_pow2 (k : nat) :
  unrolled_steps (Z.to_pos (2 ^ Z.of_nat k)) = Z.to_nat (2 ^ Z.of_nat k).
Proof.
  induction k as [|k IH]; [reflexivity|].
  rewrite Nat2Z.inj_succ, Z.pow_succ_r by lia.
  assert (0 < 2 ^ Z.of_nat k)%Z by (apply Z.pow_pos_nonneg; lia).
  rewrite Z2Pos.inj_mul by lia.
  change (Z.to_pos 2) with 2%positive.
  change (2 * Z.to_pos (2 ^ Z.of_nat k))%positive
    with (xO (Z.to_pos (2 ^ Z.of_nat k))).
  cbn [unrolled_steps]. rewrite IH. lia.
Qed.

Lemma bounded_while_loop_pow2 (init_val : V) (k : nat) :
  bounded_while_loop cond_fun body_fun init_val (2 ^ Z.of_nat k) =
  Ok (Nat.iter (Z.to_nat (2 ^ Z.of_nat k)) step init_val).
Proof.
  assert (0 < 2 ^ Z.of_nat k)%Z by (apply Z.pow_pos_nonneg; lia).
  unfold bounded_while_loop.
  destruct (Z.ltb_spec (2 ^ Z.of_nat k) 0); [lia|].
  destruct (Z.eqb_spec (2 ^ Z.of_nat k) 0); [lia|].
  rewrite land_pred_pow2. simpl negb. cbv zeta.
  rewrite while_loop_unrolls, unrolled_steps_pow2. reflexivity.
Qed.

Lemma bounded_while_loop_rejects (init_val : V) (m : Z) :
  m <> 0%Z -> (forall k : nat, m <> (2 ^ Z.of_nat k)%Z) ->
  exists msg, bounded_while_loop cond_fun body_fun init_val m = ValueError msg.
Proof.
  intros Hm Hk. unfold bounded_while_loop.
  destruct (Z.ltb_spec m 0); [eauto|].
  destruct (Z.eqb_spec m 0); [lia|].
  destruct (Z.eqb_spec (Z.land m (m - 1)) 0) as [E|E]; [|simpl; eauto].
  destruct m as [|p|p]; try lia.
  destruct (land_pred_zero_pow2 p E) as [k Hp]. now destruct (Hk k).
Qed.

End LoopFacts.

(** *** The optimizer *)
Section OptimizeFacts.
Context {S : Type}.
Variable score_fun : S -> float.
Variable update_fun : S -> S.
Variable min_inc : float.
Variable init_state : S.

Local Notation "'step'" :=
  (guarded_step (cond_fun min_inc) (body_fun score_fun update_fun)).
Local Notation "'start'" := (init_val score_fun init_state).
Local Notation "'seen'" := (visited score_fun update_fun min_inc init_state).
Local Notation "'scored' s" := (score_fun s, s) (at level 10).

Lemma current_body (v : loop_val) :
  current (body_fun score_fun update_fun v) =
  scored (update_fun (snd (current v))).
Proof. destruct v as [[prev [cs cst]] [bs bst]]. reflexivity. Qed.

Lemma best_body (v : loop_val) :
  best (body_fun score_fun update_fun v) =
  if gt (score_fun (update_fun (snd (current v)))) (fst (best v))
  then scored (update_fun (snd (current v)))
  else best v.
Proof.
  destruct v as [[prev [cs cst]] [bs bst]]. unfold best, current. simpl.
  destruct (gt _ bs); reflexivity.
Qed.

Lemma visited_snoc (n : nat) :
  seen (Datatypes.S n) = seen n ++ [current (Nat.iter (Datatypes.S n) step start)].
Proof.
  unfold visited, run.
  rewrite (seq_S (Datatypes.S n) 0), !map_app. reflexivity.
Qed.

Lemma current_visited (n : nat) : In (current (Nat.iter n step start)) (seen n).
Proof.
  destruct n as [|n].
  - left. reflexivity.
  - rewrite visited_snoc. apply in_or_app. right. left. reflexivity.
Qed.

Lemma current_produced (n : nat) :
  exists j, (j <= n)%nat /\
    current (Nat.iter n step start) = scored (Nat.iter j update_fun init_state).
Proof.
  induction n as [|n [j [Hj IH]]].
  - exists 0%nat. split; [lia | reflexivity].
  - rewrite Nat.iter_succ. set (v := Nat.iter n step start) in *.
    unfold guarded_step. destruct (cond_fun min_inc v).
    + exists (Datatypes.S j). split; [lia|].
      rewrite current_body, IH. reflexivity.
    + exists j. split; [lia | exact IH].
Qed.

Lemma visited_produced (n : nat) (p : float * S) :
  In p (seen n) ->
  exists j, (j <= n)%nat /\ p = scored (Nat.iter j update_fun init_state).
Proof.
  induction n as [|n IH].
  - intros [<-|[]]. exists 0%nat. split; [lia | reflexivity].
  - rewrite visited_snoc. intros H. apply in_app_or in H.
    destruct H as [H|[<-|[]]].
    + destruct (IH H) as [j [Hj ->]]. exists j. split; [lia | reflexivity].
    + destruct (current_produced (Datatypes.S n)) as [j [Hj ->]]. eauto.
Qed.

Lemma best_visited (n : nat) : In (best (Nat.iter n step start)) (seen n).
Proof.
  induction n as [|n IH].
  - left. reflexivity.
  - rewrite visited_snoc. apply in_or_app.
    rewrite Nat.iter_succ. set (v := Nat.iter n step start) in *.
    unfold guarded_step. destruct (cond_fun min_inc v); [|left; exact IH].
    rewrite best_body, current_body.
    destruct (gt _ _); [right; left; reflexivity | left; exact IH].
Qed.

Lemma best_not_exceeded (n : nat) :
  forall p, In p (seen n) -> gt (fst p) (fst (best (Nat.iter n step start))) = false.
Proof.
  induction n as [|n IH]; intros p Hp.
  - destruct Hp as [<-|[]]. apply gt_irrefl.
  - pose proof (current_visited n) as Hcur.
    rewrite visited_snoc in Hp. apply in_app_or in Hp.
    rewrite Nat.iter_succ in *. set (v := Nat.iter n step start) in *.
    unfold guarded_step in *. destruct (cond_fun min_inc v).
    + rewrite best_body. rewrite current_body in Hp.
      destruct (gt (score_fun (update_fun (snd (current v)))) (fst (best v))) eqn:G;
        cbn [fst] in *.
      * destruct Hp as [Hp|[<-|[]]]; [|apply gt_irrefl].
        eapply not_gt_below; [apply IH, Hp | exact G].
      * destruct Hp as [Hp|[<-|[]]]; [apply IH, Hp | exact G].
    + destruct Hp as [Hp|[<-|[]]]; [apply IH, Hp | apply IH, Hcur].
Qed.

Lemma best_bounds_visited (n : nat) :
  (forall p, In p (seen n) -> fst p <> NaN) ->
  forall p, In p (seen n) -> ge (fst (best (Nat.iter n step start))) (fst p) = true.
Proof.
  intros Hnum p Hp. apply not_gt_ge.
  - apply Hnum, Hp.
  - apply Hnum, best_visited.
  - apply best_not_exceeded, Hp.
Qed.

Lemma init_visited (n : nat) : In (scored init_state) (seen n).
Proof.
  unfold visited, run. rewrite <- cons_seq. left. reflexivity.
Qed.

Lemma bounded_optimize_pow2 (k : nat) :
  bounded_optimize score_fun update_fun min_inc init_state (2 ^ Z.of_nat k) =
  Ok (best (Nat.iter (Z.to_nat (2 ^ Z.of_nat k)) step start)).
Proof. unfold bounded_optimize. now rewrite bounded_while_loop_pow2. Qed.

End OptimizeFacts.

(** C6, as amended: for a power-of-two [max_steps], [bounded_optimize]
    returns a (score, state) pair the run went through, the initial pair
    being one of them, and no pair the run went through has a score greater
    than the one returned.  The returned score is [>=] the score of every
    pair the run went through, the initial one included, exactly when none
    of these scores is NaN, which [>=] never relates.  Each such pair is a
    state produced by iterating [update_fun] from the initial state, paired
    with its score. *)
Theorem optimize_best_dominates
    {S : Type} (score_fun : S -> float) (update_fun : S -> S)
    (min_inc : float) (init_state : S) (k : nat) :
  let n := Z.to_nat (2 ^ Z.of_nat k) in
  let seen := visited score_fun update_fun min_inc init_state n in
  exists best_score best_state,
    bounded_optimize score_fun update_fun min_inc init_state (2 ^ Z.of_nat k) =
      Ok (best_score, best_state) /\
    In (best_score, best_state) seen /\
    In (score_fun init_state, init_state) seen /\
    (forall p, In p seen -> gt (fst p) best_score = false) /\
    ((forall p, In p seen -> fst p <> NaN) <->
     (ge best_score (score_fun init_state) = true /\
      forall p, In p seen -> ge best_score (fst p) = true)) /\
    (forall p, In p seen ->
       exists j, (j <= n)%nat /\
         p = (score_fun (Nat.iter j update_fun init_state),
              Nat.iter j update_fun init_state)).
Proof.
  intros n seen.
  set (v := Nat.iter n (guarded_step (cond_fun min_inc)
                          (body_fun score_fun update_fun))
                     (init_val score_fun init_state)).
  exists (fst (best v)), (snd (best v)).
  rewrite <- surjective_pairing.
  split; [apply bounded_optimize_pow2|].
  split; [apply best_visited|].
  split; [apply init_visited|].
  split; [apply best_not_exceeded|].
  split; [|apply visited_produced].
  split.
  - intros Hnum. split.
    + apply (best_bounds_visited score_fun update_fun min_inc init_state n Hnum
               (score_fun init_state, init_state)), init_visited.
    + apply best_bounds_visited, Hnum.
  - intros [_ Hge] p Hp. apply (ge_number (fst (best v))), Hge, Hp.
Qed.

Lemma optimize_best_dominates_witness :
  let score_fun := fun s : nat => Fin (inject_Z (Z.of_nat s)) in
  let seen := visited score_fun Datatypes.S (Fin (1 # 1000)) 0%nat 4 in
  exists best_score best_state,
    bounded_optimize score_fun Datatypes.S (Fin (1 # 1000)) 0%nat 4 =
      Ok (best_score, best_state) /\
    In (best_score, best_state) seen /\
    ge best_score (score_fun 0%nat) = true /\
    forall p, In p seen -> ge best_score (fst p) = true.
Proof.
  destruct (optimize_best_dominates
              (fun s : nat => Fin (inject_Z (Z.of_nat s))) Datatypes.S
              (Fin (1 # 1000)) 0%nat 2)
    as [best_score [best_state [Hrun [Hin [_ [_ [Hge Hmade]]]]]]].
  exists best_score, best_state.
  split; [exact Hrun|]. split; [exact Hin|].
  apply Hge. intros p Hp. destruct (Hmade p Hp) as [j [_ ->]]. discriminate.
Defined.

(** C6, the failing inputs.  First, a score function that is NaN everywhere:
    the loop does not start ([NaN > -inf] is false), the pair returned is
    the initial one, and its score is not [>=] the score of the initial
    state, which is the same NaN.  Second, a score that is NaN on the state
    [1] only: the run visits that state, keeps the initial pair as the best
    one and stops; the returned score [0] is not [>=] the NaN score of the
    visited state. *)
Lemma optimize_best_not_above_nan :
  (let score_fun := fun _ : nat => NaN in
   bounded_optimize score_fun Datatypes.S (Fin (1 # 1000)) 0%nat 4 =
     Ok (NaN, 0%nat) /\
   ge NaN (score_fun 0%nat) = false) /\
  (let score_fun := fun s : nat =>
     if (s =? 1)%nat then NaN else Fin (inject_Z (Z.of_nat s)) in
   bounded_optimize score_fun Datatypes.S (Fin (1 # 1000)) 0%nat 4 =
     Ok (Fin 0, 0%nat) /\
   In (score_fun 1%nat, 1%nat)
      (visited score_fun Datatypes.S (Fin (1 # 1000)) 0%nat 4) /\
   ge (Fin 0) (score_fun 1%nat) = false).
Proof.
  split; cbv zeta; repeat split.
  right. left. reflexivity.
Qed.

(** C7: with [max_steps = 0] the optimizer returns the initial state paired
    with its own score; with a [max_steps] that is neither zero nor a power
    of two (negative values included) it raises [ValueError], whatever the
    score and update functions are. *)
Theorem optimize_max_steps_guard
    {S : Type} (score_fun : S -> float) (update_fun : S -> S)
    (min_inc : float) (init_state : S) :
  bounded_optimize score_fun update_fun min_inc init_state 0 =
    Ok (score_fun init_state, init_state) /\
  (forall m : Z, m <> 0%Z -> (forall k : nat, m <> (2 ^ Z.of_nat k)%Z) ->
     exists msg,
       bounded_optimize score_fun update_fun min_inc init_state m = ValueError msg).
Proof.
  split; [reflexivity|].
  intros m Hm Hk. unfold bounded_optimize.
  destruct (bounded_while_loop_rejects (cond_fun min_inc)
              (body_fun score_fun update_fun)
              (init_val score_fun init_state) m Hm Hk) as [msg ->].
  eauto.
Qed.




Lemma optimize_max_steps_guard_witness :
  bounded_optimize (fun s : nat => Fin (inject_Z (Z.of_nat s))) Datatypes.S
    (Fin (1 # 1000)) 0%nat 0 = Ok (Fin 0, 0%nat) /\
  exists msg,
    bounded_optimize (fun s : nat => Fin (inject_Z (Z.of_nat s))) Datatypes.S
      (Fin (1 # 1000)) 0%nat 6 = ValueError msg.
Proof.
  destruct (optimize_max_steps_guard
              (fun s : nat => Fin (inject_Z (Z.of_nat s))) Datatypes.S
              (Fin (1 # 1000)) 0%nat) as [H0 H].
  split; [exact H0|].
  apply (H 6%Z); [lia|].
  intros [|[|[|k]]]; try (cbn; lia).
  rewrite !Nat2Z.inj_succ, !Z.pow_succ_r by lia.
  assert (0 < 2 ^ Z.of_nat k)%Z by (apply Z.pow_pos_nonneg; lia). lia.
Defined.

End BoundedWhileLoopFacts.

(** ** Properties of the indel transition model *)
Module H20Facts.
Import Numeric H20.
Local Open Scope R_scope.

(** *** Survival function *)
Lemma lm_pos (t rate prob : R) : 0 < lm t rate prob.
Proof. apply exp_pos. Qed.

Lemma lm_le_1 (t rate prob : R) :
  0 <= rate -> 0 <= t -> prob < 1 -> lm t rate prob <= 1.
Proof.
  intros Hr Ht Hp. unfold lm.
  replace 1 with (exp 0) at 2 by apply exp_0.
  assert (H : - rate * t / (1 - prob) <= 0).
  { assert (0 <= rate * t / (1 - prob)).
    { apply Rmult_le_pos; [apply Rmult_le_pos; assumption|].
      left. apply Rinv_0_lt_compat. lra. }
    unfold Rdiv in *. lra. }
  destruct H as [H|H]; [left; apply exp_increasing, H | right; now rewrite H].
Qed.

Lemma lm_no_rate (t prob : R) : lm t 0 prob = 1.
Proof.
  unfold lm. replace (- 0 * t / (1 - prob)) with 0 by (unfold Rdiv; ring).
  apply exp_0.
Qed.

Lemma smallest_float32_pos : 0 < smallest_float32.
Proof. apply Rinv_0_lt_compat, pow_lt. lra. Qed.

(** *** Rows *)
Ltac each_entry tac :=
  repeat (apply Forall_cons; [tac|]); apply Forall_nil.

Ltac componentwise tac :=
  repeat first [apply (f_equal2 (@cons _)) | apply (f_equal2 (@pair _ _))];
  try reflexivity; tac.

Lemma clipped_row_normalizes (a b c : R) :
  a + b + c = 1 ->
  let row := map (Rmax 0) [a; b; c] in
  let out := map (fun e => e / sum row) row in
  List.length out = 3%nat /\ Forall (Rle 0) out /\ sum out = 1.
Proof.
  intros H. cbn [map sum fold_right].
  pose proof (Rmax_l 0 a). pose proof (Rmax_r 0 a).
  pose proof (Rmax_l 0 b). pose proof (Rmax_r 0 b).
  pose proof (Rmax_l 0 c). pose proof (Rmax_r 0 c).
  set (A := Rmax 0 a) in *. set (B := Rmax 0 b) in *. set (C := Rmax 0 c) in *.
  assert (Hs : 0 < A + (B + (C + 0))) by lra.
  assert (Hi : 0 < / (A + (B + (C + 0)))) by (apply Rinv_0_lt_compat, Hs).
  split; [reflexivity|]. split.
  - each_entry ltac:(apply Rmult_le_pos; lra).
  - field. lra.
Qed.

Lemma rows_from_counts_sum (t : R) (params : indelParams) (cnt : counts) :
  Forall (fun row => List.length row = 3%nat /\ sum row = 1)
         (transitionMatrixFromCounts t params cnt false).
Proof.
  destruct params as [[[lam mu] x] y], cnt as [[[a b] u] q].
  unfold transitionMatrixFromCounts.
  each_entry ltac:(split; [reflexivity | cbn [sum fold_right]; unfold Rdiv; ring]).
Qed.

Lemma fromCounts_row_stochastic (t : R) (params : indelParams) (cnt : counts) :
  row_stochastic (transitionMatrixFromCounts t params cnt true).
Proof.
  pose proof (rows_from_counts_sum t params cnt) as H.
  destruct params as [[[lam mu] x] y], cnt as [[[a b] u] q].
  unfold transitionMatrixFromCounts in *.
  cbv zeta in *.
  set (L := lm t lam x) in *. set (M := lm t mu y) in *.
  set (oL := if Rlt_dec L 1 then 1 - L else smallest_float32) in *.
  set (oM := if Rlt_dec M 1 then 1 - M else smallest_float32) in *.
  inversion_clear H as [|? ? [_ H0] H']. inversion_clear H' as [|? ? [_ H1] H''].
  inversion_clear H'' as [|? ? [_ H2] _].
  cbn [sum fold_right] in H0, H1, H2.
  split; [reflexivity|].
  cbn [map].
  each_entry ltac:(apply clipped_row_normalizes; lra).
Qed.

Lemma zeroTime_row_stochastic (lam mu x y : R) :
  0 <= x < 1 -> 0 <= y < 1 ->
  row_stochastic (zeroTimeTransitionMatrix (lam, mu, x, y)).
Proof.
  intros Hx Hy. split; [reflexivity|].
  each_entry ltac:(split; [reflexivity|];
                   split; [each_entry ltac:(lra) | cbn [sum fold_right]; lra]).
Qed.

Lemma largeTime_row_stochastic (t lam mu x y : R) :
  0 <= lam -> 0 <= mu -> x < 1 -> y < 1 -> 0 <= t ->
  row_stochastic (largeTimeTransitionMatrix t (lam, mu, x, y)).
Proof.
  intros Hl Hm Hx Hy Ht. unfold largeTimeTransitionMatrix.
  pose proof (lm_pos t lam x). pose proof (lm_le_1 t lam x Hl Ht Hx).
  pose proof (lm_pos t mu y). pose proof (lm_le_1 t mu y Hm Ht Hy).
  set (L := lm t lam x) in *. set (M := lm t mu y) in *.
  split; [reflexivity|].
  each_entry ltac:(split; [reflexivity|];
                   split; [each_entry ltac:(nra) | cbn [sum fold_right]; lra]).
Qed.

(** *** The fixed-step scheme is a stationary solver *)
Lemma cadd_cscale_zero (y : counts) (k : R) : cadd y (cscale k (0, 0, 0, 0)) = y.
Proof. destruct y as [[[a b] u] q]. cbn. componentwise ltac:(ring). Qed.

Lemma rk4_solve_stationary : stationary rk4_solve.
Proof.
  intros field t0 t1 y0 args H. unfold rk4_solve. cbn [scan RK4body fst].
  repeat (rewrite H || rewrite cadd_cscale_zero).
  replace (cadd (0, 0, 0, 0)
             (cadd (cscale 2 (0, 0, 0, 0))
                (cadd (cscale 2 (0, 0, 0, 0)) (0, 0, 0, 0))))
    with (cscale 0 (0, 0, 0, 0)) by (cbn; componentwise ltac:(ring)).
  replace (cscale ((t1 - t0) / 6) (cscale 0 (0, 0, 0, 0)))
    with (cscale 0 (0, 0, 0, 0)) by (cbn; componentwise ltac:(ring)).
  apply cadd_cscale_zero.
Qed.

(** *** No indel activity *)
Lemma derivs_no_indel (t : R) :
  derivs t (initCounts (0, 0, 0, 0)) (0, 0, 0, 0) = (0, 0, 0, 0).
Proof.
  unfold derivs, initCounts. rewrite lm_no_rate.
  destruct (Rlt_dec 0 _) as [H|_]; [exfalso; lra|].
  componentwise ltac:(ring).
Qed.

Lemma fromCounts_norm (t : R) (params : indelParams) (cnt : counts) :
  transitionMatrixFromCounts t params cnt true =
  map (fun row => map (fun e => e / sum row) row)
      (map (map (Rmax 0)) (transitionMatrixFromCounts t params cnt false)).
Proof. destruct params as [[[lam mu] x] y], cnt as [[[a b] u] q]. reflexivity. Qed.

Lemma fromCounts_no_indel (t : R) (norm : bool) :
  transitionMatrixFromCounts t (0, 0, 0, 0) (1, 0, 0, 0) norm =
  [[1; 0; 0]; [0; 1; 0]; [0; 0; 1]].
Proof.
  assert (raw : transitionMatrixFromCounts t (0, 0, 0, 0) (1, 0, 0, 0) false =
                [[1; 0; 0]; [0; 1; 0]; [0; 0; 1]]).
  { unfold transitionMatrixFromCounts. rewrite lm_no_rate.
    destruct (Rlt_dec 1 1) as [H|_]; [exfalso; lra|].
    pose proof smallest_float32_pos.
    componentwise ltac:(field; lra). }
  destruct norm; [|exact raw].
  rewrite fromCounts_norm, raw. cbn [map sum fold_right].
  assert (Rmax 0 1 = 1) as -> by (apply Rmax_right; lra).
  assert (Rmax 0 0 = 0) as -> by (apply Rmax_left; lra).
  componentwise ltac:(field).
Qed.

Lemma undetectable_no_indel (t : R) (alphabetSize : nat) :
  0 < t ->
  alignmentIsProbablyUndetectable t (0, 0, 0, 0) alphabetSize =
  match alphabetSize with O => true | _ => false end.
Proof.
  intros Ht. unfold alignmentIsProbablyUndetectable, expectedMatchRunLength, indels.
  rewrite lm_no_rate.
  destruct (Rlt_dec 0 t) as [_|H]; [|exfalso; lra].
  replace (- 0 * t) with 0 by ring. rewrite exp_0.
  destruct (Req_dec_T (1 - 1) 0) as [_|H]; [|exfalso; lra].
  unfold power, exceeds, Rltb.
  destruct alphabetSize as [|[|n]]; [| |reflexivity];
    destruct (Rlt_dec _ _) as [H|H]; try reflexivity; exfalso; lra.
Qed.

Lemma zeroTime_no_indel :
  zeroTimeTransitionMatrix (0, 0, 0, 0) = [[1; 0; 0]; [1; 0; 0]; [1; 0; 0]].
Proof. unfold zeroTimeTransitionMatrix. repeat f_equal; ring. Qed.

Lemma tSafe_pos (t : R) : 0 < Rmax t tMin.
Proof.
  apply Rlt_le_trans with tMin; [unfold tMin; lra | apply Rmax_r].
Qed.

(** With an empty alphabet the test fires and the asymptotic matrix is
    returned. *)
Lemma transitionMatrix_no_indel_empty_alphabet
    (solve : vector_field -> R -> R -> counts -> indelParams -> counts) (t : R) :
  0 < t ->
  transitionMatrix solve t (0, 0, 0, 0) 0 = [[1; 0; 0]; [1; 0; 0]; [1; 0; 0]].
Proof.
  intros Ht. unfold transitionMatrix.
  destruct (Rlt_dec 0 t) as [_|H]; [|exfalso; lra].
  rewrite undetectable_no_indel by apply tSafe_pos.
  unfold largeTimeTransitionMatrix. rewrite lm_no_rate.
  componentwise ltac:(ring).
Qed.

(** In exact real arithmetic the matrix is row-stochastic: for non-negative
    rates, extension probabilities in [0, 1) and any [t >= 0], whatever the
    integrator returns and whatever the alphabet size, [transitionMatrix] is
    a 3x3 matrix whose entries are non-negative and whose rows each sum to
    one: the zero-time matrix, the asymptotic matrix and the clipped and
    renormalized matrix of the integrated counts all are.  The float32 run
    differs: see [UnderflowFacts]. *)
Lemma transitionMatrix_row_stochastic
    (diffeqsolve : vector_field -> R -> R -> counts -> indelParams -> counts)
    (lam mu x y : R) (alphabetSize : nat) (t : R) :
  0 <= lam -> 0 <= mu -> 0 <= x < 1 -> 0 <= y < 1 -> 0 <= t ->
  row_stochastic (transitionMatrix diffeqsolve t (lam, mu, x, y) alphabetSize) /\
  row_stochastic (zeroTimeTransitionMatrix (lam, mu, x, y)) /\
  row_stochastic (largeTimeTransitionMatrix (Rmax t tMin) (lam, mu, x, y)) /\
  row_stochastic (smallTimeTransitionMatrix diffeqsolve (Rmax t tMin) (lam, mu, x, y)).
Proof.
  intros Hl Hm Hx Hy Ht.
  assert (Z0 := zeroTime_row_stochastic lam mu x y Hx Hy).
  assert (L0 : row_stochastic (largeTimeTransitionMatrix (Rmax t tMin) (lam, mu, x, y))).
  { apply largeTime_row_stochastic; try lra. left. apply tSafe_pos. }
  assert (S0 : row_stochastic
                 (smallTimeTransitionMatrix diffeqsolve (Rmax t tMin) (lam, mu, x, y))).
  { apply fromCounts_row_stochastic. }
  repeat split; try assumption; try apply Z0; try apply L0; try apply S0.
  all: unfold transitionMatrix; destruct (Rlt_dec 0 t);
    [destruct (alignmentIsProbablyUndetectable _ _ _)|];
    try apply Z0; try apply L0; try apply S0.
Qed.

Lemma no_indel_regime
    (diffeqsolve : vector_field -> R -> R -> counts -> indelParams -> counts)
    (t : R) (alphabetSize : nat) :
  stationary diffeqsolve -> 0 < t -> (1 <= alphabetSize)%nat ->
  alignmentIsProbablyUndetectable (Rmax t tMin) (0, 0, 0, 0) alphabetSize = false /\
  integrateCounts diffeqsolve (Rmax t tMin) (0, 0, 0, 0) = (1, 0, 0, 0) /\
  transitionMatrix diffeqsolve t (0, 0, 0, 0) alphabetSize =
    [[1; 0; 0]; [0; 1; 0]; [0; 0; 1]].
Proof.
  intros Hs Ht HA.
  assert (U : alignmentIsProbablyUndetectable (Rmax t tMin) (0, 0, 0, 0) alphabetSize
              = false).
  { rewrite undetectable_no_indel by apply tSafe_pos.
    destruct alphabetSize; [lia | reflexivity]. }
  assert (C : integrateCounts diffeqsolve (Rmax t tMin) (0, 0, 0, 0) = (1, 0, 0, 0)).
  { unfold integrateCounts. apply Hs. intros t'. apply derivs_no_indel. }
  split; [exact U|]. split; [exact C|].
  unfold transitionMatrix. destruct (Rlt_dec 0 t) as [_|H]; [|exfalso; lra].
  rewrite U. unfold smallTimeTransitionMatrix. rewrite C.
  apply fromCounts_no_indel.
Qed.

(** C4: what the code returns where the claim expects the zero-time matrix.
    With no indel activity, [lam = mu = x = y = 0], any [t > 0] and an
    alphabet of at least one symbol, the integrated regime is the one
    selected, the counts stay [(1, 0, 0, 0)] and [transitionMatrix] is the
    identity matrix: its Match row is [1, 0, 0] as claimed, but its Insert
    and Delete rows are [0, 1, 0] and [0, 0, 1], which the guards that put
    [smallest_float32] for [1 - L] and [1 - M] produce. *)
Theorem transitionMatrix_no_indel
    (diffeqsolve : vector_field -> R -> R -> counts -> indelParams -> counts)
    (t : R) (alphabetSize : nat) :
  stationary diffeqsolve -> 0 < t -> (1 <= alphabetSize)%nat ->
  alignmentIsProbablyUndetectable (Rmax t tMin) (0, 0, 0, 0) alphabetSize = false /\
  integrateCounts diffeqsolve (Rmax t tMin) (0, 0, 0, 0) = (1, 0, 0, 0) /\
  transitionMatrix diffeqsolve t (0, 0, 0, 0) alphabetSize =
    [[1; 0; 0]; [0; 1; 0]; [0; 0; 1]].
Proof. apply no_indel_regime. Qed.

Lemma transitionMatrix_no_indel_witness :
  alignmentIsProbablyUndetectable (Rmax 1 tMin) (0, 0, 0, 0) 20 = false /\
  integrateCounts rk4_solve (Rmax 1 tMin) (0, 0, 0, 0) = (1, 0, 0, 0) /\
  transitionMatrix rk4_solve 1 (0, 0, 0, 0) 20 = [[1; 0; 0]; [0; 1; 0]; [0; 0; 1]].
Proof.
  apply (transitionMatrix_no_indel rk4_solve 1 20 rk4_solve_stationary);
    [lra | lia].
Defined.

(** C4, the failing input: [t = 1], alphabet size 20.  The zero-time matrix
    of the code is the one the claim names, and no stationary solver makes
    [transitionMatrix] return it there. *)
Lemma no_indel_matrix_is_not_zero_time :
  zeroTimeTransitionMatrix (0, 0, 0, 0) = [[1; 0; 0]; [1; 0; 0]; [1; 0; 0]] /\
  ~ (exists diffeqsolve, stationary diffeqsolve /\
       transitionMatrix diffeqsolve 1 (0, 0, 0, 0) 20 =
       zeroTimeTransitionMatrix (0, 0, 0, 0)).
Proof.
  split; [apply zeroTime_no_indel|].
  intros [solve [Hs H]].
  destruct (no_indel_regime solve 1 20 Hs) as [_ [_ E]]; [lra | lia |].
  rewrite E, zeroTime_no_indel in H. injection H as H _. lra.
Qed.

(** C9: [transitionMatrix] is constant on [0 < t <= tMin]: it returns there
    what it returns at [tMin], because the undetectability test, the
    asymptotic matrix and the integration all run on [max (t, tMin)]. *)
Theorem transitionMatrix_constant_below_tMin
    (diffeqsolve : vector_field -> R -> R -> counts -> indelParams -> counts)
    (params : indelParams) (alphabetSize : nat) (t : R) :
  0 < t <= tMin ->
  transitionMatrix diffeqsolve t params alphabetSize =
  transitionMatrix diffeqsolve tMin params alphabetSize.
Proof.
  intros [H0 H1]. unfold transitionMatrix.
  assert (0 < tMin) by (unfold tMin; lra).
  destruct (Rlt_dec 0 t) as [_|H']; [|exfalso; lra].
  destruct (Rlt_dec 0 tMin) as [_|H']; [|exfalso; lra].
  rewrite (Rmax_right t tMin) by exact H1.
  rewrite (Rmax_right tMin tMin) by lra.
  reflexivity.
Qed.

Lemma transitionMatrix_constant_below_tMin_witness :
  transitionMatrix rk4_solve (1 / 2000) (1, 1, 1 / 2, 1 / 2) 20 =
  transitionMatrix rk4_solve tMin (1, 1, 1 / 2, 1 / 2) 20.
Proof.
  apply transitionMatrix_constant_below_tMin. unfold tMin. lra.
Defined.

End H20Facts.

(** ** The indel transition model in float32 *)
Module UnderflowFacts.
Import Numeric Float32 H20Float32.
Local Open Scope R_scope.

(** *** The range *)
Lemma pow2_ge_1 (n : nat) : 1 <= 2 ^ n.
Proof. apply pow_R1_Rle. lra. Qed.

Lemma largest_big : 1000000 < largest.
Proof.
  unfold largest.
  assert (H20' : 2 ^ 20 <= 2 ^ 127) by (apply Rle_pow; [lra | lia]).
  assert (E : 2 ^ 20 = 1048576) by (simpl; lra).
  assert (/ 2 ^ 23 <= 1).
  { rewrite <- Rinv_1. apply Rinv_le_contravar; [lra | apply pow2_ge_1]. }
  nra.
Qed.

Lemma half_subnormal_small : smallest_subnormal / 2 < / 1000000.
Proof.
  unfold smallest_subnormal.
  assert (H20' : 2 ^ 20 <= 2 ^ 149) by (apply Rle_pow; [lra | lia]).
  assert (E : 2 ^ 20 = 1048576) by (simpl; lra).
  assert (/ 2 ^ 149 <= / 2 ^ 20).
  { apply Rinv_le_contravar; [rewrite E; lra | exact H20']. }
  rewrite E in *.
  assert (/ 1048576 < 2 * / 1000000) by lra.
  lra.
Qed.

Lemma to_float32_number (r : R) :
  / 1000000 <= r <= 1000000 \/ - 1000000 <= r <= - / 1000000 ->
  to_float32 r = Num r.
Proof.
  intros H. unfold to_float32.
  pose proof largest_big. pose proof half_subnormal_small.
  assert (/ 1000000 <= Rabs r <= 1000000).
  { destruct H as [H|H].
    - rewrite Rabs_right by lra. lra.
    - rewrite Rabs_left by lra. lra. }
  destruct (Rlt_dec largest (Rabs r)); [lra|].
  destruct (Rlt_dec (Rabs r) (smallest_subnormal / 2)); [lra|reflexivity].
Qed.

Lemma exp_nat (n : nat) : Rtrigo_def.exp (INR n) = Rtrigo_def.exp 1 ^ n.
Proof.
  induction n as [|n IH]; [simpl; apply exp_0|].
  rewrite S_INR, exp_plus, IH. simpl. ring.
Qed.

Lemma exp_1_gt_2 : 2 < Rtrigo_def.exp 1.
Proof. pose proof (exp_ineq1 1). lra. Qed.

Lemma exp_le (a b : R) : a <= b -> Rtrigo_def.exp a <= Rtrigo_def.exp b.
Proof.
  intros [H | ->]; [left; apply exp_increasing, H | right; reflexivity].
Qed.

Lemma exp_150 : 2 ^ 150 < Rtrigo_def.exp 150.
Proof.
  replace 150 with (INR 150) by (simpl; lra).
  rewrite exp_nat. change 150%nat with (S 149).
  cbn [pow]. pose proof exp_1_gt_2 as H2.
  assert (H : 2 ^ 149 <= Rtrigo_def.exp 1 ^ 149) by (apply pow_incr; lra).
  assert (0 < 2 ^ 149) by (apply pow_lt; lra).
  nra.
Qed.

(** An exponential below [2 ^ -150] is zero in float32. *)
Lemma exp_underflows (r : R) : r <= - 150 -> exp (Num r) = Num 0.
Proof.
  intros Hr. unfold exp, to_float32.
  pose proof (exp_pos r) as Hpos.
  assert (Hsmall : Rtrigo_def.exp r < smallest_subnormal / 2).
  { apply Rle_lt_trans with (Rtrigo_def.exp (Ropp 150)); [apply exp_le; lra|].
    rewrite exp_Ropp. unfold smallest_subnormal.
    replace (/ 2 ^ 149 / 2) with (/ 2 ^ 150) by (simpl; field).
    apply Rinv_lt_contravar; [|apply exp_150].
    apply Rmult_lt_0_compat; [apply pow_lt; lra | apply exp_pos]. }
  pose proof largest_big.
  rewrite Rabs_right by lra.
  assert (Rtrigo_def.exp r < 1).
  { rewrite <- exp_0. apply exp_increasing. lra. }
  destruct (Rlt_dec largest _); [lra|].
  destruct (Rlt_dec _ _); [reflexivity|lra].
Qed.

(** A power above the largest float32 is [+inf]. *)
Lemma pow_overflows (base : nat) (r : R) :
  (4 <= base)%nat -> 100 <= r -> pow base (Num r) = Inf false.
Proof.
  intros Hb Hr. unfold pow. destruct base as [|base]; [lia|].
  unfold to_float32.
  assert (H4 : 4 <= INR (S base)).
  { replace 4 with (INR 4) by (simpl; lra). apply le_INR, Hb. }
  assert (Hbig : 2 ^ 200 <= Rpower (INR (S base)) r).
  { apply Rle_trans with (Rpower (INR (S base)) (INR 100)).
    - rewrite Rpower_pow by lra.
      replace (2 ^ 200) with (4 ^ 100).
      + apply pow_incr. lra.
      + replace 4 with (2 ^ 2) by (simpl; lra). rewrite <- pow_mult. reflexivity.
    - apply Rle_Rpower; [lra|]. replace (INR 100) with 100 by (simpl; lra). exact Hr. }
  assert (Hl : largest < 2 ^ 200).
  { unfold largest.
    assert (2 ^ 128 < 2 ^ 200) by (apply Rlt_pow; [lra | lia]).
    assert (0 < / 2 ^ 23) by (apply Rinv_0_lt_compat, pow_lt; lra).
    assert (0 < 2 ^ 127) by (apply pow_lt; lra).
    change (2 ^ 128) with (2 * 2 ^ 127) in *. nra. }
  assert (0 < largest) by (pose proof largest_big; lra).
  rewrite Rabs_right by lra.
  destruct (Rlt_dec largest _) as [_|H']; [|lra].
  unfold Rltb. destruct (Rlt_dec _ 0); [lra|reflexivity].
Qed.

(** *** Values that are not numbers *)

Lemma to_float32_not_negative (r : R) : 0 <= r -> not_negative (to_float32 r).
Proof.
  intros Hr. unfold to_float32.
  destruct (Rlt_dec _ _).
  - unfold Rltb. destruct (Rlt_dec r 0); [lra|reflexivity].
  - destruct (Rlt_dec _ _); simpl; lra.
Qed.

Lemma exp_not_negative (a : float32) : not_negative (exp a).
Proof.
  destruct a as [|[|]|r]; simpl; try lra; try reflexivity.
  apply to_float32_not_negative. left. apply exp_pos.
Qed.

Lemma maximum_not_negative (a : float32) : not_negative (maximum (Num 0) a).
Proof.
  destruct a as [|[|]|r]; simpl; try lra; try reflexivity.
  unfold Rltb. destruct (Rlt_dec r 0); simpl; lra.
Qed.

Lemma maximum_keeps (a : float32) : nan_or_pinf a -> maximum (Num 0) a = a.
Proof. intros [->| ->]; reflexivity. Qed.

Lemma add_not_negative (a b : float32) :
  not_negative a -> not_negative b -> not_negative (add a b).
Proof.
  destruct a as [|s|x], b as [|s'|y]; simpl; try tauto.
  - intros -> ->. reflexivity.
  - intros Hx Hy. apply to_float32_not_negative. lra.
Qed.

Lemma add_nan_or_pinf_l (a b : float32) :
  nan_or_pinf a -> not_negative b -> nan_or_pinf (add a b).
Proof.
  intros [->| ->]; [left; reflexivity|].
  destruct b as [|s|y]; simpl.
  - left; reflexivity.
  - intros ->. right; reflexivity.
  - right; reflexivity.
Qed.

Lemma add_nan_or_pinf_r (a b : float32) :
  not_negative a -> nan_or_pinf b -> nan_or_pinf (add a b).
Proof.
  intros Ha [->| ->]; [left; now destruct a|].
  destruct a as [|s|x]; simpl in *.
  - left; reflexivity.
  - subst. right; reflexivity.
  - right; reflexivity.
Qed.

Lemma div_nan_or_pinf (a s : float32) :
  nan_or_pinf a -> nan_or_pinf s -> div a s = NaN.
Proof. intros [->| ->] [->| ->]; reflexivity. Qed.

(** Dividing by a zero gives no number. *)
Lemma div_by_zero (a : float32) : nan_or_inf (div a (Num 0)).
Proof.
  destruct a as [|s|x]; simpl; try exact I.
  destruct (Req_dec_T 0 0) as [_|H]; [|lra].
  destruct (Req_dec_T x 0); exact I.
Qed.

Lemma add_nan_or_inf (b X : float32) : nan_or_inf X -> nan_or_inf (add b X).
Proof.
  destruct X as [|s|x]; [| |contradiction]; intros _.
  - now destruct b.
  - destruct b as [|s'|y]; simpl; try exact I. now destruct (Bool.eqb s' s).
Qed.

Lemma add_pinf (w : float32) : nan_or_pinf (add (Inf false) w).
Proof. destruct w as [|[|]|y]; simpl; [left|left|right|right]; reflexivity. Qed.

Lemma gt_pinf (a : float32) : gt a (Inf false) = false.
Proof. now destruct a as [|[|]|x]. Qed.

(** *** The Insert row when [M] is zero *)

(** The guarded [1 - L] is a number, and not a negative one. *)
Lemma one_minus_guarded (L : float32) :
  not_negative L ->
  exists d, 0 <= d /\
    (if lt L (Num 1) then sub (Num 1) L else smallest_float32) = Num d.
Proof.
  assert (Hs : exists d, 0 <= d /\ smallest_float32 = Num d).
  { eexists. split; [|reflexivity]. left. apply Rinv_0_lt_compat, pow_lt. lra. }
  destruct L as [|[|]|l]; simpl; intros HL; try exact Hs; try discriminate.
  unfold Rltb. destruct (Rlt_dec l 1) as [Hl|_]; [|exact Hs].
  unfold to_float32. pose proof largest_big.
  rewrite Rabs_right by lra.
  destruct (Rlt_dec largest _); [lra|].
  destruct (Rlt_dec _ _); eexists; (split; [|reflexivity]); lra.
Qed.

(** An infinity times [L], over the guarded [1 - L], is that infinity or NaN. *)
Lemma scaled_infinity (s : bool) (L : float32) (d : R) :
  not_negative L -> 0 <= d ->
  div (mul (Inf s) L) (Num d) = NaN \/ div (mul (Inf s) L) (Num d) = Inf s.
Proof.
  intros HL Hd.
  assert (Hy : Rltb d 0 = false) by (unfold Rltb; destruct (Rlt_dec d 0); [lra|reflexivity]).
  destruct L as [|s'|l]; cbn [mul div not_negative] in *.
  - now left.
  - subst s'. right. now rewrite Hy, !xorb_false_r.
  - destruct (Req_dec_T l 0); [now left|]. right. cbn [div].
    assert (Hl : Rltb l 0 = false)
      by (unfold Rltb; destruct (Rlt_dec l 0); [lra|reflexivity]).
    now rewrite Hl, Hy, !xorb_false_r.
Qed.

Lemma insert_row_not_a_number (L b u q : float32) :
  not_negative L ->
  let M := Num 0 in
  let one_minus_L := if lt L (Num 1) then sub (Num 1) L else smallest_float32 in
  let E := add b (div (mul q (sub (Num 1) M)) M) in
  nan_or_pinf (sub (Num 1) (div (mul E L) one_minus_L)) \/
  nan_or_pinf (div (mul (sub E u) L) one_minus_L).
Proof.
  intros HL M one_minus_L E.
  destruct (one_minus_guarded L HL) as [d [Hd Ed]].
  fold one_minus_L in Ed. rewrite Ed.
  assert (HE : nan_or_inf E) by apply add_nan_or_inf, div_by_zero.
  destruct E as [|[|]|e]; [| | |contradiction].
  - left. left. reflexivity.
  - left. destruct (scaled_infinity true L d HL Hd) as [-> | ->];
      [left|right]; reflexivity.
  - right. unfold sub at 1.
    destruct (add_pinf (neg u)) as [-> | ->]; [left; reflexivity|].
    destruct (scaled_infinity false L d HL Hd) as [-> | ->];
      [left|right]; reflexivity.
Qed.

(** A row with an entry that is NaN or [+inf] holds a NaN once it is clipped
    at zero and divided by its sum. *)
Lemma normalized_row_nan (e1 e2 e3 : float32) :
  nan_or_pinf e2 \/ nan_or_pinf e3 ->
  let row := map (maximum (Num 0)) [e1; e2; e3] in
  In NaN (map (fun e => div e (sum row)) row).
Proof.
  intros H. cbn [map sum fold_right].
  pose proof (maximum_not_negative e1) as H1.
  pose proof (maximum_not_negative e2) as H2.
  pose proof (maximum_not_negative e3) as H3.
  assert (H0 : not_negative (Num 0)) by (simpl; lra).
  destruct H as [H|H].
  - rewrite (maximum_keeps e2 H) in *.
    right. left. apply div_nan_or_pinf; [exact H|].
    apply add_nan_or_pinf_r; [exact H1|].
    apply add_nan_or_pinf_l; [exact H|]. now apply add_not_negative.
  - rewrite (maximum_keeps e3 H) in *.
    right. right. left. apply div_nan_or_pinf; [exact H|].
    apply add_nan_or_pinf_r; [exact H1|].
    apply add_nan_or_pinf_r; [exact H2|].
    now apply add_nan_or_pinf_l.
Qed.

Lemma lm_not_negative (t rate prob : float32) : not_negative (lm t rate prob).
Proof. apply exp_not_negative. Qed.

(** When [M] underflows to zero the Insert row of the normalized matrix
    holds a NaN, whatever the counts are. *)
Lemma fromCounts_insert_row_nan (t lam mu x y : float32) (cnt : counts) :
  lm t mu y = Num 0 ->
  In NaN (nth 1 (transitionMatrixFromCounts t (lam, mu, x, y) cnt true) []).
Proof.
  intros HM. destruct cnt as [[[a b] u] q].
  unfold transitionMatrixFromCounts. rewrite HM.
  cbv zeta. cbn [map nth].
  apply (normalized_row_nan _ _ _
           (insert_row_not_a_number (lm t lam x) b u q (lm_not_negative t lam x))).
Qed.

Lemma nan_row_not_stochastic (mx : matrix) :
  In NaN (nth 1 mx []) -> ~ row_stochastic mx.
Proof.
  intros Hin [Hlen Hrows].
  destruct mx as [|r0 [|r1 rest]]; try discriminate.
  cbn [nth] in Hin.
  apply Forall_inv_tail, Forall_inv in Hrows. destruct Hrows as [_ [Hpos _]].
  rewrite Forall_forall in Hpos. specialize (Hpos NaN Hin). discriminate.
Qed.

(** The test never fires when its right-hand side overflows. *)
Lemma undetectable_overflow (t lam mu x y : float32) (alphabetSize : nat) :
  mul (Num 2) (pow alphabetSize (div (Num 1) (sub (Num 1) (exp (mul (neg mu) t))))) =
    Inf false ->
  alignmentIsProbablyUndetectable t (lam, mu, x, y) alphabetSize = false.
Proof.
  intros H. unfold alignmentIsProbablyUndetectable. rewrite H.
  destruct (gt t (Num 0)); [apply gt_pinf | reflexivity].
Qed.

(** *** The failing input *)
Lemma gt_numbers (a b : R) : b < a -> gt (Num a) (Num b) = true.
Proof. intros H. simpl. unfold Rltb. destruct (Rlt_dec b a); [reflexivity|lra]. Qed.

Lemma tSafe_hundredth : maximum (Num (1 / 100)) tMin = Num (1 / 100).
Proof. unfold tMin. simpl. unfold Rltb. destruct (Rlt_dec _ _); [reflexivity|lra]. Qed.

Lemma lm_underflows_at_input :
  lm (Num (1 / 100)) (Num 1) (Num (99999 / 100000)) = Num 0.
Proof.
  unfold lm, sub. cbn [neg mul add].
  rewrite (to_float32_number (- (1) * (1 / 100))) by (right; lra).
  rewrite (to_float32_number (1 + - (99999 / 100000))) by (left; lra).
  cbn [div]. destruct (Req_dec_T _ 0) as [H|_]; [lra|].
  replace (- (1) * (1 / 100) / (1 + - (99999 / 100000))) with (- (1000)) by field.
  rewrite (to_float32_number (- (1000))) by (right; lra).
  apply exp_underflows. lra.
Qed.

Lemma exp_hundredth :
  99 / 100 <= Rtrigo_def.exp (- (1) * (1 / 100)) <= 100 / 101.
Proof.
  pose proof (exp_ineq1 (- (1) * (1 / 100))) as Hlo.
  pose proof (exp_ineq1 (1 / 100)) as Hhi.
  replace (- (1) * (1 / 100)) with (- (1 / 100)) in * by lra.
  rewrite exp_Ropp in *.
  pose proof (exp_pos (1 / 100)).
  split; [lra|].
  apply Rmult_le_reg_r with (Rtrigo_def.exp (1 / 100)); [assumption|].
  rewrite Rinv_l by lra. lra.
Qed.

Lemma test_overflows_at_input :
  mul (Num 2)
      (pow 20 (div (Num 1) (sub (Num 1) (exp (mul (neg (Num 1)) (Num (1 / 100))))))) =
  Inf false.
Proof.
  pose proof exp_hundredth as He.
  unfold sub. cbn [neg mul].
  rewrite (to_float32_number (- (1) * (1 / 100))) by (right; lra).
  cbn [exp]. set (e := Rtrigo_def.exp (- (1) * (1 / 100))) in *.
  rewrite (to_float32_number e) by (left; lra).
  cbn [neg add].
  rewrite (to_float32_number (1 + - e)) by (left; lra).
  cbn [div]. destruct (Req_dec_T _ 0) as [H|_]; [lra|].
  assert (Hr : 100 <= 1 / (1 + - e) <= 102).
  { assert (0 < 1 + - e) by lra. split.
    - apply Rmult_le_reg_r with (1 + - e); [assumption|]. field_simplify; lra.
    - apply Rmult_le_reg_r with (1 + - e); [assumption|]. field_simplify; lra. }
  rewrite (to_float32_number (1 / (1 + - e))) by (left; lra).
  rewrite pow_overflows by (lia || lra).
  cbn [mul]. destruct (Req_dec_T 2 0) as [H|_]; [lra|].
  unfold Rltb. destruct (Rlt_dec 2 0); [lra|reflexivity].
Qed.

(** C3: in float32 the claim fails.  Whenever [M = exp (- mu * t / (1 - y))]
    underflows to zero at the time [max (t, tMin)] and the integrated regime
    is the one selected, the Insert row of [transitionMatrix] holds a NaN,
    whatever counts the integrator returns: the row divides by [M], and an
    infinity divided by the infinite row sum is NaN.  So the matrix is not
    row-stochastic. *)
Theorem transitionMatrix_nan_on_underflow
    (diffeqsolve : vector_field -> float32 -> float32 -> counts -> indelParams -> counts)
    (t lam mu x y : float32) (alphabetSize : nat) :
  gt t (Num 0) = true ->
  lm (maximum t tMin) mu y = Num 0 ->
  alignmentIsProbablyUndetectable (maximum t tMin) (lam, mu, x, y) alphabetSize = false ->
  transitionMatrix diffeqsolve t (lam, mu, x, y) alphabetSize =
    smallTimeTransitionMatrix diffeqsolve (maximum t tMin) (lam, mu, x, y) /\
  In NaN (nth 1 (transitionMatrix diffeqsolve t (lam, mu, x, y) alphabetSize) []) /\
  ~ row_stochastic (transitionMatrix diffeqsolve t (lam, mu, x, y) alphabetSize).
Proof.
  intros Ht HM Hregime.
  assert (E : transitionMatrix diffeqsolve t (lam, mu, x, y) alphabetSize =
              smallTimeTransitionMatrix diffeqsolve (maximum t tMin) (lam, mu, x, y)).
  { unfold transitionMatrix. cbv zeta. now rewrite Ht, Hregime. }
  assert (N : In NaN (nth 1 (transitionMatrix diffeqsolve t (lam, mu, x, y) alphabetSize) [])).
  { rewrite E. unfold smallTimeTransitionMatrix. cbv zeta.
    now apply fromCounts_insert_row_nan. }
  split; [exact E|]. split; [exact N|]. now apply nan_row_not_stochastic.
Qed.

Lemma transitionMatrix_nan_on_underflow_witness :
  let params := (Num 1, Num 1, Num 0, Num (99999 / 100000)) in
  (lm (Num (1 / 100)) (Num 1) (Num (99999 / 100000)) = Num 0 /\
   alignmentIsProbablyUndetectable (Num (1 / 100)) params 20 = false) /\
  transitionMatrix euler_solve (Num (1 / 100)) params 20 =
    smallTimeTransitionMatrix euler_solve (maximum (Num (1 / 100)) tMin) params /\
  In NaN (nth 1 (transitionMatrix euler_solve (Num (1 / 100)) params 20) []) /\
  ~ row_stochastic (transitionMatrix euler_solve (Num (1 / 100)) params 20).
Proof.
  assert (M0 := lm_underflows_at_input).
  assert (U : alignmentIsProbablyUndetectable (Num (1 / 100))
                (Num 1, Num 1, Num 0, Num (99999 / 100000)) 20 = false)
    by apply undetectable_overflow, test_overflows_at_input.
  split; [split; [exact M0 | exact U]|].
  apply (transitionMatrix_nan_on_underflow euler_solve
           (Num (1 / 100)) (Num 1) (Num 1) (Num 0) (Num (99999 / 100000)) 20).
  - apply gt_numbers. lra.
  - rewrite tSafe_hundredth. exact M0.
  - rewrite tSafe_hundredth. exact U.
Defined.

End UnderflowFacts.

(** ** Properties of the pruning likelihood *)
Module LikelihoodFacts.
Import Numeric Likelihood.
Local Open Scope R_scope.

Local Notation "'matrix'" := (list (list R)).

(** *** The time grid *)
Section Grid.
Variables tMin tMax : R.
Variable nSteps : nat.
Hypothesis tMin_pos : 0 < tMin.
Hypothesis tMin_lt_tMax : tMin < tMax.
Hypothesis two_steps : (2 <= nSteps)%nat.

Local Notation "'gridTime'" := (Likelihood.gridTime tMin tMax nSteps).

Lemma geomspace_grid : geomspace tMin tMax nSteps = map gridTime (seq 0 nSteps).
Proof. reflexivity. Qed.

Lemma ratio_gt_1 : 1 < tMax / tMin.
Proof.
  apply Rmult_lt_reg_r with tMin; [exact tMin_pos|].
  unfold Rdiv. rewrite Rmult_assoc, Rinv_l by lra. lra.
Qed.

Lemma last_step_pos : 0 < INR (nSteps - 1).
Proof. apply lt_0_INR. lia. Qed.

Lemma gridTime_increasing (i j : nat) : (i < j)%nat -> gridTime i < gridTime j.
Proof.
  intros H. unfold gridTime. apply Rmult_lt_compat_l; [exact tMin_pos|].
  apply Rpower_lt; [apply ratio_gt_1|].
  unfold Rdiv. apply Rmult_lt_compat_r.
  - apply Rinv_0_lt_compat, last_step_pos.
  - apply lt_INR, H.
Qed.

Lemma gridTime_monotone (i j : nat) : (i <= j)%nat -> gridTime i <= gridTime j.
Proof.
  intros H. destruct (Nat.eq_dec i j) as [->|Hne]; [lra|].
  left. apply gridTime_increasing. lia.
Qed.

Lemma gridTime_first : gridTime 0 = tMin.
Proof.
  unfold gridTime. simpl INR at 1. unfold Rdiv. rewrite Rmult_0_l.
  rewrite Rpower_O; [lra|]. pose proof ratio_gt_1. unfold Rdiv in *. lra.
Qed.

Lemma gridTime_last : gridTime (nSteps - 1) = tMax.
Proof.
  unfold gridTime. pose proof last_step_pos. pose proof ratio_gt_1.
  unfold Rdiv at 2. rewrite Rinv_r by lra.
  rewrite Rpower_1 by lra. field. lra.
Qed.

Lemma gridTime_bounds (i : nat) :
  (i < nSteps)%nat -> tMin <= gridTime i <= tMax.
Proof.
  intros H. split.
  - apply Rle_trans with (gridTime 0);
      [rewrite gridTime_first; lra | apply gridTime_monotone; lia].
  - apply Rle_trans with (gridTime (nSteps - 1));
      [apply gridTime_monotone; lia | rewrite gridTime_last; lra].
Qed.

Lemma digitize_none_above (x : R) (bins : list R) :
  Forall (fun b => b <= x) bins -> digitize x bins = List.length bins.
Proof.
  induction 1 as [|b bins Hb _ IH]; [reflexivity|].
  simpl. destruct (Rlt_dec x b); [lra | now rewrite IH].
Qed.

Lemma digitize_grid_from (start len j : nat) :
  (start <= j < start + len)%nat ->
  digitize (gridTime j) (map gridTime (seq start len)) = (j - start + 1)%nat.
Proof.
  revert start. induction len as [|len IH]; intros start H; [lia|].
  simpl. destruct (Rlt_dec (gridTime j) (gridTime start)) as [Hlt|_].
  - pose proof (gridTime_monotone start j ltac:(lia)). lra.
  - destruct (Nat.eq_dec start j) as [->|Hne].
    + replace (j - j + 1)%nat with 1%nat by lia. f_equal.
      destruct len as [|len]; [reflexivity|].
      simpl. destruct (Rlt_dec (gridTime j) (gridTime (S j))) as [_|Hn];
        [reflexivity|].
      pose proof (gridTime_increasing j (S j) ltac:(lia)). lra.
    + rewrite IH by lia. lia.
Qed.

Lemma clip_inside (t : R) : tMin <= t <= tMax -> clip t tMin tMax = t.
Proof.
  intros [H0 H1]. unfold clip. rewrite Rmax_left by exact H0.
  apply Rmin_left, H1.
Qed.

Lemma clip_bounds (t : R) : tMin <= clip t tMin tMax <= tMax.
Proof.
  unfold clip. split.
  - apply Rmin_glb; [apply Rmax_r | lra].
  - apply Rmin_r.
Qed.

Lemma clip_above (t : R) : tMax <= t -> clip t tMin tMax = tMax.
Proof.
  intros H. unfold clip. apply Rmin_right.
  apply Rle_trans with t; [exact H | apply Rmax_l].
Qed.

Lemma length_times : List.length (getDiscretizedTimes (tMin, tMax, nSteps)) = S nSteps.
Proof.
  unfold getDiscretizedTimes, geomspace. cbn [List.length].
  now rewrite length_map, length_seq.
Qed.

Lemma nth_times (i : nat) :
  (i < nSteps)%nat ->
  nth (S i) (getDiscretizedTimes (tMin, tMax, nSteps)) 0 = gridTime i.
Proof.
  intros H. unfold getDiscretizedTimes. cbn [nth]. rewrite geomspace_grid.
  rewrite (nth_indep _ 0 (gridTime 0)) by (now rewrite length_map, length_seq).
  rewrite map_nth, seq_nth by exact H. reflexivity.
Qed.

Lemma discretize_positive (t : R) :
  0 < t -> (2 <= discretizeBranchLength t (tMin, tMax, nSteps))%nat.
Proof.
  intros Ht. unfold discretizeBranchLength.
  destruct (Req_dec_T t 0) as [E|_]; [lra|].
  rewrite geomspace_grid.
  replace (seq 0 nSteps) with (0%nat :: seq 1 (nSteps - 1))
    by (rewrite cons_seq; f_equal; lia).
  cbn [map digitize]. rewrite gridTime_first.
  destruct (Rlt_dec (clip t tMin tMax) tMin) as [H|_]; [|lia].
  pose proof (clip_bounds t). lra.
Qed.

Lemma discretize_saturated (t : R) :
  tMax <= t -> discretizeBranchLength t (tMin, tMax, nSteps) = S nSteps.
Proof.
  intros Ht. unfold discretizeBranchLength.
  destruct (Req_dec_T t 0) as [E|_]; [lra|].
  rewrite clip_above by exact Ht. rewrite geomspace_grid.
  rewrite digitize_none_above; [now rewrite length_map, length_seq|].
  apply Forall_forall. intros b Hb. apply in_map_iff in Hb.
  destruct Hb as [i [<- Hi]]. apply in_seq in Hi.
  apply gridTime_bounds. lia.
Qed.

Lemma discretize_on_grid (j : nat) :
  (j < nSteps)%nat ->
  discretizeBranchLength (gridTime j) (tMin, tMax, nSteps) = (j + 2)%nat.
Proof.
  intros H. unfold discretizeBranchLength.
  pose proof (gridTime_bounds j H).
  destruct (Req_dec_T (gridTime j) 0) as [E|_]; [lra|].
  rewrite clip_inside by assumption.
  rewrite geomspace_grid, digitize_grid_from by lia. lia.
Qed.

End Grid.

Lemma jget_in_range {T : Type} (d : T) (l : list T) (i : nat) :
  (i < List.length l)%nat -> jget d l (Z.of_nat i) = nth i l d.
Proof.
  intros H. unfold jget, normalize_index.
  destruct (Z.ltb_spec (Z.of_nat i) 0); [lia|].
  f_equal. lia.
Qed.

Lemma jget_clamped {T : Type} (d : T) (l : list T) (i : nat) :
  (List.length l <= i)%nat -> jget d l (Z.of_nat i) = nth (List.length l - 1) l d.
Proof.
  intros H. unfold jget, normalize_index.
  destruct (Z.ltb_spec (Z.of_nat i) 0); [lia|].
  f_equal. lia.
Qed.

Lemma computeSubMatrix_length (ts : list R) (subRate : matrix) (table : list matrix) :
  computeSubMatrixForBranchLengths ts subRate = Some table ->
  List.length table = List.length ts.
Proof.
  unfold computeSubMatrixForBranchLengths.
  destruct (square subRate); [|discriminate].
  intros [= <-]. apply length_map.
Qed.

(** C10: with the default grid, a positive branch length is never given an
    index below 2, so entry 1 of the table (grid time [tMin]) is never
    selected; a branch length of [tMax] or more is given index 401, while
    the table has 401 entries, the last at index 400, which is the entry the
    clamped lookup returns. *)
Theorem discretizeBranchLength_index_range :
  (forall t, 0 < t ->
     (2 <= discretizeBranchLength t defaultDiscretizationParams)%nat) /\
  (forall t, 10 <= t ->
     discretizeBranchLength t defaultDiscretizationParams = 401%nat) /\
  nth 1 (getDiscretizedTimes defaultDiscretizationParams) 0 = 1 / 1000 /\
  List.length (getDiscretizedTimes defaultDiscretizationParams) = 401%nat /\
  (forall subRate table,
     computeSubMatrixForDiscretizedTimes subRate defaultDiscretizationParams
       = Some table ->
     List.length table = 401%nat /\
     forall t, 10 <= t ->
       computeSubMatrixForDiscretizedBranchLengths [t] table
         defaultDiscretizationParams = [nth 400 table []]).
Proof.
  assert (H0 : 0 < 1 / 1000) by lra.
  assert (H1 : 1 / 1000 < 10) by lra.
  assert (H2 : (2 <= 400)%nat) by lia.
  unfold defaultDiscretizationParams.
  split; [intros t Ht; now apply discretize_positive|].
  split; [intros t Ht; now apply discretize_saturated|].
  split; [rewrite nth_times by lia; now apply gridTime_first|].
  split; [apply length_times|].
  intros subRate table Htable.
  apply computeSubMatrix_length in Htable. rewrite length_times in Htable.
  split; [exact Htable|].
  intros t Ht.
  unfold computeSubMatrixForDiscretizedBranchLengths, defaultDiscretizationParams.
  cbn [map].
  rewrite discretize_saturated by assumption.
  rewrite jget_clamped by lia.
  rewrite Htable. reflexivity.
Qed.

Lemma discretizeBranchLength_index_range_witness :
  (2 <= discretizeBranchLength 5 defaultDiscretizationParams)%nat /\
  discretizeBranchLength 12 defaultDiscretizationParams = 401%nat.
Proof.
  destruct discretizeBranchLength_index_range as [H1 [H2 _]].
  split; [apply H1; lra | apply H2; lra].
Defined.

(** *** The matrix exponential in closed form *)
Lemma limit_eq (u : nat -> R) (l : R) : Un_cv u l -> limit u = l.
Proof.
  intros H. unfold limit.
  apply (UL_sequence u); [|exact H].
  apply epsilon_spec. now exists l.
Qed.

Lemma limit_constant (u : nat -> R) (l : R) : (forall n, u n = l) -> limit u = l.
Proof.
  intros H. apply limit_eq. intros eps Heps. exists 0%nat. intros n _.
  rewrite H. unfold Rdist. rewrite Rminus_diag, Rabs_R0. exact Heps.
Qed.

Lemma nth_tabulated {T : Type} (f : nat -> T) (n i : nat) (d : T) :
  (i < n)%nat -> nth i (map f (seq 0 n)) d = f i.
Proof.
  intros H. rewrite (nth_indep _ d (f 0%nat)) by (now rewrite length_map, length_seq).
  now rewrite map_nth, seq_nth.
Qed.

Lemma entry_tabulate (n : nat) (f : nat -> nat -> R) (i j : nat) :
  (i < n)%nat -> (j < n)%nat -> entry (tabulate n f) i j = f i j.
Proof.
  intros Hi Hj. unfold entry, tabulate.
  rewrite (nth_tabulated (fun i => map (f i) (seq 0 n))) by exact Hi.
  now apply nth_tabulated.
Qed.

Lemma entry_tabulate_outside (n : nat) (f : nat -> nat -> R) (i j : nat) :
  (n <= i)%nat \/ (n <= j)%nat -> entry (tabulate n f) i j = 0.
Proof.
  intros H. unfold entry, tabulate.
  destruct (Nat.lt_ge_cases i n) as [Hi|Hi].
  - rewrite (nth_tabulated (fun i => map (f i) (seq 0 n))) by exact Hi.
    apply nth_overflow. rewrite length_map, length_seq. lia.
  - rewrite (nth_overflow (map _ _)) by (rewrite length_map, length_seq; lia).
    now destruct j.
Qed.

Lemma tabulate_ext (n : nat) (f g : nat -> nat -> R) :
  (forall i j, (i < n)%nat -> (j < n)%nat -> f i j = g i j) ->
  tabulate n f = tabulate n g.
Proof.
  intros H. unfold tabulate. apply map_ext_in. intros i Hi.
  apply map_ext_in. intros j Hj. apply in_seq in Hi, Hj. apply H; lia.
Qed.

Lemma sum_zeros {T : Type} (f : T -> R) (l : list T) :
  (forall x, f x = 0) -> sum (map f l) = 0.
Proof.
  intros H. induction l as [|x l IH]; [reflexivity|].
  cbn [map sum fold_right]. fold (sum (map f l)). rewrite H, IH. ring.
Qed.

Lemma mmul_zero (n : nat) (a b : matrix) : zero_entries a -> zero_entries (mmul n a b).
Proof.
  intros H i j. unfold mmul.
  destruct (Nat.lt_ge_cases i n) as [Hi|Hi];
    [destruct (Nat.lt_ge_cases j n) as [Hj|Hj]|].
  - rewrite entry_tabulate by assumption.
    apply sum_zeros. intros k. rewrite H. ring.
  - apply entry_tabulate_outside. now right.
  - apply entry_tabulate_outside. now left.
Qed.

Lemma partial_sum_first_term (f : nat -> R) (N : nat) :
  (forall k, f (S k) = 0) -> sum_f_R0 f N = f 0%nat.
Proof.
  intros H. induction N as [|N IH]; [reflexivity|].
  cbn [sum_f_R0]. rewrite IH, H. ring.
Qed.

Lemma expm_zero (m : matrix) : zero_entries m -> expm m = eye (List.length m).
Proof.
  intros H. unfold expm, eye. apply tabulate_ext. intros i j Hi Hj.
  apply limit_constant. intros N. unfold expm_partial.
  rewrite partial_sum_first_term.
  - cbn [mpow fact INR]. unfold eye. rewrite entry_tabulate by assumption. field.
  - intros k. cbn [mpow]. rewrite (mmul_zero _ _ _ H). unfold Rdiv. ring.
Qed.

Lemma nth_map_in {A B : Type} (f : A -> B) (l : list A) (j : nat) (d : B) (d' : A) :
  (j < List.length l)%nat -> nth j (map f l) d = f (nth j l d').
Proof.
  intros H. rewrite (nth_indep _ d (f d')) by (now rewrite length_map).
  apply map_nth.
Qed.

Lemma scaled_by_zero (m : matrix) : zero_entries (map (map (fun q => q * 0)) m).
Proof.
  intros i j. unfold entry.
  destruct (Nat.lt_ge_cases i (List.length m)) as [Hi|Hi].
  - rewrite (nth_map_in _ m i [] []) by exact Hi.
    destruct (Nat.lt_ge_cases j (List.length (nth i m []))) as [Hj|Hj].
    + rewrite (nth_map_in _ _ j 0 0) by exact Hj. ring.
    + apply nth_overflow. now rewrite length_map.
  - rewrite (nth_overflow (map _ m)) by (now rewrite length_map).
    now destruct j.
Qed.

Lemma expm_at_zero_distance (subRate : matrix) :
  expm (map (map (fun q => q * 0)) subRate) = eye (List.length subRate).
Proof. rewrite expm_zero by apply scaled_by_zero. now rewrite length_map. Qed.

Lemma absorbing_power (d : R) (k : nat) :
  let m := map (map (fun q => q * d)) absorbingRate in
  entry (mpow 2 m (S k)) 0 0 = (- d) ^ S k /\
  entry (mpow 2 m (S k)) 0 1 = - (- d) ^ S k /\
  entry (mpow 2 m (S k)) 1 0 = 0 /\
  entry (mpow 2 m (S k)) 1 1 = 0.
Proof.
  intros m. induction k as [|k [IH00 [IH01 [IH10 IH11]]]].
  - cbn. repeat split; ring.
  - remember (S k) as k'. cbn [mpow]. unfold mmul.
    rewrite !entry_tabulate by lia.
    cbn [seq map sum fold_right]. rewrite IH00, IH01, IH10, IH11.
    subst k'. cbn. repeat split; ring.
Qed.

Lemma exp_series (x : R) :
  Un_cv (sum_f_R0 (fun k => / INR (fact k) * x ^ k)) (exp x).
Proof. exact (proj2_sig (exist_exp x)). Qed.

Lemma expm_absorbing (d : R) :
  expm (map (map (fun q => q * d)) absorbingRate) =
  [[exp (- d); 1 - exp (- d)]; [0; 1]].
Proof.
  set (m := map (map (fun q => q * d)) absorbingRate).
  assert (P := absorbing_power d). fold m in P. cbv zeta in P.
  set (series := sum_f_R0 (fun k => / INR (fact k) * (- d) ^ k)).
  assert (S00 : forall N, expm_partial m 0 0 N = series N).
  { induction N as [|N IH].
    - cbn. field.
    - unfold expm_partial, series in *. change (List.length m) with 2%nat in *.
      cbn [sum_f_R0]. rewrite IH.
      destruct (P N) as [-> _]. unfold Rdiv. ring. }
  assert (S01 : forall N, expm_partial m 0 1 N = 1 - series N).
  { induction N as [|N IH].
    - cbn. field.
    - unfold expm_partial, series in *. change (List.length m) with 2%nat in *.
      cbn [sum_f_R0]. rewrite IH.
      destruct (P N) as [_ [-> _]]. unfold Rdiv. ring. }
  assert (S10 : forall N, expm_partial m 1 0 N = 0).
  { intros N. unfold expm_partial. rewrite partial_sum_first_term.
    - cbn. field.
    - intros k. change (List.length m) with 2%nat.
      destruct (P k) as [_ [_ [-> _]]]. unfold Rdiv. ring. }
  assert (S11 : forall N, expm_partial m 1 1 N = 1).
  { intros N. unfold expm_partial. rewrite partial_sum_first_term.
    - cbn. field.
    - intros k. change (List.length m) with 2%nat.
      destruct (P k) as [_ [_ [_ ->]]]. unfold Rdiv. ring. }
  assert (L00 : limit (expm_partial m 0 0) = exp (- d)).
  { apply limit_eq. intros eps Heps.
    destruct (exp_series (- d) eps Heps) as [N HN]. exists N. intros n Hn.
    rewrite S00. apply HN, Hn. }
  assert (L01 : limit (expm_partial m 0 1) = 1 - exp (- d)).
  { apply limit_eq. intros eps Heps.
    destruct (exp_series (- d) eps Heps) as [N HN]. exists N. intros n Hn.
    rewrite S01. specialize (HN n Hn). unfold Rdist in *. fold series in HN.
    replace (1 - series n - (1 - exp (- d))) with (- (series n - exp (- d))) by ring.
    now rewrite Rabs_Ropp. }
  unfold expm. change (List.length m) with 2%nat.
  unfold tabulate. cbn [seq map].
  rewrite L00, L01, (limit_constant _ 0 S10), (limit_constant _ 1 S11).
  reflexivity.
Qed.

Lemma symmetric_power (d : R) (k : nat) :
  let m := map (map (fun q => q * d)) symmetricRate in
  entry (mpow 2 m (S k)) 0 0 = (- (2 * d)) ^ S k / 2 /\
  entry (mpow 2 m (S k)) 0 1 = - ((- (2 * d)) ^ S k / 2) /\
  entry (mpow 2 m (S k)) 1 0 = - ((- (2 * d)) ^ S k / 2) /\
  entry (mpow 2 m (S k)) 1 1 = (- (2 * d)) ^ S k / 2.
Proof.
  intros m. induction k as [|k [IH00 [IH01 [IH10 IH11]]]].
  - cbn. repeat split; field.
  - remember (S k) as k'. cbn [mpow]. unfold mmul.
    rewrite !entry_tabulate by lia.
    cbn [seq map sum fold_right]. rewrite IH00, IH01, IH10, IH11.
    subst k'. cbn. repeat split; field.
Qed.

Lemma Un_cv_affine (u : nat -> R) (l a b : R) :
  Un_cv u l -> Un_cv (fun n => a + b * u n) (a + b * l).
Proof.
  intros H.
  apply (CV_plus (fun _ => a) (fun n => b * u n)).
  - intros eps Heps. exists 0%nat. intros n _.
    unfold Rdist. now rewrite Rminus_diag, Rabs_R0.
  - apply (CV_mult (fun _ => b) u); [|exact H].
    intros eps Heps. exists 0%nat. intros n _.
    unfold Rdist. now rewrite Rminus_diag, Rabs_R0.
Qed.

Lemma expm_symmetric (d : R) :
  expm (map (map (fun q => q * d)) symmetricRate) =
  [[(1 + exp (- (2 * d))) / 2; (1 - exp (- (2 * d))) / 2];
   [(1 - exp (- (2 * d))) / 2; (1 + exp (- (2 * d))) / 2]].
Proof.
  set (m := map (map (fun q => q * d)) symmetricRate).
  assert (P := symmetric_power d). fold m in P. cbv zeta in P.
  set (series := sum_f_R0 (fun k => / INR (fact k) * (- (2 * d)) ^ k)).
  assert (same : forall i j, ((i = 0 /\ j = 0) \/ (i = 1 /\ j = 1))%nat ->
            forall N, expm_partial m i j N = 1 / 2 + 1 / 2 * series N).
  { intros i j Hij. induction N as [|N IH].
    - destruct Hij as [[-> ->]|[-> ->]]; cbn; field.
    - unfold expm_partial, series in *. change (List.length m) with 2%nat in *.
      cbn [sum_f_R0]. rewrite IH.
      destruct (P N) as [E00 [_ [_ E11]]].
      destruct Hij as [[-> ->]|[-> ->]]; [rewrite E00 | rewrite E11];
        unfold Rdiv; ring. }
  assert (other : forall i j, ((i = 0 /\ j = 1) \/ (i = 1 /\ j = 0))%nat ->
            forall N, expm_partial m i j N = 1 / 2 + - (1 / 2) * series N).
  { intros i j Hij. induction N as [|N IH].
    - destruct Hij as [[-> ->]|[-> ->]]; cbn; field.
    - unfold expm_partial, series in *. change (List.length m) with 2%nat in *.
      cbn [sum_f_R0]. rewrite IH.
      destruct (P N) as [_ [E01 [E10 _]]].
      destruct Hij as [[-> ->]|[-> ->]]; [rewrite E01 | rewrite E10];
        unfold Rdiv; ring. }
  assert (Lsame : forall i j, ((i = 0 /\ j = 0) \/ (i = 1 /\ j = 1))%nat ->
            limit (expm_partial m i j) = (1 + exp (- (2 * d))) / 2).
  { intros i j Hij. apply limit_eq.
    replace ((1 + exp (- (2 * d))) / 2) with (1 / 2 + 1 / 2 * exp (- (2 * d)))
      by field.
    intros eps Heps.
    destruct (Un_cv_affine _ _ (1 / 2) (1 / 2) (exp_series (- (2 * d))) eps Heps)
      as [N HN].
    exists N. intros n Hn. rewrite (same i j Hij). apply HN, Hn. }
  assert (Lother : forall i j, ((i = 0 /\ j = 1) \/ (i = 1 /\ j = 0))%nat ->
            limit (expm_partial m i j) = (1 - exp (- (2 * d))) / 2).
  { intros i j Hij. apply limit_eq.
    replace ((1 - exp (- (2 * d))) / 2) with (1 / 2 + - (1 / 2) * exp (- (2 * d)))
      by field.
    intros eps Heps.
    destruct (Un_cv_affine _ _ (1 / 2) (- (1 / 2)) (exp_series (- (2 * d))) eps Heps)
      as [N HN].
    exists N. intros n Hn. rewrite (other i j Hij). apply HN, Hn. }
  unfold expm. change (List.length m) with 2%nat.
  unfold tabulate. cbn [seq map].
  rewrite (Lsame 0%nat 0%nat), (Lsame 1%nat 1%nat) by tauto.
  rewrite (Lother 0%nat 1%nat), (Lother 1%nat 0%nat) by tauto.
  reflexivity.
Qed.

(** *** Lists as arrays *)
Lemma firstn_map2 {A B C : Type} (f : A -> B -> C) (n : nat) :
  forall l l', firstn n (map2 f l l') = map2 f (firstn n l) (firstn n l').
Proof.
  induction n as [|n IH]; intros [|a l] [|b l']; try reflexivity.
  cbn [firstn map2]. now rewrite IH.
Qed.

Lemma map2_repeat {A B C : Type} (f : A -> B -> C) (a : A) (b : B) (n : nat) :
  map2 f (repeat a n) (repeat b n) = repeat (f a b) n.
Proof. induction n as [|n IH]; [reflexivity|]. cbn. now rewrite IH. Qed.

Lemma map_repeat' {A B : Type} (f : A -> B) (a : A) (n : nat) :
  map f (repeat a n) = repeat (f a) n.
Proof. induction n as [|n IH]; [reflexivity|]. cbn. now rewrite IH. Qed.

Lemma firstn_repeat_add {A : Type} (a : A) (n m : nat) :
  firstn n (repeat a (n + m)) = repeat a n.
Proof. induction n as [|n IH]; [reflexivity|]. cbn. now rewrite IH. Qed.

Lemma firstn_exact_app {A : Type} (l l' : list A) :
  firstn (List.length l) (l ++ l') = l.
Proof. induction l as [|a l IH]; [reflexivity|]. cbn. now rewrite IH. Qed.

Lemma length_alter {T : Type} (f : T -> T) (l : list T) (i : nat) :
  List.length (alter f l i) = List.length l.
Proof.
  revert i. induction l as [|x l IH]; intros [|i]; cbn; try reflexivity.
  now rewrite IH.
Qed.

Lemma nth_alter_same {T : Type} (f : T -> T) (l : list T) (i : nat) (d : T) :
  (i < List.length l)%nat -> nth i (alter f l i) d = f (nth i l d).
Proof.
  revert i. induction l as [|x l IH]; intros [|i] H; cbn in *; try lia.
  - reflexivity.
  - apply IH. lia.
Qed.

Lemma nth_alter_other {T : Type} (f : T -> T) (l : list T) (i r : nat) (d : T) :
  r <> i -> nth r (alter f l i) d = nth r l d.
Proof.
  revert i r. induction l as [|x l IH]; intros [|i] [|r] H; cbn; try reflexivity.
  - lia.
  - apply IH. lia.
Qed.

Lemma alter_fixed {T : Type} (f : T -> T) (l : list T) (i : nat) (d : T) :
  f (nth i l d) = nth i l d -> alter f l i = l.
Proof.
  revert i. induction l as [|x l IH]; intros [|i] H; cbn in *; try reflexivity.
  - now rewrite H.
  - now rewrite IH.
Qed.

Lemma jupdate_in_range {T : Type} (f : T -> T) (l : list T) (i : Z) :
  (0 <= i < Z.of_nat (List.length l))%Z -> jupdate f l i = alter f l (Z.to_nat i).
Proof.
  intros H. unfold jupdate, normalize_index.
  destruct (Z.ltb_spec i 0); [lia|].
  destruct (Z.leb_spec 0 i); [|lia].
  destruct (Z.ltb_spec i (Z.of_nat (List.length l))); [|lia].
  reflexivity.
Qed.

Lemma jget_index {T : Type} (d : T) (l : list T) (i : Z) :
  (0 <= i < Z.of_nat (List.length l))%Z -> jget d l i = nth (Z.to_nat i) l d.
Proof.
  intros H. rewrite <- (Z2Nat.id i) at 1 by lia. apply jget_in_range. lia.
Qed.

(** *** Vectors of ones *)
Lemma length_tabulate (n : nat) (f : nat -> nat -> R) : List.length (tabulate n f) = n.
Proof. unfold tabulate. now rewrite length_map, length_seq. Qed.

Lemma square_tabulate (n : nat) (f : nat -> nat -> R) : square (tabulate n f) = true.
Proof.
  unfold square. apply forallb_forall. intros row Hrow.
  rewrite length_tabulate. unfold tabulate in Hrow. apply in_map_iff in Hrow.
  destruct Hrow as [i [<- _]]. rewrite length_map, length_seq. apply Nat.eqb_refl.
Qed.

Lemma dot_indicator (n i : nat) :
  forall start, (start <= i < start + n)%nat ->
  dot (map (fun j => if (i =? j)%nat then 1 else 0) (seq start n)) (repeat 1 n) = 1.
Proof.
  unfold dot. induction n as [|n IH]; intros start H; [lia|].
  cbn [seq map repeat map2 sum fold_right].
  destruct (Nat.eqb_spec i start) as [->|Hne].
  - assert (Z : forall m s, (start < s)%nat ->
                 fold_right Rplus 0
                   (map2 Rmult (map (fun j => if (start =? j)%nat then 1 else 0) (seq s m))
                      (repeat 1 m)) = 0).
    { induction m as [|m IHm]; intros s Hs; [reflexivity|].
      cbn [seq map repeat map2 fold_right].
      destruct (Nat.eqb_spec start s); [lia|]. rewrite IHm by lia. ring. }
    rewrite Z by lia. ring.
  - specialize (IH (S start)). unfold sum in IH. rewrite IH by lia. ring.
Qed.

Lemma map_constant {A B : Type} (f : A -> B) (b : B) (l : list A) :
  (forall x, In x l -> f x = b) -> map f l = repeat b (List.length l).
Proof.
  induction l as [|x l IH]; intros H; [reflexivity|].
  cbn. rewrite (H x) by now left. rewrite IH; [reflexivity|].
  intros y Hy. apply H. now right.
Qed.

Lemma matvec_eye_ones (n : nat) : matvec (eye n) (repeat 1 n) = repeat 1 n.
Proof.
  unfold matvec, eye, tabulate. rewrite map_map.
  rewrite (map_constant _ 1).
  - now rewrite length_seq.
  - intros i Hi. apply in_seq in Hi. apply dot_indicator. lia.
Qed.

Lemma vmax_ones (n : nat) : (1 <= n)%nat -> vmax (repeat 1 n) = 1.
Proof.
  destruct n as [|n]; [lia|]. intros _. cbn [repeat vmax].
  induction n as [|n IH]; [reflexivity|].
  cbn [repeat fold_left]. rewrite Rmax_left by lra. exact IH.
Qed.

Lemma gap_vector (n : nat) : jget [] (tokenLookup n) (-1 + 1)%Z = repeat 1 n.
Proof.
  unfold jget, normalize_index, tokenLookup. cbn [List.length].
  change (-1 + 1)%Z with 0%Z. cbn [Z.ltb Z.compare].
  replace (Z.max 0 (Z.min 0 (Z.of_nat (S (List.length (eye n))) - 1))) with 0%Z by lia.
  reflexivity.
Qed.

(** *** Pruning, step by step *)
Lemma subLogLikeForMatrices_checked
    (alignment : list (list Z)) (parentIndex : list Z)
    (subMatrix : list matrix) (rootProb : list R) :
  shapes_agree parentIndex subMatrix rootProb ->
  subLogLikeForMatrices alignment parentIndex subMatrix rootProb =
  Some (rootLogLike rootProb (pruned alignment parentIndex subMatrix)).
Proof.
  intros [Hp [Hr Hm]]. unfold subLogLikeForMatrices.
  rewrite Hp, Hr, !Nat.eqb_refl. cbn [negb].
  assert (forallb
            (fun m => (List.length m =? List.length (hd [] subMatrix))%nat && square m)
            subMatrix = true) as ->.
  { apply forallb_forall. intros m Hin.
    rewrite Forall_forall in Hm. destruct (Hm m Hin) as [-> ->].
    now rewrite Nat.eqb_refl. }
  cbn [negb]. unfold rootLogLike, pruned, initialLikelihood.
  destruct (fold_left _ _ _) as [likelihood logNorm]. reflexivity.
Qed.

Section Padding.
Variables R0 C0 k c n : nat.
Variable parentIndex : list Z.
Variable subMatrix : list matrix.
Hypothesis rows : (1 <= R0)%nat.
Hypothesis symbols : (1 <= n)%nat.
Hypothesis parents : List.length parentIndex = R0.
Hypothesis matrices : List.length subMatrix = R0.
Hypothesis parent_is_row :
  forall i, (0 < i < R0)%nat -> (0 <= nth i parentIndex 0 < Z.of_nat R0)%Z.

Local Notation "'parentIndex''" :=
  (parentIndex ++ arange (Z.of_nat R0) (Z.of_nat R0 + Z.of_nat k)).
Local Notation "'subMatrix''" := (subMatrix ++ repeat (eye n) k).

Lemma length_arange (lo hi : Z) : List.length (arange lo hi) = Z.to_nat (hi - lo).
Proof. unfold arange. now rewrite length_map, length_seq. Qed.

Lemma nth_arange (lo hi : Z) (i : nat) :
  (i < Z.to_nat (hi - lo))%nat -> nth i (arange lo hi) 0%Z = (lo + Z.of_nat i)%Z.
Proof. intros H. unfold arange. now rewrite nth_tabulated. Qed.

Lemma length_padded_parents : List.length parentIndex' = (R0 + k)%nat.
Proof. rewrite length_app, length_arange, parents. lia. Qed.

Lemma length_padded_matrices : List.length subMatrix' = (R0 + k)%nat.
Proof. now rewrite length_app, repeat_length, matrices. Qed.

Lemma pruneStep_agrees (padded unpadded : pruning) (child : nat) :
  agrees R0 C0 k padded unpadded -> (0 < child < R0)%nat ->
  agrees R0 C0 k (pruneStep parentIndex' subMatrix' padded child)
         (pruneStep parentIndex subMatrix unpadded child).
Proof.
  destruct padded as [L' N'], unpadded as [L N].
  intros [HL [HL' [Hrow HN]]] Hchild. cbn [fst snd] in *.
  pose proof (parent_is_row child Hchild) as Hpar.
  unfold pruneStep.
  rewrite (jget_in_range 0%Z parentIndex') by (rewrite length_padded_parents; lia).
  rewrite (jget_in_range 0%Z parentIndex) by lia.
  rewrite app_nth1 by lia.
  set (pz := nth child parentIndex 0%Z) in *.
  rewrite (jget_in_range [] subMatrix') by (rewrite length_padded_matrices; lia).
  rewrite (jget_in_range [] subMatrix) by lia.
  rewrite app_nth1 by lia.
  set (P := nth child subMatrix []).
  rewrite (jget_in_range [] L') by lia.
  rewrite (jget_in_range [] L) by lia.
  set (q := Z.to_nat pz).
  assert (Hq : (q < R0)%nat) by (unfold q; lia).
  set (msg' := map (matvec P) (nth child L' [])).
  set (msg := map (matvec P) (nth child L [])).
  assert (Hmsg : firstn C0 msg' = msg).
  { unfold msg', msg. rewrite firstn_map, Hrow by lia. reflexivity. }
  rewrite (jupdate_in_range _ L') by lia.
  rewrite (jupdate_in_range _ L) by lia. fold q.
  rewrite (jget_index [] (alter _ L' q)) by (rewrite length_alter; lia).
  rewrite (jget_index [] (alter _ L q)) by (rewrite length_alter; lia).
  fold q. rewrite !nth_alter_same by lia.
  set (Y' := map2 (map2 Rmult) (nth q L' []) msg').
  set (Y := map2 (map2 Rmult) (nth q L []) msg).
  assert (HY : firstn C0 Y' = Y).
  { unfold Y', Y. rewrite firstn_map2, Hrow, Hmsg by lia. reflexivity. }
  assert (Hmax : firstn C0 (map vmax Y') = map vmax Y).
  { now rewrite firstn_map, HY. }
  rewrite (jupdate_in_range _ (alter _ L' q)) by (rewrite length_alter; lia).
  rewrite (jupdate_in_range _ (alter _ L q)) by (rewrite length_alter; lia).
  fold q. unfold agrees. cbn [fst snd].
  rewrite !length_alter.
  split; [exact HL|]. split; [exact HL'|]. split.
  - intros r Hr. destruct (Nat.eq_dec r q) as [->|Hne].
    + rewrite !nth_alter_same by (rewrite ?length_alter; lia).
      fold Y' Y. rewrite firstn_map2, HY, Hmax. reflexivity.
    + rewrite !nth_alter_other by exact Hne. apply Hrow, Hr.
  - rewrite firstn_map2, firstn_map, HN, Hmax. reflexivity.
Qed.

Lemma fold_agrees (children : list nat) :
  Forall (fun child => (0 < child < R0)%nat) children ->
  forall padded unpadded,
    agrees R0 C0 k padded unpadded ->
    agrees R0 C0 k (fold_left (pruneStep parentIndex' subMatrix') children padded)
           (fold_left (pruneStep parentIndex subMatrix) children unpadded).
Proof.
  induction 1 as [|child children Hc _ IH]; intros padded unpadded H;
    [exact H|].
  cbn [fold_left]. apply IH. now apply pruneStep_agrees.
Qed.

Lemma add_zeros (N : list R) (m : nat) :
  List.length N = m -> map2 Rplus N (repeat 0 m) = N.
Proof.
  revert m. induction N as [|x N IH]; intros [|m] H; cbn in *;
    try reflexivity; try lia.
  rewrite IH by lia. f_equal. ring.
Qed.

(** A padding row is self-parented, at distance zero and all gaps: its turn
    changes nothing. *)
Lemma pruneStep_padding_row (L : list (list (list R))) (N : list R) (child : nat) :
  (R0 <= child < R0 + k)%nat ->
  List.length L = (R0 + k)%nat ->
  nth child L [] = repeat (repeat 1 n) (List.length N) ->
  pruneStep parentIndex' subMatrix' (L, N) child = (L, N).
Proof.
  intros Hchild HL Hgap. unfold pruneStep.
  rewrite (jget_in_range 0%Z parentIndex') by (rewrite length_padded_parents; lia).
  rewrite app_nth2 by lia. rewrite parents, nth_arange by lia.
  replace (Z.of_nat R0 + Z.of_nat (child - R0))%Z with (Z.of_nat child) by lia.
  rewrite (jget_in_range [] subMatrix') by (rewrite length_padded_matrices; lia).
  rewrite app_nth2 by lia.
  rewrite (nth_indep _ [] (eye n)) by (rewrite repeat_length; lia).
  rewrite nth_repeat.
  rewrite (jget_in_range [] L) by lia.
  rewrite Hgap, map_repeat', matvec_eye_ones.
  rewrite (jupdate_in_range _ L) by lia. rewrite Nat2Z.id.
  assert (E1 : alter (fun row => map2 (map2 Rmult) row
                          (repeat (repeat 1 n) (List.length N))) L child = L).
  { apply (alter_fixed _ _ _ []). rewrite Hgap, !map2_repeat.
    now rewrite Rmult_1_l. }
  rewrite E1.
  rewrite (jget_in_range [] L) by lia.
  rewrite Hgap, map_repeat', vmax_ones by exact symbols.
  rewrite (jupdate_in_range _ L) by lia. rewrite Nat2Z.id.
  assert (E2 : alter (fun row => map2 (fun v m => map (fun e => e / m) v) row
                          (repeat 1 (List.length N))) L child = L).
  { apply (alter_fixed _ _ _ []). rewrite Hgap, map2_repeat, map_repeat'.
    now replace (1 / 1) with 1 by field. }
  rewrite E2, map_repeat', ln_1, add_zeros by reflexivity.
  reflexivity.
Qed.

Lemma fold_padding_rows (L : list (list (list R))) (N : list R) (children : list nat) :
  List.length L = (R0 + k)%nat ->
  Forall (fun child => (R0 <= child < R0 + k)%nat /\
                       nth child L [] = repeat (repeat 1 n) (List.length N))
         children ->
  fold_left (pruneStep parentIndex' subMatrix') children (L, N) = (L, N).
Proof.
  intros HL. induction 1 as [|child children [Hc Hg] _ IH]; [reflexivity|].
  cbn [fold_left]. rewrite pruneStep_padding_row by assumption. exact IH.
Qed.

End Padding.

(** *** Padding leaves the original columns alone *)
Lemma nth_initialLikelihood (A : nat) (alignment : list (list Z)) (r : nat) :
  (r < List.length alignment)%nat ->
  nth r (initialLikelihood A alignment) [] =
  map (fun tok => jget [] (tokenLookup A) (tok + 1)%Z) (nth r alignment []).
Proof. intros H. unfold initialLikelihood. now apply nth_map_in. Qed.

Lemma pruned_padding
    (alignment : list (list Z)) (parentIndex : list Z) (subMatrix : list matrix)
    (k c : nat) :
  let R0 := List.length alignment in
  let C0 := List.length (hd [] alignment) in
  let n := List.length (hd [] subMatrix) in
  (1 <= R0)%nat -> (1 <= n)%nat ->
  Forall (fun row => List.length row = C0) alignment ->
  List.length parentIndex = R0 -> List.length subMatrix = R0 ->
  (forall i, (0 < i < R0)%nat -> (0 <= nth i parentIndex 0 < Z.of_nat R0)%Z) ->
  agrees R0 C0 k
    (pruned (padded_alignment alignment k c)
            (parentIndex ++ arange (Z.of_nat R0) (Z.of_nat R0 + Z.of_nat k))
            (subMatrix ++ repeat (eye n) k))
    (pruned alignment parentIndex subMatrix).
Proof.
  intros R0 C0 n HR Hn Hrect Hp Hm Hpar.
  assert (Hhd : hd [] (subMatrix ++ repeat (eye n) k) = hd [] subMatrix).
  { destruct subMatrix; [cbn in Hm; lia | reflexivity]. }
  assert (Hcols : List.length (hd [] (padded_alignment alignment k c)) = (C0 + c)%nat).
  { unfold padded_alignment. destruct alignment as [|row rest]; [cbn in HR; lia|].
    cbn [app map hd]. now rewrite length_app, repeat_length. }
  assert (Hlen : List.length (padded_alignment alignment k c) = (R0 + k)%nat).
  { unfold padded_alignment. now rewrite length_map, length_app, repeat_length. }
  assert (Hgap : forall r, (R0 <= r < R0 + k)%nat ->
            nth r (initialLikelihood n (padded_alignment alignment k c)) [] =
            repeat (repeat 1 n) (C0 + c)).
  { intros r Hr. rewrite nth_initialLikelihood by lia.
    unfold padded_alignment.
    rewrite (nth_map_in _ _ r [] []) by (rewrite length_app, repeat_length; lia).
    rewrite app_nth2 by lia.
    rewrite (nth_indep _ [] (repeat (-1)%Z C0)) by (rewrite repeat_length; lia).
    rewrite nth_repeat, <- repeat_app, map_repeat', gap_vector. reflexivity. }
  assert (Horig : forall r, (r < R0)%nat ->
            firstn C0 (nth r (initialLikelihood n (padded_alignment alignment k c)) []) =
            nth r (initialLikelihood n alignment) []).
  { intros r Hr. rewrite !nth_initialLikelihood by lia.
    unfold padded_alignment.
    rewrite (nth_map_in _ _ r [] []) by (rewrite length_app, repeat_length; lia).
    rewrite app_nth1 by lia.
    rewrite Forall_forall in Hrect.
    rewrite firstn_map, <- (Hrect (nth r alignment [])) by (apply nth_In; lia).
    now rewrite firstn_exact_app. }
  unfold pruned. rewrite Hhd, Hcols. fold n.
  rewrite length_app, repeat_length, Hm.
  replace (R0 + k - 1)%nat with ((R0 - 1) + k)%nat by lia.
  rewrite seq_app, rev_app_distr, fold_left_app.
  replace (1 + (R0 - 1))%nat with R0 by lia.
  rewrite (fold_padding_rows R0 k n parentIndex subMatrix HR Hn Hp Hm).
  - apply (fold_agrees R0 C0 k n parentIndex subMatrix HR Hn Hp Hm Hpar).
    + apply Forall_forall. intros child Hc. apply in_rev, in_seq in Hc. lia.
    + unfold agrees. cbn [fst snd]. unfold initialLikelihood at 1 2.
      rewrite !length_map, Hlen.
      split; [reflexivity|]. split; [reflexivity|]. split; [exact Horig|].
      apply firstn_repeat_add.
  - unfold initialLikelihood. now rewrite length_map.
  - apply Forall_forall. intros child Hc. apply in_rev, in_seq in Hc.
    split; [lia|]. rewrite repeat_length. apply Hgap. lia.
Qed.

Lemma rootLogLike_agrees (R0 C0 k : nat) (rootProb : list R) (padded unpadded : pruning) :
  (1 <= R0)%nat -> agrees R0 C0 k padded unpadded ->
  firstn C0 (rootLogLike rootProb padded) = rootLogLike rootProb unpadded.
Proof.
  intros HR [HL [HL' [Hrow HN]]]. unfold rootLogLike.
  rewrite (jget_index [] (fst padded)) by lia.
  rewrite (jget_index [] (fst unpadded)) by lia.
  rewrite firstn_map2, firstn_map, HN. change (Z.to_nat 0) with 0%nat.
  rewrite Hrow by lia. reflexivity.
Qed.

Lemma branch_matrices_shape (distanceToParent : list R) (subRate : matrix) :
  Forall (fun m => List.length m = List.length subRate /\ square m = true)
         (map (fun d => expm (map (map (fun q => q * d)) subRate)) distanceToParent).
Proof.
  apply Forall_forall. intros m Hm. apply in_map_iff in Hm.
  destruct Hm as [d [<- _]]. unfold expm.
  now rewrite length_tabulate, length_map, square_tabulate.
Qed.

Lemma hd_branch_matrices (distanceToParent : list R) (subRate : matrix) :
  distanceToParent <> [] ->
  List.length (hd [] (map (fun d => expm (map (map (fun q => q * d)) subRate))
                        distanceToParent)) = List.length subRate.
Proof.
  destruct distanceToParent as [|d rest]; [congruence|]. intros _.
  cbn [map hd]. unfold expm. now rewrite length_tabulate, length_map.
Qed.

(** [subLogLike] makes no check on values: with consistent shapes it
    returns. *)
Lemma subLogLike_returns
    (alignment : list (list Z)) (distanceToParent : list R) (parentIndex : list Z)
    (subRate : matrix) (rootProb : list R) :
  square subRate = true -> distanceToParent <> [] ->
  List.length parentIndex = List.length distanceToParent ->
  List.length rootProb = List.length subRate ->
  subLogLike alignment distanceToParent parentIndex subRate rootProb =
  Some (rootLogLike rootProb
          (pruned alignment parentIndex
             (map (fun d => expm (map (map (fun q => q * d)) subRate))
                  distanceToParent))).
Proof.
  intros Hsq Hne Hp Hr. unfold subLogLike, computeSubMatrixForBranchLengths.
  rewrite Hsq. apply subLogLikeForMatrices_checked.
  unfold shapes_agree. rewrite hd_branch_matrices by exact Hne.
  rewrite length_map. split; [exact Hp|]. split; [exact Hr|].
  apply branch_matrices_shape.
Qed.

Lemma padAlignment_shape
    (alignment : list (list Z)) (parentIndex : list Z) (distanceToParent : list R)
    (nRows nCols : option Z) (colMultiplier rowMultiplier : R)
    (alignment' : list (list Z)) (parentIndex' : list Z) (distanceToParent' : list R) :
  padAlignment alignment parentIndex distanceToParent nRows nCols
    colMultiplier rowMultiplier = Some (alignment', parentIndex', distanceToParent') ->
  exists k c,
    alignment' = padded_alignment alignment k c /\
    parentIndex' =
      parentIndex ++ arange (Z.of_nat (List.length alignment))
                            (Z.of_nat (List.length alignment) + Z.of_nat k) /\
    distanceToParent' = distanceToParent ++ repeat 0 k.
Proof.
  unfold padAlignment, padded_alignment.
  set (R0 := Z.of_nat (List.length alignment)).
  set (C0 := List.length (hd [] alignment)).
  set (cols := match nCols with
               | Some z => z
               | None => padDimension (Z.of_nat C0) colMultiplier
               end).
  set (rws := match nRows with
              | Some z => z
              | None => padDimension R0 rowMultiplier
              end).
  assert (no_rows : arange R0 (R0 + Z.of_nat 0) = []).
  { unfold arange. replace (R0 + Z.of_nat 0 - R0)%Z with 0%Z by lia. reflexivity. }
  assert (no_cols : forall l : list (list Z), map (fun row => row ++ repeat (-1)%Z 0) l = l).
  { intros l. rewrite <- (map_id l) at 2. apply map_ext. intros row.
    apply app_nil_r. }
  destruct (Z.ltb_spec R0 rws) as [Hr|Hr];
    destruct (Z.ltb_spec (Z.of_nat C0) cols) as [Hc|Hc].
  - match goal with |- context [Z.eqb ?a ?b] => destruct (Z.eqb a b) end;
      [|discriminate].
    intros [= <- <- <-].
    exists (Z.to_nat (rws - R0)), (Z.to_nat (cols - Z.of_nat C0)).
    rewrite ?Nat2Z.id. replace (R0 + Z.of_nat (Z.to_nat (rws - R0)))%Z with rws by lia.
    repeat split.
  - intros [= <- <- <-].
    exists (Z.to_nat (rws - R0)), 0%nat.
    rewrite ?Nat2Z.id, no_cols.
    replace (R0 + Z.of_nat (Z.to_nat (rws - R0)))%Z with rws by lia.
    repeat split.
  - match goal with |- context [Z.eqb ?a ?b] => destruct (Z.eqb a b) end;
      [|discriminate].
    intros [= <- <- <-].
    exists 0%nat, (Z.to_nat (cols - Z.of_nat C0)).
    rewrite ?Nat2Z.id, no_rows. cbn [repeat]. rewrite !app_nil_r.
    repeat split.
  - intros [= <- <- <-].
    exists 0%nat, 0%nat.
    rewrite no_rows, no_cols. cbn [repeat]. rewrite !app_nil_r.
    repeat split.
Qed.

(** C1, as amended: for an alignment with rows of equal length, one branch
    length and one parent index per row, a square rate matrix over a
    non-empty alphabet and root frequencies of its size, and a tree in which
    every row after the first has a parent index in [0, i], whatever the row
    and column counts or multipliers given to [padAlignment]: when it returns,
    [subLogLike] returns on the padded and on the unpadded inputs, and the
    first [C] per-column log-likelihoods of the padded result are the
    unpadded result. *)
Theorem padding_invariance
    (alignment : list (list Z)) (distanceToParent : list R) (parentIndex : list Z)
    (subRate : matrix) (rootProb : list R)
    (nRows nCols : option Z) (colMultiplier rowMultiplier : R)
    (alignment' : list (list Z)) (parentIndex' : list Z) (distanceToParent' : list R) :
  let R0 := List.length alignment in
  let C0 := List.length (hd [] alignment) in
  (1 <= R0)%nat ->
  Forall (fun row => List.length row = C0) alignment ->
  List.length distanceToParent = R0 ->
  List.length parentIndex = R0 ->
  square subRate = true -> (1 <= List.length subRate)%nat ->
  List.length rootProb = List.length subRate ->
  (forall i, (0 < i < R0)%nat -> (0 <= nth i parentIndex 0 <= Z.of_nat i)%Z) ->
  padAlignment alignment parentIndex distanceToParent nRows nCols
    colMultiplier rowMultiplier = Some (alignment', parentIndex', distanceToParent') ->
  exists padded unpadded,
    subLogLike alignment' distanceToParent' parentIndex' subRate rootProb = Some padded /\
    subLogLike alignment distanceToParent parentIndex subRate rootProb = Some unpadded /\
    firstn C0 padded = unpadded.
Proof.
  intros R0 C0 HR Hrect Hd Hp Hsq Hn Hroot Hpar Hpad.
  destruct (padAlignment_shape _ _ _ _ _ _ _ _ _ _ Hpad) as [k [c [-> [-> ->]]]].
  fold R0.
  assert (Hne : distanceToParent <> []).
  { intros ->. cbn in Hd. lia. }
  set (mats := map (fun d => expm (map (map (fun q => q * d)) subRate)) distanceToParent).
  assert (Hhd : List.length (hd [] mats) = List.length subRate)
    by now apply hd_branch_matrices.
  exists (rootLogLike rootProb
            (pruned (padded_alignment alignment k c)
               (parentIndex ++ arange (Z.of_nat R0) (Z.of_nat R0 + Z.of_nat k))
               (mats ++ repeat (eye (List.length (hd [] mats))) k))),
         (rootLogLike rootProb (pruned alignment parentIndex mats)).
  split; [|split].
  - rewrite subLogLike_returns.
    + now rewrite map_app, map_repeat', expm_at_zero_distance, Hhd.
    + exact Hsq.
    + intros E. apply app_eq_nil in E. destruct E as [E _]. now apply Hne.
    + rewrite !length_app, length_arange, repeat_length. lia.
    + exact Hroot.
  - apply subLogLike_returns; try assumption. lia.
  - apply (rootLogLike_agrees R0 C0 k); [exact HR|].
    apply pruned_padding; try assumption.
    + now rewrite Hhd.
    + unfold mats. rewrite length_map. exact Hd.
    + intros i Hi. specialize (Hpar i Hi). fold R0. lia.
Qed.

Lemma padding_invariance_witness :
  exists padded unpadded,
    subLogLike [[0]; [1]; [-1]; [-1]]%Z [0; 1; 1; 0] [-1; 0; 0; 3]%Z
      absorbingRate [1 / 2; 1 / 2] = Some padded /\
    subLogLike [[0]; [1]; [-1]]%Z [0; 1; 1] [-1; 0; 0]%Z
      absorbingRate [1 / 2; 1 / 2] = Some unpadded /\
    firstn 1 padded = unpadded.
Proof.
  apply (padding_invariance [[0]; [1]; [-1]]%Z [0; 1; 1] [-1; 0; 0]%Z
           absorbingRate [1 / 2; 1 / 2] (Some 4%Z) (Some 1%Z) 2 2
           [[0]; [1]; [-1]; [-1]]%Z [-1; 0; 0; 3]%Z [0; 1; 1; 0]).
  - cbn. lia.
  - repeat constructor.
  - reflexivity.
  - reflexivity.
  - reflexivity.
  - cbn. lia.
  - reflexivity.
  - intros [|[|[|i]]] Hi; cbn in *; lia.
  - reflexivity.
Defined.

(** *** Evaluating the model on concrete inputs *)
Ltac side :=
  repeat split; first [lra | apply Rgt_not_eq; lra | apply Rlt_not_eq; lra].

Ltac becomes a v :=
  tryif constr_eq a v then fail
  else (replace a with v by (first [lra | field; side])).

(** Rewrites an argument of [Rmax] or [ln] that equals [v] to [v]. *)
Ltac value v :=
  match goal with
  | |- context [Rmax ?a ?b] => first [becomes a v | becomes b v]
  | |- context [ln ?a] => becomes a v
  end.

Ltac settle_max :=
  match goal with
  | |- context [Rmax ?a ?b] =>
      first [rewrite (Rmax_left a b) by lra | rewrite (Rmax_right a b) by lra]
  end.

Ltac run_pruning :=
  rewrite subLogLike_returns; [|reflexivity|discriminate|reflexivity|reflexivity];
  cbn [map]; rewrite ?expm_at_zero_distance, ?expm_absorbing, ?expm_symmetric;
  lazy - [Rmult Rplus Rminus Rdiv Ropp Rinv Rmax ln exp IZR].

Lemma exp_negative (x : R) : 0 < x -> 0 < exp (- x) < 1.
Proof.
  intros H. split; [apply exp_pos|].
  apply Rlt_le_trans with (exp 0); [apply exp_increasing; lra | rewrite exp_0; lra].
Qed.

Lemma Rleb_true (a b : R) : a <= b -> Rleb a b = true.
Proof. intros H. unfold Rleb. now destruct (Rle_dec a b). Qed.

Lemma Rleb_false (a b : R) : b < a -> Rleb a b = false.
Proof. intros H. unfold Rleb. destruct (Rle_dec a b); [lra | reflexivity]. Qed.

Lemma padDimension_two (len : Z) :
  padDimension len 2 = Z.shiftl 1 (bit_length (len - 1)).
Proof. unfold padDimension. now destruct (Req_dec_T 2 2). Qed.

Lemma padDimension_two_ge (len : Z) : (1 <= len)%Z -> (len <= padDimension len 2)%Z.
Proof.
  intros H. rewrite padDimension_two, Z.shiftl_1_l. unfold bit_length.
  destruct (Z.eqb_spec (len - 1) 0) as [E|E]; [cbn; lia|].
  rewrite Z.abs_eq by lia.
  pose proof (Z.log2_spec (len - 1) ltac:(lia)) as [_ Hlt].
  unfold Z.succ in Hlt. lia.
Qed.

(** With the default multipliers [padAlignment] returns. *)
Lemma padAlignment_default_returns
    (alignment : list (list Z)) (parentIndex : list Z) (distanceToParent : list R) :
  (1 <= List.length alignment)%nat ->
  exists out,
    padAlignment alignment parentIndex distanceToParent None None 2 2 = Some out.
Proof.
  intros HR. unfold padAlignment.
  pose proof (padDimension_two_ge (Z.of_nat (List.length alignment)) ltac:(lia)) as Hge.
  set (rws := padDimension (Z.of_nat (List.length alignment)) 2) in *.
  set (cols := padDimension (Z.of_nat (List.length (hd [] alignment))) 2).
  destruct (Z.ltb_spec (Z.of_nat (List.length alignment)) rws) as [Hr|Hr];
    destruct (Z.ltb_spec (Z.of_nat (List.length (hd [] alignment))) cols) as [Hc|Hc];
    try (eexists; reflexivity).
  - rewrite length_app, repeat_length.
    replace (Z.of_nat (List.length alignment +
                       Z.to_nat (rws - Z.of_nat (List.length alignment)))) with rws
      by lia.
    rewrite Z.eqb_refl. eexists; reflexivity.
  - replace rws with (Z.of_nat (List.length alignment)) by lia.
    rewrite Z.eqb_refl. eexists; reflexivity.
Qed.

(** C1, the failing input: three rows in preorder, the first two of them
    roots (parent index -1), the third a child of the second; both input
    checks accept it.  In the pruning loop the parent index -1 of the second
    row is the last row: unpadded, its own child; padded to four rows, the
    padding row.  The column log-likelihood differs. *)
Lemma padding_changes_second_root :
  let alignment := [[0]; [0]; [1]]%Z in
  let distanceToParent := [0; 1; 1] in
  let parentIndex := [-1; -1; 1]%Z in
  let rootProb := [1 / 2; 1 / 2] in
  let e := exp (- (2 * 1)) in
  alignmentIsValid alignment 2 = Passed /\
  treeIsValid distanceToParent parentIndex 3 = Passed /\
  padAlignment alignment parentIndex distanceToParent None None 2 2 =
    Some ([[0]; [0]; [1]; [-1]]%Z, [-1; -1; 1; 3]%Z, [0; 1; 1; 0]) /\
  subLogLike alignment distanceToParent parentIndex symmetricRate rootProb =
    Some [ln ((1 - e) / 2) + ln ((1 - e) / 2) + ln (1 / 2)] /\
  subLogLike [[0]; [0]; [1]; [-1]]%Z [0; 1; 1; 0] [-1; -1; 1; 3]%Z
    symmetricRate rootProb =
    Some [ln ((1 - e) / 2) + ln ((1 + e) / 2) + ln (1 / 2)] /\
  firstn 1 [ln ((1 - e) / 2) + ln ((1 + e) / 2) + ln (1 / 2)] <>
    [ln ((1 - e) / 2) + ln ((1 - e) / 2) + ln (1 / 2)].
Proof.
  pose proof (exp_negative (2 * 1) ltac:(lra)) as E.
  cbv zeta. set (e := exp (- (2 * 1))) in *.
  split; [reflexivity|]. split; [|split; [|split; [|split]]].
  - unfold treeIsValid. cbn [forallb].
    rewrite !Rleb_true by lra. reflexivity.
  - unfold padAlignment. rewrite !padDimension_two. reflexivity.
  - run_pruning. fold e.
    repeat first [settle_max | value 0 | value (1 / 2) | value ((1 - e) / 2)].
    do 2 f_equal. ring.
  - run_pruning. fold e.
    repeat first [settle_max | value 0 | value 1 | value (1 / 2)
                 | value ((1 - e) / 2) | value ((1 + e) / 2)].
    rewrite ln_1. do 2 f_equal. ring.
  - cbn [firstn]. intros H. injection H as H.
    assert (ln ((1 - e) / 2) < ln ((1 + e) / 2)) by (apply ln_increasing; lra).
    lra.
Qed.

(** *** What the input checks reject *)
Lemma forallb_false {T : Type} (f : T -> bool) (l : list T) (x : T) :
  In x l -> f x = false -> forallb f l = false.
Proof.
  intros Hin Hx. destruct (forallb f l) eqn:E; [|reflexivity].
  rewrite forallb_forall in E. rewrite (E x Hin) in Hx. discriminate.
Qed.

Lemma alignmentIsValid_rejects (alignment : list (list Z)) (alphabetSize : Z) :
  (exists row tok, In row alignment /\ In tok row /\
                   (tok < -1 \/ alphabetSize <= tok)%Z) ->
  alignmentIsValid alignment alphabetSize = AssertionError.
Proof.
  intros [row [tok [Hrow [Htok Hbad]]]]. unfold alignmentIsValid.
  destruct (forallb (forallb (fun tok => (-1 <=? tok)%Z)) alignment) eqn:E1;
    [|reflexivity].
  cbn [negb].
  rewrite (forallb_false _ alignment row Hrow); [reflexivity|].
  apply (forallb_false _ row tok Htok).
  destruct Hbad as [Hlow|Hhigh]; [|apply Z.ltb_ge, Hhigh].
  exfalso. rewrite forallb_forall in E1. specialize (E1 row Hrow).
  rewrite forallb_forall in E1. specialize (E1 tok Htok). lia.
Qed.

Lemma treeIsValid_rejects_distance
    (distanceToParent : list R) (parentIndex : list Z) (alignmentRows : nat) :
  (exists d, In d distanceToParent /\ d < 0) ->
  treeIsValid distanceToParent parentIndex alignmentRows = AssertionError.
Proof.
  intros [d [Hin Hneg]]. unfold treeIsValid.
  rewrite (forallb_false _ distanceToParent d Hin); [reflexivity|].
  now apply Rleb_false.
Qed.

Lemma treeIsValid_rejects_order (distanceToParent : list R) (parentIndex : list Z) :
  (exists i, (0 < i < List.length parentIndex)%nat /\
             (Z.of_nat i < nth i parentIndex 0)%Z) ->
  treeIsValid distanceToParent parentIndex (List.length parentIndex) = AssertionError.
Proof.
  intros [i [Hi Hbad]]. unfold treeIsValid.
  destruct (negb (forallb _ distanceToParent)); [reflexivity|].
  destruct (negb (forallb _ (tl parentIndex))); [reflexivity|].
  assert (le_arange parentIndex (List.length parentIndex) = Some false) as ->;
    [|reflexivity].
  unfold le_arange.
  destruct parentIndex as [|p0 [|p1 rest]]; [cbn in Hi; lia | cbn in Hi; lia|].
  set (parentIndex := p0 :: p1 :: rest) in *.
  change ((List.length parentIndex =? 1)%nat) with false. cbv iota.
  rewrite Nat.eqb_refl. f_equal.
  apply (forallb_false _ _ (nth i parentIndex 0%Z, i)).
  - replace i with (nth i (seq 0 (List.length parentIndex)) 0%nat) at 2
      by (rewrite seq_nth; lia).
    rewrite <- combine_nth by (now rewrite length_seq).
    apply nth_In. rewrite length_combine, length_seq. lia.
  - cbn [fst snd]. apply Z.leb_gt, Hbad.
Qed.

(** C2, as amended: the value checks are [alignmentIsValid] and
    [treeIsValid], which fail on a token outside [-1, alphabetSize), on a
    negative branch length and on a parent index above its row;
    [subLogLike] does not call them: it checks shapes only and returns a
    result whenever the rate matrix is square and there is one parent index
    per branch length and one root frequency per symbol. *)
Theorem subLogLike_checks_shapes_only
    (alignment : list (list Z)) (distanceToParent : list R) (parentIndex : list Z)
    (subRate : matrix) (rootProb : list R) :
  ((exists row tok, In row alignment /\ In tok row /\
       (tok < -1 \/ Z.of_nat (List.length subRate) <= tok)%Z) ->
   alignmentIsValid alignment (Z.of_nat (List.length subRate)) = AssertionError) /\
  ((exists d, In d distanceToParent /\ d < 0) ->
   treeIsValid distanceToParent parentIndex (List.length parentIndex) = AssertionError) /\
  ((exists i, (0 < i < List.length parentIndex)%nat /\
              (Z.of_nat i < nth i parentIndex 0)%Z) ->
   treeIsValid distanceToParent parentIndex (List.length parentIndex) = AssertionError) /\
  (square subRate = true -> distanceToParent <> [] ->
   List.length parentIndex = List.length distanceToParent ->
   List.length rootProb = List.length subRate ->
   exists logLike,
     subLogLike alignment distanceToParent parentIndex subRate rootProb = Some logLike).
Proof.
  split; [apply alignmentIsValid_rejects|].
  split; [apply treeIsValid_rejects_distance|].
  split; [apply treeIsValid_rejects_order|].
  intros Hsq Hne Hp Hr. eexists. now apply subLogLike_returns.
Qed.

Lemma subLogLike_checks_shapes_only_witness :
  let alignment := [[0]; [7]; [0]]%Z in
  let distanceToParent := [0; - (1); 1] in
  let parentIndex := [-1; 2; 0]%Z in
  alignmentIsValid alignment 2 = AssertionError /\
  treeIsValid distanceToParent parentIndex 3 = AssertionError /\
  exists logLike,
    subLogLike alignment distanceToParent parentIndex absorbingRate [1 / 2; 1 / 2] =
    Some logLike.
Proof.
  destruct (subLogLike_checks_shapes_only [[0]; [7]; [0]]%Z [0; - (1); 1]
              [-1; 2; 0]%Z absorbingRate [1 / 2; 1 / 2]) as [H1 [H2 [H3 H4]]].
  split; [|split].
  - apply H1. exists [7%Z], 7%Z. cbn. intuition lia.
  - apply H3. exists 1%nat. cbn. lia.
  - apply H4; (reflexivity || discriminate).
Defined.

(** C2, the failing inputs: a token outside the alphabet, a negative branch
    length, a parent index above its row.  The checks reject each;
    [subLogLike] returns on each, for the negative branch length a
    log-likelihood above zero. *)
Lemma subLogLike_accepts_malformed_input :
  let rootProb := [1 / 2; 1 / 2] in
  (alignmentIsValid [[0]; [7]]%Z 2 = AssertionError /\
   exists logLike,
     subLogLike [[0]; [7]]%Z [0; 1] [-1; 0]%Z absorbingRate rootProb = Some logLike) /\
  (treeIsValid [0; - (1)] [-1; 0]%Z 2 = AssertionError /\
   subLogLike [[0]; [0]]%Z [0; - (1)] [-1; 0]%Z absorbingRate rootProb =
     Some [1 + ln (1 / 2)]) /\
  (treeIsValid [0; 1; 1] [-1; 2; 0]%Z 3 = AssertionError /\
   exists logLike,
     subLogLike [[0]; [0]; [0]]%Z [0; 1; 1] [-1; 2; 0]%Z absorbingRate rootProb =
       Some logLike).
Proof.
  cbv zeta. split; [|split].
  - split; [reflexivity|].
    eexists. apply subLogLike_returns; (reflexivity || discriminate).
  - split.
    + apply treeIsValid_rejects_distance. exists (- (1)). split; [cbn; tauto | lra].
    + assert (E : 1 < exp 1).
      { replace 1 with (exp 0) at 1 by apply exp_0. apply exp_increasing. lra. }
      run_pruning. rewrite Ropp_involutive.
      repeat first [settle_max | value 0 | value (1 / 2) | value (exp 1)].
      rewrite ln_exp. do 2 f_equal. ring.
  - split.
    + apply (treeIsValid_rejects_order [0; 1; 1] [-1; 2; 0]%Z).
      exists 1%nat. cbn. lia.
    + eexists. apply subLogLike_returns; (reflexivity || discriminate).
Qed.

(** *** Lookups in the default grid *)
Lemma default_grid : 0 < 1 / 1000 /\ 1 / 1000 < 10 /\ (2 <= 400)%nat.
Proof. repeat split; try lra; lia. Qed.

Lemma default_table (subRate : matrix) :
  square subRate = true ->
  computeSubMatrixForDiscretizedTimes subRate defaultDiscretizationParams =
  Some (map (fun d => expm (map (map (fun q => q * d)) subRate))
            (getDiscretizedTimes defaultDiscretizationParams)).
Proof.
  intros H. unfold computeSubMatrixForDiscretizedTimes,
    computeSubMatrixForBranchLengths. now rewrite H.
Qed.

Lemma lookup_in_table (subRate : matrix) (t : R) (i : nat) :
  discretizeBranchLength t defaultDiscretizationParams = i -> (i < 401)%nat ->
  computeSubMatrixForDiscretizedBranchLengths [t]
    (map (fun d => expm (map (map (fun q => q * d)) subRate))
         (getDiscretizedTimes defaultDiscretizationParams))
    defaultDiscretizationParams =
  [expm (map (map (fun q => q * nth i (getDiscretizedTimes defaultDiscretizationParams) 0))
             subRate)].
Proof.
  destruct default_grid as [H0 [H1 H2]].
  intros Hi Hlt. unfold computeSubMatrixForDiscretizedBranchLengths. cbn [map].
  rewrite Hi.
  assert (Hlen : List.length (getDiscretizedTimes defaultDiscretizationParams) = 401%nat)
    by apply length_times.
  rewrite jget_in_range by (rewrite length_map, Hlen; exact Hlt).
  rewrite (nth_map_in _ _ i [] 0) by (rewrite Hlen; exact Hlt).
  reflexivity.
Qed.

(** A branch length of exactly zero selects entry 0 of the table, the
    matrix at time zero, which is the identity. *)
Lemma zero_length_lookup (subRate : matrix) :
  square subRate = true ->
  discretizeBranchLength 0 defaultDiscretizationParams = 0%nat /\
  nth 0 (getDiscretizedTimes defaultDiscretizationParams) 1 = 0 /\
  exists table,
    computeSubMatrixForDiscretizedTimes subRate defaultDiscretizationParams = Some table /\
    computeSubMatrixForDiscretizedBranchLengths [0] table defaultDiscretizationParams =
      [eye (List.length subRate)].
Proof.
  intros Hsq.
  assert (D : discretizeBranchLength 0 defaultDiscretizationParams = 0%nat).
  { unfold discretizeBranchLength, defaultDiscretizationParams.
    destruct (Req_dec_T 0 0) as [_|H]; [reflexivity | exfalso; lra]. }
  split; [exact D|]. split; [reflexivity|].
  eexists. split; [now apply default_table|].
  rewrite (lookup_in_table subRate 0 0 D) by lia.
  unfold getDiscretizedTimes, defaultDiscretizationParams. cbn [nth].
  now rewrite expm_at_zero_distance.
Qed.

(** C5, the code at the failing input: the branch length [tMin = 1e-3], the
    first grid boundary.  Its table entry is entry 1; the index computed
    for it is 2, the entry of the next grid time, and for the absorbing
    two-state generator the matrix returned differs from the one computed
    at [tMin] directly. *)
Theorem grid_boundary_lookup_is_next_grid_time :
  let boundary := 1 / 1000 in
  let next := gridTime (1 / 1000) 10 400 1 in
  nth 1 (getDiscretizedTimes defaultDiscretizationParams) 0 = boundary /\
  discretizeBranchLength boundary defaultDiscretizationParams = 2%nat /\
  nth 2 (getDiscretizedTimes defaultDiscretizationParams) 0 = next /\
  boundary < next /\
  (exists table,
     computeSubMatrixForDiscretizedTimes absorbingRate defaultDiscretizationParams
       = Some table /\
     computeSubMatrixForDiscretizedBranchLengths [boundary] table
       defaultDiscretizationParams =
       [[[exp (- next); 1 - exp (- next)]; [0; 1]]]) /\
  computeSubMatrixForBranchLengths [boundary] absorbingRate =
    Some [[[exp (- boundary); 1 - exp (- boundary)]; [0; 1]]] /\
  exp (- next) < exp (- boundary).
Proof.
  destruct default_grid as [H0 [H1 H2]]. intros boundary next.
  assert (F : gridTime (1 / 1000) 10 400 0 = boundary)
    by (apply gridTime_first; assumption).
  assert (T1 : nth 1 (getDiscretizedTimes defaultDiscretizationParams) 0 = boundary).
  { unfold defaultDiscretizationParams. rewrite nth_times by lia. exact F. }
  assert (D : discretizeBranchLength boundary defaultDiscretizationParams = 2%nat).
  { rewrite <- F. unfold defaultDiscretizationParams.
    rewrite discretize_on_grid by (assumption || lia). reflexivity. }
  assert (T2 : nth 2 (getDiscretizedTimes defaultDiscretizationParams) 0 = next).
  { unfold defaultDiscretizationParams. now rewrite nth_times by lia. }
  assert (Lt : boundary < next).
  { rewrite <- F. apply gridTime_increasing; (assumption || lia). }
  split; [exact T1|]. split; [exact D|]. split; [exact T2|]. split; [exact Lt|].
  split; [|split].
  - eexists. split; [now apply default_table|].
    rewrite (lookup_in_table absorbingRate boundary 2 D) by lia.
    now rewrite T2, expm_absorbing.
  - unfold computeSubMatrixForBranchLengths.
    change (square absorbingRate) with true. cbv iota. cbn [map].
    now rewrite expm_absorbing.
  - apply exp_increasing. lra.
Qed.

End LikelihoodFacts.

(** ** Substitution models *)
Module SubModelFacts.
Import Numeric Likelihood LikelihoodFacts.
Local Open Scope R_scope.

Local Notation "'matrix'" := (list (list R)).

Lemma map2_map {A B C D : Type} (f : B -> C -> D) (g : A -> B) (h : A -> C) (l : list A) :
  map2 f (map g l) (map h l) = map (fun x => f (g x) (h x)) l.
Proof. induction l as [|x l IH]; [reflexivity|]. cbn. now rewrite IH. Qed.

Lemma square_rows (m : matrix) (i : nat) :
  square m = true -> (i < List.length m)%nat ->
  List.length (nth i m []) = List.length m.
Proof.
  intros H Hi. unfold square in H. rewrite forallb_forall in H.
  apply Nat.eqb_eq, H, nth_In, Hi.
Qed.

(** A square matrix is the table of its entries. *)
Lemma square_entries (m : matrix) :
  square m = true -> m = tabulate (List.length m) (entry m).
Proof.
  intros H. apply (nth_ext _ _ [] []).
  - now rewrite length_tabulate.
  - intros i Hi. unfold tabulate.
    rewrite (nth_tabulated (fun i => map (entry m i) (seq 0 (List.length m)))) by exact Hi.
    apply (nth_ext _ _ 0 0).
    + rewrite length_map, length_seq. now apply square_rows.
    + intros j Hj. rewrite square_rows in Hj by assumption.
      now rewrite nth_tabulated.
Qed.

Lemma map_tabulate (g : R -> R) (n : nat) (f : nat -> nat -> R) :
  map (map g) (tabulate n f) = tabulate n (fun i j => g (f i j)).
Proof.
  unfold tabulate. rewrite map_map. apply map_ext. intros i. now rewrite map_map.
Qed.

Lemma map2_tabulate (g : R -> R -> R) (n : nat) (f h : nat -> nat -> R) :
  map2 (map2 g) (tabulate n f) (tabulate n h) = tabulate n (fun i j => g (f i j) (h i j)).
Proof.
  unfold tabulate. rewrite map2_map. apply map_ext. intros i. apply map2_map.
Qed.

Lemma row_tabulate (n : nat) (f : nat -> nat -> R) (i : nat) :
  (i < n)%nat -> nth i (tabulate n f) [] = map (f i) (seq 0 n).
Proof.
  intros Hi. unfold tabulate.
  now rewrite (nth_tabulated (fun i => map (f i) (seq 0 n))).
Qed.

Lemma sum_plus {T : Type} (f g : T -> R) (l : list T) :
  sum (map (fun x => f x + g x) l) = sum (map f l) + sum (map g l).
Proof.
  induction l as [|x l IH]; cbn [map sum fold_right]; [ring|].
  fold (sum (map (fun x => f x + g x) l)) (sum (map f l)) (sum (map g l)).
  rewrite IH. ring.
Qed.

Lemma sum_scal {T : Type} (c : R) (f : T -> R) (l : list T) :
  sum (map (fun x => c * f x) l) = c * sum (map f l).
Proof.
  induction l as [|x l IH]; cbn [map sum fold_right]; [ring|].
  fold (sum (map (fun x => c * f x) l)) (sum (map f l)).
  rewrite IH. ring.
Qed.

Lemma sum_ext_in {T : Type} (f g : T -> R) (l : list T) :
  (forall x, In x l -> f x = g x) -> sum (map f l) = sum (map g l).
Proof. intros H. f_equal. now apply map_ext_in. Qed.

(** The sum of an indicator of [i] scaled by [c] over a range holding [i] *)
Lemma sum_indicator (c : R) (i n : nat) :
  forall start, (start <= i < start + n)%nat ->
  sum (map (fun j => if (i =? j)%nat then c else 0) (seq start n)) = c.
Proof.
  induction n as [|n IH]; intros start H; [lia|].
  cbn [seq map sum fold_right].
  fold (sum (map (fun j => if (i =? j)%nat then c else 0) (seq (S start) n))).
  destruct (Nat.eqb_spec i start) as [->|Hne].
  - rewrite (sum_ext_in _ (fun _ => 0)).
    + rewrite sum_zeros by reflexivity. ring.
    + intros j Hj. apply in_seq in Hj.
      destruct (Nat.eqb_spec start j); [lia|reflexivity].
  - rewrite IH by lia. ring.
Qed.

Lemma sum_nonneg {T : Type} (f : T -> R) (l : list T) :
  (forall x, 0 <= f x) -> 0 <= sum (map f l).
Proof.
  intros H. induction l as [|x l IH]; cbn [map sum fold_right]; [lra|].
  fold (sum (map f l)). specialize (H x). lra.
Qed.

(** The entries of [normalizeSubRate]: absolute values, the row's total
    taken off the diagonal. *)
Lemma normalizeSubRate_entries (subRate : matrix) :
  square subRate = true ->
  normalizeSubRate subRate =
  tabulate (List.length subRate)
    (fun i j => Rabs (entry subRate i j) -
                (if (i =? j)%nat
                 then sum (map (fun k => Rabs (entry subRate i k))
                               (seq 0 (List.length subRate)))
                 else 0)).
Proof.
  intros H. pose proof (square_entries subRate H) as E.
  set (n := List.length subRate) in *. set (f := entry subRate) in *.
  rewrite E. unfold normalizeSubRate, diag.
  rewrite map_tabulate, length_map, length_tabulate, map2_tabulate.
  apply tabulate_ext. intros i j Hi Hj. f_equal.
  destruct (i =? j)%nat; [|reflexivity].
  unfold tabulate. rewrite map_map.
  now rewrite (nth_tabulated (fun i => sum (map (fun j => Rabs (f i j)) (seq 0 n)))).
Qed.

Lemma generator_tabulate (n : nat) (f : nat -> nat -> R) :
  (forall i j, (i < n)%nat -> (j < n)%nat -> i <> j -> 0 <= f i j) ->
  (forall i, (i < n)%nat -> sum (map (f i) (seq 0 n)) = 0) ->
  generator n (tabulate n f).
Proof.
  intros Hoff Hrow. repeat split.
  - apply length_tabulate.
  - intros i Hi. rewrite row_tabulate by exact Hi. now rewrite length_map, length_seq.
  - intros i j Hi Hj Hne. rewrite entry_tabulate by assumption. now apply Hoff.
  - intros i Hi. rewrite row_tabulate by exact Hi. now apply Hrow.
Qed.

Lemma sum_minus_indicator (f : nat -> R) (c : R) (i n : nat) :
  (i < n)%nat ->
  sum (map (fun j => f j - (if (i =? j)%nat then c else 0)) (seq 0 n)) =
  sum (map f (seq 0 n)) - c.
Proof.
  intros Hi.
  rewrite (sum_ext_in _ (fun j => f j + (-1) * (if (i =? j)%nat then c else 0)))
    by (intros; ring).
  rewrite sum_plus, sum_scal, sum_indicator by lia. ring.
Qed.

Lemma normalizeSubRate_generator (subRate : matrix) :
  square subRate = true ->
  generator (List.length subRate) (normalizeSubRate subRate).
Proof.
  intros H. rewrite normalizeSubRate_entries by exact H.
  apply generator_tabulate.
  - intros i j Hi Hj Hne. destruct (Nat.eqb_spec i j); [contradiction|].
    rewrite Rminus_0_r. apply Rabs_pos.
  - intros i Hi. rewrite sum_minus_indicator by exact Hi. ring.
Qed.

Lemma term_le_sum (f : nat -> R) (i n : nat) :
  (forall k, 0 <= f k) -> (i < n)%nat -> f i <= sum (map f (seq 0 n)).
Proof.
  intros Hf Hi.
  assert (H : 0 <= sum (map (fun j => f j - (if (i =? j)%nat then f i else 0)) (seq 0 n))).
  { apply sum_nonneg. intros j. destruct (Nat.eqb_spec i j) as [->|_]; [lra|].
    specialize (Hf j). lra. }
  rewrite sum_minus_indicator in H by exact Hi. lra.
Qed.

Lemma normalizeSubRate_length (subRate : matrix) :
  square subRate = true ->
  List.length (normalizeSubRate subRate) = List.length subRate.
Proof. intros H. rewrite normalizeSubRate_entries by exact H. apply length_tabulate. Qed.

Lemma normalizeSubRate_square (subRate : matrix) :
  square subRate = true -> square (normalizeSubRate subRate) = true.
Proof. intros H. rewrite normalizeSubRate_entries by exact H. apply square_tabulate. Qed.

(** *** Root distributions *)
Lemma sum_divided (s : R) (l : list R) : sum (map (fun e => e / s) l) = sum l / s.
Proof.
  induction l as [|x l IH]; cbn [map sum fold_right].
  - unfold Rdiv. ring.
  - fold (sum (map (fun e => e / s) l)) (sum l). rewrite IH. unfold Rdiv. ring.
Qed.

Lemma sum_positive {T : Type} (f : T -> R) (l : list T) :
  l <> [] -> (forall x, 0 < f x) -> 0 < sum (map f l).
Proof.
  intros Hl H. destruct l as [|x l]; [contradiction|].
  cbn [map sum fold_right]. fold (sum (map f l)).
  pose proof (sum_nonneg f l (fun x => Rlt_le _ _ (H x))). specialize (H x). lra.
Qed.

Lemma probsFromLogits_positive (logits : list R) (i : nat) :
  (i < List.length logits)%nat -> 0 < nth i (probsFromLogits logits) 0.
Proof.
  intros Hi. unfold probsFromLogits.
  assert (Hne : logits <> []) by (destruct logits; [cbn in Hi; lia|discriminate]).
  rewrite (nth_map_in _ _ _ _ 0) by now rewrite length_map.
  rewrite (nth_map_in _ _ _ _ 0) by exact Hi.
  apply Rdiv_lt_0_compat; [apply exp_pos|].
  apply sum_positive; [exact Hne|]. intros x. apply exp_pos.
Qed.

Lemma probsFromLogits_sum (logits : list R) :
  logits <> [] -> sum (probsFromLogits logits) = 1.
Proof.
  intros Hne. unfold probsFromLogits. rewrite sum_divided.
  apply Rdiv_diag, Rgt_not_eq, sum_positive; [exact Hne|]. intros x. apply exp_pos.
Qed.

Lemma probsFromLogits_length (logits : list R) :
  List.length (probsFromLogits logits) = List.length logits.
Proof. unfold probsFromLogits. now rewrite !length_map. Qed.

(** *** Reversible models *)
Lemma list_tabulated {T : Type} (d : T) (l : list T) :
  l = map (fun i => nth i l d) (seq 0 (List.length l)).
Proof.
  apply (nth_ext _ _ d d).
  - now rewrite length_map, length_seq.
  - intros i Hi. now rewrite nth_tabulated.
Qed.

Lemma hd_square (m : matrix) :
  square m = true -> List.length (hd [] m) = List.length m.
Proof.
  intros H. destruct m as [|row m]; [reflexivity|].
  apply (square_rows (row :: m) 0 H). cbn. lia.
Qed.

Lemma swapaxes_entries (m : matrix) :
  square m = true ->
  swapaxes m = tabulate (List.length m) (fun i j => entry m j i).
Proof.
  intros H. unfold swapaxes, tabulate. rewrite hd_square by exact H.
  apply map_ext. intros j.
  rewrite (list_tabulated [] m) at 1. now rewrite map_map.
Qed.

Lemma symmetrizeSubRate_entries (m : matrix) :
  square m = true ->
  let h := fun i j => Rabs (1 / 2 * (entry m i j + entry m j i)) in
  symmetrizeSubRate m =
  tabulate (List.length m)
    (fun i j => h i j -
                (if (i =? j)%nat then sum (map (h i) (seq 0 (List.length m))) else 0)).
Proof.
  intros H h. unfold symmetrizeSubRate.
  rewrite swapaxes_entries by exact H.
  rewrite (square_entries m H) at 1.
  rewrite map2_tabulate, map_tabulate.
  rewrite normalizeSubRate_entries by apply square_tabulate.
  rewrite length_tabulate. apply tabulate_ext. intros i j Hi Hj.
  rewrite entry_tabulate by assumption. f_equal.
  destruct (i =? j)%nat; [|reflexivity].
  apply sum_ext_in. intros k Hk. apply in_seq in Hk.
  now rewrite entry_tabulate by lia.
Qed.

Lemma symmetrizeSubRate_symmetric (m : matrix) (i j : nat) :
  square m = true -> (i < List.length m)%nat -> (j < List.length m)%nat ->
  entry (symmetrizeSubRate m) i j = entry (symmetrizeSubRate m) j i.
Proof.
  intros H Hi Hj. destruct (Nat.eq_dec i j) as [->|Hne]; [reflexivity|].
  rewrite symmetrizeSubRate_entries by exact H. cbv zeta.
  rewrite !entry_tabulate by assumption.
  rewrite (proj2 (Nat.eqb_neq i j)), (proj2 (Nat.eqb_neq j i)) by congruence.
  now rewrite (Rplus_comm (entry m i j)).
Qed.

Lemma symmetrizeSubRate_generator (m : matrix) :
  square m = true -> generator (List.length m) (symmetrizeSubRate m).
Proof.
  intros H. rewrite symmetrizeSubRate_entries by exact H. cbv zeta.
  apply generator_tabulate.
  - intros i j Hi Hj Hne. destruct (Nat.eqb_spec i j); [contradiction|].
    rewrite Rminus_0_r. apply Rabs_pos.
  - intros i Hi.
    rewrite (sum_minus_indicator
               (fun j => Rabs (1 / 2 * (entry m i j + entry m j i)))) by exact Hi.
    ring.
Qed.

Lemma reversibleSubRate_tabulate (n : nat) (s : nat -> nat -> R) (p : nat -> R) :
  reversibleSubRate (tabulate n s) (map p (seq 0 n)) =
  tabulate n (fun i j => 1 / sqrt (p i) * s i j * sqrt (p j)).
Proof.
  unfold reversibleSubRate, tabulate. rewrite !map_map, map2_map.
  apply map_ext. intros i.
  exact (map2_map (fun s0 d => 1 / sqrt (p i) * s0 * d) (s i) (fun x => sqrt (p x))
                  (seq 0 n)).
Qed.

Lemma reversibleSubRate_entries (symSubRate : matrix) (rootProb : list R) (i j : nat) :
  square symSubRate = true -> List.length rootProb = List.length symSubRate ->
  (i < List.length symSubRate)%nat -> (j < List.length symSubRate)%nat ->
  entry (reversibleSubRate symSubRate rootProb) i j =
  1 / sqrt (nth i rootProb 0) * entry symSubRate i j * sqrt (nth j rootProb 0).
Proof.
  intros H Hlen Hi Hj.
  pose proof (square_entries symSubRate H) as E.
  pose proof (list_tabulated 0 rootProb) as E'. rewrite Hlen in E'.
  set (n := List.length symSubRate) in *. set (s := entry symSubRate) in *.
  set (p := fun i => nth i rootProb 0) in *.
  change (entry (reversibleSubRate symSubRate rootProb) i j =
          1 / sqrt (p i) * s i j * sqrt (p j)).
  rewrite E, E', reversibleSubRate_tabulate.
  now rewrite entry_tabulate.
Qed.

Lemma balance (p q s : R) :
  0 < p -> 0 < q -> p * (1 / sqrt p * s * sqrt q) = q * (1 / sqrt q * s * sqrt p).
Proof.
  intros Hp Hq.
  pose proof (sqrt_lt_R0 p Hp). pose proof (sqrt_lt_R0 q Hq).
  rewrite <- (sqrt_sqrt p) at 1 by lra. rewrite <- (sqrt_sqrt q) at 2 by lra.
  field. split; lra.
Qed.

Lemma probsFromLogits_softmax (logits : list R) (i : nat) :
  (i < List.length logits)%nat ->
  nth i (probsFromLogits logits) 0 = exp (nth i logits 0) / sum (map exp logits).
Proof.
  intros Hi. unfold probsFromLogits.
  assert (Hne : logits <> []) by (destruct logits; [cbn in Hi; lia|discriminate]).
  rewrite (nth_map_in _ _ _ _ 0) by now rewrite length_map.
  rewrite (nth_map_in _ _ _ _ 0) by exact Hi.
  set (m := vmax logits).
  rewrite (sum_ext_in (fun x => exp (x - m)) (fun x => exp (- m) * exp x))
    by (intros x _; rewrite <- exp_plus; f_equal; ring).
  rewrite sum_scal.
  replace (nth i logits 0 - m) with (- m + nth i logits 0) by ring.
  rewrite exp_plus.
  pose proof (exp_pos (- m)).
  assert (0 < sum (map exp logits)) by (apply sum_positive; [exact Hne|apply exp_pos]).
  field. split; lra.
Qed.

(** X1: for a square matrix, [normalizeSubRate] returns a rate matrix of the
    same size: entries off the diagonal are the absolute values of the given
    ones, hence not negative, and every row sums to zero. *)
Theorem normalizeSubRate_yields_rate_matrix (subRate : matrix) :
  square subRate = true ->
  generator (List.length subRate) (normalizeSubRate subRate) /\
  forall i j, (i < List.length subRate)%nat -> (j < List.length subRate)%nat -> i <> j ->
    entry (normalizeSubRate subRate) i j = Rabs (entry subRate i j).
Proof.
  intros H. split; [now apply normalizeSubRate_generator|].
  intros i j Hi Hj Hne. rewrite normalizeSubRate_entries by exact H.
  rewrite entry_tabulate by assumption.
  rewrite (proj2 (Nat.eqb_neq i j)) by exact Hne. ring.
Qed.

Lemma normalizeSubRate_yields_rate_matrix_witness :
  generator 2 (normalizeSubRate [[1; -2]; [3; 4]]) /\
  forall i j, (i < 2)%nat -> (j < 2)%nat -> i <> j ->
    entry (normalizeSubRate [[1; -2]; [3; 4]]) i j = Rabs (entry [[1; -2]; [3; 4]] i j).
Proof. exact (normalizeSubRate_yields_rate_matrix [[1; -2]; [3; 4]] eq_refl). Defined.

(** X2: [normalizeSubRate] is idempotent on square matrices: normalizing a
    matrix that is already normalized changes nothing. *)
Theorem normalizeSubRate_idempotent (subRate : matrix) :
  square subRate = true ->
  normalizeSubRate (normalizeSubRate subRate) = normalizeSubRate subRate.
Proof.
  intros H.
  rewrite (normalizeSubRate_entries (normalizeSubRate subRate))
    by now apply normalizeSubRate_square.
  rewrite normalizeSubRate_length by exact H.
  rewrite (normalizeSubRate_entries subRate H).
  set (n := List.length subRate). set (a := fun i k => Rabs (entry subRate i k)).
  set (s := fun i => sum (map (a i) (seq 0 n))).
  set (g := fun i j => a i j - (if (i =? j)%nat then s i else 0)).
  change (tabulate n (fun i j => Rabs (entry (tabulate n g) i j) -
            (if (i =? j)%nat
             then sum (map (fun k => Rabs (entry (tabulate n g) i k)) (seq 0 n))
             else 0)) = tabulate n g).
  apply tabulate_ext. intros i j Hi Hj.
  assert (Ha : forall k, 0 <= a i k) by (intros k; apply Rabs_pos).
  assert (Hs : a i i <= s i) by (apply (term_le_sum (a i)); assumption).
  rewrite entry_tabulate by assumption.
  destruct (Nat.eqb_spec i j) as [<-|Hne].
  - rewrite (sum_ext_in _ (fun k => a i k - (if (i =? k)%nat then 2 * a i i - s i else 0))).
    + rewrite sum_minus_indicator by exact Hi. fold (s i).
      unfold g. rewrite Nat.eqb_refl. rewrite Rabs_left1 by lra. ring.
    + intros k Hk. apply in_seq in Hk. rewrite entry_tabulate by lia. unfold g.
      destruct (Nat.eqb_spec i k) as [<-|_].
      * rewrite Rabs_left1 by lra. ring.
      * rewrite !Rminus_0_r. apply Rabs_right, Rle_ge, Ha.
  - unfold g. destruct (Nat.eqb_spec i j); [contradiction|].
    rewrite !Rminus_0_r. apply Rabs_right, Rle_ge, Ha.
Qed.

Lemma normalizeSubRate_idempotent_witness :
  normalizeSubRate (normalizeSubRate [[1; -2]; [3; 4]]) = normalizeSubRate [[1; -2]; [3; 4]].
Proof. exact (normalizeSubRate_idempotent [[1; -2]; [3; 4]] eq_refl). Defined.

(** X3: for logits that are not empty, [probsFromLogits] returns a
    probability distribution of the same length: every entry is positive,
    the entries sum to one, and entry [i] is [exp x_i / sum_k exp x_k] (the
    shift by the maximum cancels). *)
Theorem probsFromLogits_is_distribution (logits : list R) :
  logits <> [] ->
  List.length (probsFromLogits logits) = List.length logits /\
  sum (probsFromLogits logits) = 1 /\
  forall i, (i < List.length logits)%nat ->
    0 < nth i (probsFromLogits logits) 0 /\
    nth i (probsFromLogits logits) 0 = exp (nth i logits 0) / sum (map exp logits).
Proof.
  intros Hne. split; [apply probsFromLogits_length|].
  split; [now apply probsFromLogits_sum|].
  intros i Hi. split; [now apply probsFromLogits_positive|now apply probsFromLogits_softmax].
Qed.

Lemma probsFromLogits_is_distribution_witness :
  List.length (probsFromLogits [0; 1]) = List.length [0; 1] /\
  sum (probsFromLogits [0; 1]) = 1 /\
  forall i, (i < List.length [0; 1])%nat ->
    0 < nth i (probsFromLogits [0; 1]) 0 /\
    nth i (probsFromLogits [0; 1]) 0 = exp (nth i [0; 1] 0) / sum (map exp [0; 1]).
Proof. apply (probsFromLogits_is_distribution [0; 1]). discriminate. Defined.

(** X4: for weights none of which is negative and whose sum is not zero,
    [normalizeRootProb] returns a probability distribution: entries between
    zero and one that sum to one, each the weight divided by the total. *)
Theorem normalizeRootProb_is_distribution (rootProb : list R) :
  Forall (Rle 0) rootProb -> sum rootProb <> 0 ->
  sum (normalizeRootProb rootProb) = 1 /\
  forall i, (i < List.length rootProb)%nat ->
    nth i (normalizeRootProb rootProb) 0 = nth i rootProb 0 / sum rootProb /\
    0 <= nth i (normalizeRootProb rootProb) 0 <= 1.
Proof.
  intros Hpos Hsum. unfold normalizeRootProb. split.
  - rewrite sum_divided. now apply Rdiv_diag.
  - intros i Hi. rewrite (nth_map_in _ _ _ _ 0) by exact Hi. split; [reflexivity|].
    rewrite Forall_forall in Hpos.
    assert (Hnth : forall k, 0 <= nth k rootProb 0).
    { intros k. destruct (Nat.lt_ge_cases k (List.length rootProb)) as [Hk|Hk].
      - apply Hpos, nth_In, Hk.
      - rewrite nth_overflow by exact Hk. lra. }
    pose proof (term_le_sum (fun k => nth k rootProb 0) i _ Hnth Hi) as Hle.
    rewrite <- (list_tabulated 0 rootProb) in Hle.
    assert (0 < sum rootProb) by (specialize (Hnth i); lra).
    split.
    + unfold Rdiv. apply Rmult_le_pos; [apply Hnth|].
      now apply Rlt_le, Rinv_0_lt_compat.
    + apply Rmult_le_reg_r with (sum rootProb); [assumption|].
      unfold Rdiv. rewrite Rmult_assoc, Rinv_l by lra. lra.
Qed.

Lemma normalizeRootProb_is_distribution_witness :
  sum (normalizeRootProb [1; 3]) = 1 /\
  forall i, (i < List.length [1; 3])%nat ->
    nth i (normalizeRootProb [1; 3]) 0 = nth i [1; 3] 0 / sum [1; 3] /\
    0 <= nth i (normalizeRootProb [1; 3]) 0 <= 1.
Proof.
  apply (normalizeRootProb_is_distribution [1; 3]).
  - repeat (apply Forall_cons; [lra|]). apply Forall_nil.
  - cbn. lra.
Defined.

(** X5: for a square matrix, [symmetrizeSubRate] returns a symmetric rate
    matrix of the same size. *)
Theorem symmetrizeSubRate_symmetric_rate_matrix (m : matrix) :
  square m = true ->
  generator (List.length m) (symmetrizeSubRate m) /\
  forall i j, (i < List.length m)%nat -> (j < List.length m)%nat ->
    entry (symmetrizeSubRate m) i j = entry (symmetrizeSubRate m) j i.
Proof.
  intros H. split; [now apply symmetrizeSubRate_generator|].
  intros i j Hi Hj. now apply symmetrizeSubRate_symmetric.
Qed.

Lemma symmetrizeSubRate_symmetric_rate_matrix_witness :
  generator 2 (symmetrizeSubRate [[1; -2]; [3; 4]]) /\
  forall i j, (i < 2)%nat -> (j < 2)%nat ->
    entry (symmetrizeSubRate [[1; -2]; [3; 4]]) i j =
    entry (symmetrizeSubRate [[1; -2]; [3; 4]]) j i.
Proof. exact (symmetrizeSubRate_symmetric_rate_matrix [[1; -2]; [3; 4]] eq_refl). Defined.

(** X6: detailed balance.  For a symmetric square matrix and positive root
    probabilities of the same size, the matrix [reversibleSubRate] returns
    satisfies [pi_i * R_ij = pi_j * R_ji]. *)
Theorem reversibleSubRate_detailed_balance
    (symSubRate : matrix) (rootProb : list R) (i j : nat) :
  square symSubRate = true ->
  List.length rootProb = List.length symSubRate ->
  (forall k l, (k < List.length symSubRate)%nat -> (l < List.length symSubRate)%nat ->
     entry symSubRate k l = entry symSubRate l k) ->
  (forall k, (k < List.length symSubRate)%nat -> 0 < nth k rootProb 0) ->
  (i < List.length symSubRate)%nat -> (j < List.length symSubRate)%nat ->
  nth i rootProb 0 * entry (reversibleSubRate symSubRate rootProb) i j =
  nth j rootProb 0 * entry (reversibleSubRate symSubRate rootProb) j i.
Proof.
  intros H Hlen Hsym Hpos Hi Hj.
  rewrite !reversibleSubRate_entries by assumption.
  rewrite (Hsym j i) by assumption.
  apply balance; now apply Hpos.
Qed.

Lemma reversibleSubRate_detailed_balance_witness :
  nth 0 [1 / 4; 3 / 4] 0 * entry (reversibleSubRate symmetricRate [1 / 4; 3 / 4]) 0 1 =
  nth 1 [1 / 4; 3 / 4] 0 * entry (reversibleSubRate symmetricRate [1 / 4; 3 / 4]) 1 0.
Proof.
  apply (reversibleSubRate_detailed_balance symmetricRate [1 / 4; 3 / 4] 0 1).
  - reflexivity.
  - reflexivity.
  - intros [|[|k]] [|[|l]] Hk Hl; cbn in Hk, Hl; try lia; reflexivity.
  - intros [|[|k]] Hk; cbn in Hk; try lia; cbn; lra.
  - cbn. lia.
  - cbn. lia.
Defined.

(** X7: for a square matrix and as many logits as it has rows,
    [parametricReversibleSubModel] returns root probabilities that are
    positive and rates in detailed balance with them,
    [pi_i * R_ij = pi_j * R_ji], none negative off the diagonal. *)
Theorem parametricReversibleSubModel_reversible
    (subRate : matrix) (rootLogits : list R) (i j : nat) :
  square subRate = true ->
  List.length rootLogits = List.length subRate ->
  (i < List.length subRate)%nat -> (j < List.length subRate)%nat ->
  let '(rate, rootProb) := parametricReversibleSubModel subRate rootLogits in
  sum rootProb = 1 /\
  0 < nth i rootProb 0 /\
  nth i rootProb 0 * entry rate i j = nth j rootProb 0 * entry rate j i /\
  (i <> j -> 0 <= entry rate i j).
Proof.
  intros H Hlen Hi Hj. unfold parametricReversibleSubModel.
  pose proof (symmetrizeSubRate_generator subRate H) as [Hl [_ [Hoff _]]].
  assert (Hsq : square (symmetrizeSubRate subRate) = true)
    by (apply normalizeSubRate_square; rewrite swapaxes_entries by exact H;
        rewrite (square_entries subRate H) at 1;
        rewrite map2_tabulate, map_tabulate; apply square_tabulate).
  assert (Hp : forall k, (k < List.length subRate)%nat ->
                         0 < nth k (probsFromLogits rootLogits) 0)
    by (intros k Hk; apply probsFromLogits_positive; lia).
  split; [|split; [|split]].
  - apply probsFromLogits_sum. destruct rootLogits; [cbn in Hlen; lia|discriminate].
  - now apply Hp.
  - rewrite !reversibleSubRate_entries
      by (try assumption; rewrite ?probsFromLogits_length, ?Hl; assumption).
    rewrite (symmetrizeSubRate_symmetric subRate j i) by assumption.
    apply balance; now apply Hp.
  - intros Hne.
    rewrite reversibleSubRate_entries
      by (try assumption; rewrite ?probsFromLogits_length, ?Hl; assumption).
    pose proof (sqrt_lt_R0 _ (Hp i Hi)). pose proof (sqrt_lt_R0 _ (Hp j Hj)).
    specialize (Hoff i j Hi Hj Hne).
    apply Rmult_le_pos; [apply Rmult_le_pos|]; try lra.
    apply Rlt_le, Rdiv_lt_0_compat; lra.
Qed.

Lemma parametricReversibleSubModel_reversible_witness :
  let '(rate, rootProb) := parametricReversibleSubModel [[1; -2]; [3; 4]] [0; 1] in
  sum rootProb = 1 /\
  0 < nth 0 rootProb 0 /\
  nth 0 rootProb 0 * entry rate 0 1 = nth 1 rootProb 0 * entry rate 1 0 /\
  (0%nat <> 1%nat -> 0 <= entry rate 0 1).
Proof.
  apply (parametricReversibleSubModel_reversible [[1; -2]; [3; 4]] [0; 1] 0 1).
  - reflexivity.
  - reflexivity.
  - cbn. lia.
  - cbn. lia.
Defined.

End SubModelFacts.

(** ** Branch matrices *)
Module ExpmFacts.
Import Numeric Likelihood LikelihoodFacts SubModelFacts.
Local Open Scope R_scope.

Local Notation "'matrix'" := (list (list R)).

(** *** The exponential series of a matrix converges *)
Lemma row_bounded (l : list R) : exists c, 0 <= c /\ forall j, Rabs (nth j l 0) <= c.
Proof.
  induction l as [|x l [c [Hc IH]]].
  - exists 0. split; [lra|]. intros [|j]; cbn; rewrite Rabs_R0; lra.
  - exists (Rmax (Rabs x) c). split.
    + apply Rle_trans with c; [exact Hc|apply Rmax_r].
    + intros [|j]; cbn [nth].
      * apply Rmax_l.
      * apply Rle_trans with c; [apply IH|apply Rmax_r].
Qed.

Lemma entries_bounded (m : matrix) :
  exists c, 0 <= c /\ forall i j, Rabs (entry m i j) <= c.
Proof.
  unfold entry. induction m as [|row m [c [Hc IH]]].
  - exists 0. split; [lra|]. intros [|i] [|j]; cbn; rewrite Rabs_R0; lra.
  - destruct (row_bounded row) as [c' [Hc' Hrow]].
    exists (Rmax c' c). split.
    + apply Rle_trans with c; [exact Hc|apply Rmax_r].
    + intros [|i] j; cbn [nth].
      * apply Rle_trans with c'; [apply Hrow|apply Rmax_l].
      * apply Rle_trans with c; [apply IH|apply Rmax_r].
Qed.

Lemma sum_le {T : Type} (f g : T -> R) (l : list T) :
  (forall x, f x <= g x) -> sum (map f l) <= sum (map g l).
Proof.
  intros H. induction l as [|x l IH]; cbn [map sum fold_right]; [lra|].
  fold (sum (map f l)) (sum (map g l)). specialize (H x). lra.
Qed.

Lemma sum_abs {T : Type} (f : T -> R) (l : list T) :
  Rabs (sum (map f l)) <= sum (map (fun x => Rabs (f x)) l).
Proof.
  induction l as [|x l IH]; cbn [map sum fold_right]; [rewrite Rabs_R0; lra|].
  fold (sum (map f l)) (sum (map (fun x => Rabs (f x)) l)).
  pose proof (Rabs_triang (f x) (sum (map f l))). lra.
Qed.

Lemma sum_constant {T : Type} (c : R) (l : list T) :
  sum (map (fun _ => c) l) = INR (List.length l) * c.
Proof.
  induction l as [|x l IH]; [cbn; ring|].
  cbn [map sum fold_right]. fold (sum (map (fun _ => c) l)).
  rewrite IH. change (List.length (x :: l)) with (S (List.length l)).
  rewrite S_INR. ring.
Qed.

Lemma entry_outside (m : matrix) (n i j : nat) :
  List.length m = n -> (forall i, (i < n)%nat -> List.length (nth i m []) = n) ->
  (n <= i)%nat \/ (n <= j)%nat -> entry m i j = 0.
Proof.
  intros Hm Hrows H. unfold entry.
  destruct (Nat.lt_ge_cases i n) as [Hi|Hi].
  - apply nth_overflow. rewrite Hrows by exact Hi. lia.
  - rewrite (nth_overflow m) by lia. now destruct j.
Qed.

Lemma mpow_bounded (n : nat) (m : matrix) (c : R) :
  0 <= c -> (forall i j, Rabs (entry m i j) <= c) ->
  forall k i j, Rabs (entry (mpow n m k) i j) <= (INR n * c) ^ k.
Proof.
  intros Hc Hm.
  assert (HC : 0 <= INR n * c) by (apply Rmult_le_pos; [apply pos_INR|exact Hc]).
  induction k as [|k IH]; intros i j.
  - cbn [mpow pow]. unfold eye.
    destruct (Nat.lt_ge_cases i n) as [Hi|Hi];
      [destruct (Nat.lt_ge_cases j n) as [Hj|Hj]|].
    + rewrite entry_tabulate by assumption.
      destruct (i =? j)%nat; [rewrite Rabs_R1|rewrite Rabs_R0]; lra.
    + rewrite entry_tabulate_outside by now right. rewrite Rabs_R0. lra.
    + rewrite entry_tabulate_outside by now left. rewrite Rabs_R0. lra.
  - cbn [mpow]. unfold mmul.
    destruct (Nat.lt_ge_cases i n) as [Hi|Hi];
      [destruct (Nat.lt_ge_cases j n) as [Hj|Hj]|].
    + rewrite entry_tabulate by assumption.
      eapply Rle_trans; [apply sum_abs|].
      eapply Rle_trans;
        [apply (sum_le _ (fun _ => c * (INR n * c) ^ k))|].
      * intros l. rewrite Rabs_mult.
        apply Rmult_le_compat; try apply Rabs_pos; [apply Hm|apply IH].
      * rewrite sum_constant, length_seq. cbn [pow]. lra.
    + rewrite entry_tabulate_outside by now right. rewrite Rabs_R0.
      now apply pow_le.
    + rewrite entry_tabulate_outside by now left. rewrite Rabs_R0.
      now apply pow_le.
Qed.

Lemma expm_converges (m : matrix) (i j : nat) :
  exists l, Un_cv (expm_partial m i j) l.
Proof.
  destruct (entries_bounded m) as [c [Hc Hm]].
  set (n := List.length m). set (C := INR n * c).
  set (a := fun k => entry (mpow n m k) i j / INR (fact k)).
  assert (Habs : {l | Un_cv (fun N => sum_f_R0 (fun k => Rabs (a k)) N) l}).
  { apply (Rseries_CV_comp _ (fun k => / INR (fact k) * C ^ k)).
    - intros k. split; [apply Rabs_pos|]. unfold a, Rdiv.
      rewrite Rabs_mult, Rmult_comm.
      rewrite (Rabs_right (/ INR (fact k)))
        by (apply Rle_ge, Rlt_le, Rinv_0_lt_compat, INR_fact_lt_0).
      apply Rmult_le_compat_l.
      + apply Rlt_le, Rinv_0_lt_compat, INR_fact_lt_0.
      + now apply mpow_bounded.
    - exists (exp C). apply exp_series. }
  destruct (cv_cauchy_2 a (cauchy_abs a (cv_cauchy_1 _ Habs))) as [l Hl].
  now exists l.
Qed.

Lemma limit_spec (u : nat -> R) : (exists l, Un_cv u l) -> Un_cv u (limit u).
Proof. intros H. unfold limit. now apply epsilon_spec. Qed.

Lemma expm_entry_limit (m : matrix) (i j : nat) :
  (i < List.length m)%nat -> (j < List.length m)%nat ->
  Un_cv (expm_partial m i j) (entry (expm m) i j).
Proof.
  intros Hi Hj. unfold expm. rewrite entry_tabulate by assumption.
  apply limit_spec, expm_converges.
Qed.

(** *** Row sums *)
Lemma sum_swap {A B : Type} (f : A -> B -> R) (la : list A) (lb : list B) :
  sum (map (fun a => sum (map (fun b => f a b) lb)) la) =
  sum (map (fun b => sum (map (fun a => f a b) la)) lb).
Proof.
  induction la as [|a la IH]; cbn [map sum fold_right].
  - symmetry. now apply sum_zeros.
  - fold (sum (map (fun a => sum (map (fun b => f a b) lb)) la)).
    rewrite IH, <- sum_plus. reflexivity.
Qed.

Lemma row_sum_entries (m : matrix) (n i : nat) :
  List.length (nth i m []) = n ->
  sum (map (entry m i) (seq 0 n)) = sum (nth i m []).
Proof.
  intros H. unfold entry. rewrite <- H.
  now rewrite <- (list_tabulated 0 (nth i m [])).
Qed.

(** The rows of the powers of a matrix whose rows sum to zero: they sum to
    one for the power zero, to zero for the others. *)
Lemma mpow_row_sum (n : nat) (m : matrix) :
  (forall i, (i < n)%nat -> sum (map (entry m i) (seq 0 n)) = 0) ->
  forall k i, (i < n)%nat ->
  sum (map (entry (mpow n m k) i) (seq 0 n)) = match k with O => 1 | S _ => 0 end.
Proof.
  intros Hm. induction k as [|k IH]; intros i Hi.
  - cbn [mpow]. unfold eye.
    rewrite (sum_ext_in _ (fun j => if (i =? j)%nat then 1 else 0)).
    + apply sum_indicator. lia.
    + intros j Hj. apply in_seq in Hj. rewrite entry_tabulate by lia. reflexivity.
  - cbn [mpow]. unfold mmul.
    rewrite (sum_ext_in _
               (fun j => sum (map (fun l => entry m i l * entry (mpow n m k) l j)
                                  (seq 0 n))))
      by (intros j Hj; apply in_seq in Hj; rewrite entry_tabulate by lia; reflexivity).
    rewrite (sum_swap (fun j l => entry m i l * entry (mpow n m k) l j)).
    rewrite (sum_ext_in _
               (fun l => entry m i l * match k with O => 1 | S _ => 0 end)).
    + rewrite (sum_ext_in _ (fun l => match k with O => 1 | S _ => 0 end * entry m i l))
        by (intros; ring).
      rewrite sum_scal, Hm by exact Hi. ring.
    + intros l Hl. apply in_seq in Hl.
      rewrite sum_scal. f_equal. apply IH. lia.
Qed.

Lemma expm_partial_row_sum (m : matrix) :
  (forall i, (i < List.length m)%nat ->
     sum (map (entry m i) (seq 0 (List.length m))) = 0) ->
  forall N i, (i < List.length m)%nat ->
  sum (map (fun j => expm_partial m i j N) (seq 0 (List.length m))) = 1.
Proof.
  intros Hm N i Hi. unfold expm_partial.
  induction N as [|N IH]; cbn [sum_f_R0].
  - rewrite (sum_ext_in _ (fun j => / INR (fact 0) * entry (mpow (List.length m) m 0) i j))
      by (intros; unfold Rdiv; ring).
    rewrite sum_scal, (mpow_row_sum _ m Hm 0 i Hi). cbn. field.
  - rewrite sum_plus, IH.
    rewrite (sum_ext_in _ (fun j => / INR (fact (S N)) *
                                    entry (mpow (List.length m) m (S N)) i j))
      by (intros; unfold Rdiv; ring).
    rewrite sum_scal, (mpow_row_sum _ m Hm (S N) i Hi). ring.
Qed.

Lemma Un_cv_sum {T : Type} (u : T -> nat -> R) (l : T -> R) (js : list T) :
  (forall j, In j js -> Un_cv (u j) (l j)) ->
  Un_cv (fun N => sum (map (fun j => u j N) js)) (sum (map l js)).
Proof.
  induction js as [|j js IH]; intros H; cbn [map sum fold_right].
  - intros eps Heps. exists 0%nat. intros n _.
    unfold Rdist. now rewrite Rminus_diag, Rabs_R0.
  - apply (CV_plus (u j) (fun N => sum (map (fun j => u j N) js))).
    + apply H. now left.
    + apply IH. intros k Hk. apply H. now right.
Qed.

Lemma expm_row_sum (m : matrix) (i : nat) :
  (forall i, (i < List.length m)%nat ->
     sum (map (entry m i) (seq 0 (List.length m))) = 0) ->
  (i < List.length m)%nat ->
  sum (nth i (expm m) []) = 1.
Proof.
  intros Hm Hi. unfold expm at 1. rewrite row_tabulate by exact Hi.
  apply (UL_sequence (fun N => sum (map (fun j => expm_partial m i j N)
                                        (seq 0 (List.length m))))).
  - apply (Un_cv_sum (fun j => expm_partial m i j)).
    intros j Hj. apply limit_spec, expm_converges.
  - intros eps Heps. exists 0%nat. intros n _.
    rewrite expm_partial_row_sum by assumption.
    unfold Rdist. now rewrite Rminus_diag, Rabs_R0.
Qed.

Lemma scaled_rows_sum (subRate : matrix) (d : R) (i : nat) :
  square subRate = true ->
  (forall i, (i < List.length subRate)%nat -> sum (nth i subRate []) = 0) ->
  (i < List.length subRate)%nat ->
  sum (map (entry (map (map (fun q => q * d)) subRate) i) (seq 0 (List.length subRate))) = 0.
Proof.
  intros H Hrows Hi.
  rewrite (sum_ext_in _ (fun j => d * entry subRate i j)).
  - rewrite sum_scal, row_sum_entries by now apply square_rows.
    rewrite Hrows by exact Hi. ring.
  - intros j Hj. apply in_seq in Hj. unfold entry.
    rewrite (nth_map_in _ _ _ _ []) by exact Hi.
    rewrite (nth_map_in _ _ _ _ 0) by (rewrite square_rows by assumption; lia).
    ring.
Qed.

(** X8: for a square rate matrix whose rows sum to zero,
    [computeSubMatrixForBranchLengths] returns one matrix per branch length,
    each of the size of the rate matrix and with every row summing to one,
    whatever the branch length. *)
Theorem branch_matrix_rows_sum_to_one
    (distanceToParent : list R) (subRate : matrix) :
  square subRate = true ->
  (forall i, (i < List.length subRate)%nat -> sum (nth i subRate []) = 0) ->
  exists subMatrix,
    computeSubMatrixForBranchLengths distanceToParent subRate = Some subMatrix /\
    List.length subMatrix = List.length distanceToParent /\
    forall r, (r < List.length distanceToParent)%nat ->
      List.length (nth r subMatrix []) = List.length subRate /\
      forall i, (i < List.length subRate)%nat ->
        List.length (nth i (nth r subMatrix []) []) = List.length subRate /\
        sum (nth i (nth r subMatrix []) []) = 1.
Proof.
  intros H Hrows. unfold computeSubMatrixForBranchLengths. rewrite H.
  eexists. split; [reflexivity|]. split; [apply length_map|].
  intros r Hr. rewrite (nth_map_in _ _ _ _ 0) by exact Hr.
  set (m := map (map (fun q => q * nth r distanceToParent 0)) subRate).
  assert (Hlen : List.length m = List.length subRate) by apply length_map.
  split; [unfold expm; now rewrite length_tabulate|].
  intros i Hi. split.
  - unfold expm. rewrite row_tabulate by (rewrite Hlen; exact Hi).
    now rewrite length_map, length_seq.
  - apply expm_row_sum; rewrite Hlen; [|exact Hi].
    intros k Hk. now apply scaled_rows_sum.
Qed.

Lemma branch_matrix_rows_sum_to_one_witness :
  exists subMatrix,
    computeSubMatrixForBranchLengths [0; 1 / 2] symmetricRate = Some subMatrix /\
    List.length subMatrix = List.length [0; 1 / 2] /\
    forall r, (r < List.length [0; 1 / 2])%nat ->
      List.length (nth r subMatrix []) = List.length symmetricRate /\
      forall i, (i < List.length symmetricRate)%nat ->
        List.length (nth i (nth r subMatrix []) []) = List.length symmetricRate /\
        sum (nth i (nth r subMatrix []) []) = 1.
Proof.
  apply (branch_matrix_rows_sum_to_one [0; 1 / 2] symmetricRate).
  - reflexivity.
  - intros [|[|i]] Hi; cbn in Hi; try lia; cbn; ring.
Defined.

End ExpmFacts.

(** ** Columns *)
Module ColumnFacts.
Import Numeric Likelihood LikelihoodFacts SubModelFacts ExpmFacts.
Local Open Scope R_scope.

Local Notation "'matrix'" := (list (list R)).

(** *** Columns of gaps *)
Lemma length_map2 {A B C : Type} (f : A -> B -> C) (l : list A) (l' : list B) :
  List.length (map2 f l l') = Nat.min (List.length l) (List.length l').
Proof.
  revert l'. induction l as [|a l IH]; intros [|b l']; cbn; try reflexivity.
  now rewrite IH.
Qed.

Lemma nth_map2 {A B C : Type} (f : A -> B -> C) (l : list A) (l' : list B)
    (i : nat) (d : C) (d1 : A) (d2 : B) :
  (i < List.length l)%nat -> (i < List.length l')%nat ->
  nth i (map2 f l l') d = f (nth i l d1) (nth i l' d2).
Proof.
  revert l' i. induction l as [|a l IH]; intros [|b l'] [|i] H H'; cbn in *; try lia.
  - reflexivity.
  - apply IH; lia.
Qed.

Lemma jget_all {T : Type} (P : T -> Prop) (d : T) (l : list T) (i : Z) :
  Forall P l -> (l = [] -> P d) -> P (jget d l i).
Proof.
  intros H Hd. unfold jget.
  set (j := Z.to_nat _). destruct l as [|x l]; [destruct j; now apply Hd|].
  rewrite Forall_forall in H. apply H, nth_In.
  subst j. cbn [List.length] in *. unfold normalize_index. cbn [List.length].
  destruct (i <? 0)%Z; lia.
Qed.

Lemma alter_all {T : Type} (P : T -> Prop) (f : T -> T) (l : list T) (i : nat) :
  (forall x, P x -> P (f x)) -> Forall P l -> Forall P (alter f l i).
Proof.
  intros Hf. revert i. induction l as [|x l IH]; intros [|i] H; cbn; try assumption.
  - inversion H; subst. constructor; [now apply Hf|assumption].
  - inversion H; subst. constructor; [assumption|now apply IH].
Qed.

Lemma jupdate_all {T : Type} (P : T -> Prop) (f : T -> T) (l : list T) (i : Z) :
  (forall x, P x -> P (f x)) -> Forall P l -> Forall P (jupdate f l i).
Proof.
  intros Hf H. unfold jupdate.
  destruct (_ && _); [now apply alter_all|assumption].
Qed.

Lemma length_jupdate {T : Type} (f : T -> T) (l : list T) (i : Z) :
  List.length (jupdate f l i) = List.length l.
Proof. unfold jupdate. destruct (_ && _); [apply length_alter|reflexivity]. Qed.

Lemma dot_ones (row : list R) : dot row (repeat 1 (List.length row)) = sum row.
Proof.
  unfold dot. induction row as [|x row IH]; [reflexivity|].
  cbn [List.length repeat map2 sum fold_right].
  fold (sum (map2 Rmult row (repeat 1 (List.length row)))) (sum row).
  rewrite IH. ring.
Qed.

Lemma ones_dot (v : list R) : dot (repeat 1 (List.length v)) v = sum v.
Proof.
  unfold dot. induction v as [|x v IH]; [reflexivity|].
  cbn [List.length repeat map2 sum fold_right].
  fold (sum (map2 Rmult (repeat 1 (List.length v)) v)) (sum v).
  rewrite IH. ring.
Qed.

(** A matrix of [n] rows and columns each of whose rows sums to one *)
Lemma matvec_ones (n : nat) (m : matrix) :
  List.length m = n -> square m = true ->
  (forall i, (i < n)%nat -> sum (nth i m []) = 1) ->
  matvec m (repeat 1 n) = repeat 1 n.
Proof.
  intros Hlen Hsq Hsum. unfold matvec.
  rewrite (map_constant _ 1); [now rewrite Hlen|].
  intros row Hrow. destruct (In_nth _ _ [] Hrow) as [i [Hi <-]].
  rewrite <- Hlen, <- (square_rows m i Hsq Hi), dot_ones.
  apply Hsum. lia.
Qed.

Section Column.
Variable parentIndex : list Z.
Variable subMatrix : list matrix.
Variables A C R0 c : nat.
(** [gaps] holds when column [c] holds gaps only and the model is
    stochastic; the shape part of the invariant does not depend on it. *)
Variable gaps : Prop.
Hypothesis rows : R0 = 0%nat -> C = 0%nat.
Hypothesis column : gaps -> (c < C)%nat.
Hypothesis letters : gaps -> (1 <= A)%nat.
Hypothesis matrices : gaps -> subMatrix <> [].
Hypothesis stochastic :
  gaps -> forall m, In m subMatrix -> matvec m (repeat 1 A) = repeat 1 A.

Lemma row_kept_default (L : list (list (list R))) :
  List.length L = R0 -> L = [] -> row_kept A C c gaps [].
Proof.
  intros HL ->. cbn in HL. split; [symmetry; apply rows; now symmetry|].
  intros g. pose proof (column g). rewrite rows in H by now symmetry. lia.
Qed.

Lemma pruneStep_kept (state : pruning) (child : nat) :
  kept A C R0 c gaps state ->
  kept A C R0 c gaps (pruneStep parentIndex subMatrix state child).
Proof.
  destruct state as [L N]. intros [HL [Hrows [HN Hc]]]. cbn [fst snd] in *.
  unfold pruneStep.
  set (parent := jget 0%Z parentIndex (Z.of_nat child)).
  set (P := jget [] subMatrix (Z.of_nat child)).
  set (message := map (matvec P) (jget [] L (Z.of_nat child))).
  assert (Hmsg : List.length message = C /\ (gaps -> nth c message [] = repeat 1 A)).
  { assert (Hchild : row_kept A C c gaps (jget [] L (Z.of_nat child)))
      by (apply jget_all; [exact Hrows|now apply row_kept_default]).
    destruct Hchild as [Hlen Hgap]. unfold message. split; [now rewrite length_map|].
    intros g. rewrite (nth_map_in _ _ _ _ []) by (rewrite Hlen; now apply column).
    rewrite Hgap by exact g. apply stochastic; [exact g|].
    unfold P. apply (jget_all (fun m => In m subMatrix)).
    - apply Forall_forall. auto.
    - intros E. now apply matrices in E. }
  destruct Hmsg as [Hmlen Hmgap].
  set (L1 := jupdate (fun row => map2 (map2 Rmult) row message) L parent).
  assert (H1 : Forall (row_kept A C c gaps) L1).
  { apply jupdate_all; [|exact Hrows]. intros row [Hlen Hgap]. split.
    - rewrite length_map2. lia.
    - intros g. pose proof (column g).
      rewrite (nth_map2 _ _ _ _ _ [] []) by lia.
      rewrite Hgap, Hmgap by exact g. rewrite map2_repeat. f_equal. ring. }
  assert (HL1 : List.length L1 = R0) by (unfold L1; now rewrite length_jupdate).
  set (maxLike := map vmax (jget [] L1 parent)).
  assert (Hmax : List.length maxLike = C /\ (gaps -> nth c maxLike 0 = 1)).
  { assert (Hp : row_kept A C c gaps (jget [] L1 parent))
      by (apply jget_all; [exact H1|now apply row_kept_default]).
    destruct Hp as [Hlen Hgap]. unfold maxLike. split; [now rewrite length_map|].
    intros g. rewrite (nth_map_in _ _ _ _ []) by (rewrite Hlen; now apply column).
    rewrite Hgap by exact g. apply vmax_ones. now apply letters. }
  destruct Hmax as [Hxlen Hxgap].
  unfold kept. cbn [fst snd]. repeat split.
  - now rewrite length_jupdate.
  - apply jupdate_all; [|exact H1]. intros row [Hlen Hgap]. split.
    + rewrite length_map2. lia.
    + intros g. pose proof (column g).
      rewrite (nth_map2 _ _ _ _ _ [] 0) by lia.
      rewrite Hgap, Hxgap by exact g. rewrite map_repeat'. f_equal. field.
  - rewrite length_map2, length_map. lia.
  - intros g. pose proof (column g).
    rewrite (nth_map2 _ _ _ _ _ 0 0) by (rewrite ?length_map; lia).
    rewrite (nth_map_in _ _ _ _ 0) by lia.
    rewrite Hc, Hxgap by exact g. rewrite ln_1. ring.
Qed.

Lemma fold_kept (children : list nat) (state : pruning) :
  kept A C R0 c gaps state ->
  kept A C R0 c gaps (fold_left (pruneStep parentIndex subMatrix) children state).
Proof.
  revert state. induction children as [|child rest IH]; intros state H; [exact H|].
  cbn [fold_left]. apply IH. now apply pruneStep_kept.
Qed.

Lemma rootLogLike_kept (rootProb : list R) (state : pruning) :
  List.length rootProb = A -> (gaps -> sum rootProb = 1) -> kept A C R0 c gaps state ->
  List.length (rootLogLike rootProb state) = C /\
  (gaps -> nth c (rootLogLike rootProb state) 0 = 0).
Proof.
  intros Hlen Hsum [HL [Hrows [HN Hc]]]. unfold rootLogLike.
  assert (Hroot : row_kept A C c gaps (jget [] (fst state) 0%Z))
    by (apply jget_all; [exact Hrows|now apply row_kept_default]).
  destruct Hroot as [Hrlen Hgap]. split.
  - rewrite length_map2, length_map. lia.
  - intros g. pose proof (column g).
    rewrite (nth_map2 _ _ _ _ _ 0 0) by (rewrite ?length_map; lia).
    rewrite (nth_map_in _ _ _ _ []) by lia.
    rewrite Hc, Hgap by exact g. rewrite <- Hlen, ones_dot, Hsum by exact g.
    rewrite ln_1. ring.
Qed.

End Column.

Lemma initial_kept (alignment : list (list Z)) (A c : nat) (gaps : Prop) :
  Forall (fun row => List.length row = List.length (hd [] alignment)) alignment ->
  (gaps -> Forall (fun row => nth c row 0%Z = (-1)%Z) alignment) ->
  (gaps -> (c < List.length (hd [] alignment))%nat) ->
  kept A (List.length (hd [] alignment)) (List.length alignment) c gaps
       (initialLikelihood A alignment, repeat 0 (List.length (hd [] alignment))).
Proof.
  intros Hrect Hgap Hc. unfold kept. cbn [fst snd]. split; [|split; [|split]].
  - unfold initialLikelihood. apply length_map.
  - unfold initialLikelihood. apply Forall_forall. intros row Hrow.
    apply in_map_iff in Hrow. destruct Hrow as [toks [<- Htoks]].
    rewrite Forall_forall in Hrect. split.
    + rewrite length_map. now apply Hrect.
    + intros g. rewrite (nth_map_in _ _ _ _ 0%Z) by (rewrite Hrect by exact Htoks; auto).
      specialize (Hgap g). rewrite Forall_forall in Hgap.
      rewrite Hgap by exact Htoks. apply gap_vector.
  - apply repeat_length.
  - intros g. apply nth_repeat.
Qed.

(** With consistent shapes and a rectangular alignment
    [subLogLikeForMatrices] returns one value per column, and the value of
    a column of gaps is zero when [gaps] holds. *)
Lemma pruned_column
    (alignment : list (list Z)) (parentIndex : list Z) (subMatrix : list matrix)
    (rootProb : list R) (c : nat) (gaps : Prop) :
  shapes_agree parentIndex subMatrix rootProb ->
  Forall (fun row => List.length row = List.length (hd [] alignment)) alignment ->
  (gaps -> Forall (fun row => nth c row 0%Z = (-1)%Z) alignment) ->
  (gaps -> (c < List.length (hd [] alignment))%nat) ->
  (gaps -> forall m i, In m subMatrix -> (i < List.length (hd [] subMatrix))%nat ->
           sum (nth i m []) = 1) ->
  (gaps -> sum rootProb = 1) ->
  exists ll,
    subLogLikeForMatrices alignment parentIndex subMatrix rootProb = Some ll /\
    List.length ll = List.length (hd [] alignment) /\
    (gaps -> nth c ll 0 = 0).
Proof.
  intros Hshape Hrect Hgap Hc Hstoch Hsum.
  rewrite subLogLikeForMatrices_checked by exact Hshape.
  eexists. split; [reflexivity|].
  destruct Hshape as [Hp [Hr Hm]].
  assert (HA : gaps -> (1 <= List.length (hd [] subMatrix))%nat).
  { intros g. specialize (Hsum g). rewrite <- Hr.
    destruct rootProb; [cbn in Hsum; lra|cbn; lia]. }
  apply (rootLogLike_kept (List.length (hd [] subMatrix))
           (List.length (hd [] alignment)) (List.length alignment) c gaps).
  - intros E. apply length_zero_iff_nil in E. now rewrite E.
  - exact Hc.
  - exact HA.
  - exact Hr.
  - exact Hsum.
  - unfold pruned. apply (fold_kept parentIndex subMatrix).
    + intros E. apply length_zero_iff_nil in E. now rewrite E.
    + exact Hc.
    + exact HA.
    + intros g E. specialize (HA g). rewrite E in HA. cbn in HA. lia.
    + intros g m Hin. rewrite Forall_forall in Hm. destruct (Hm m Hin) as [Hlen Hsq].
      apply matvec_ones; [exact Hlen|exact Hsq|]. intros i Hi. now apply Hstoch.
    + now apply initial_kept.
Qed.

(** X9: with consistent shapes and a rectangular alignment,
    [subLogLikeForMatrices] returns one log-likelihood per alignment
    column, whatever the tokens and the parent indices are. *)
Theorem subLogLikeForMatrices_one_value_per_column
    (alignment : list (list Z)) (parentIndex : list Z) (subMatrix : list matrix)
    (rootProb : list R) :
  shapes_agree parentIndex subMatrix rootProb ->
  Forall (fun row => List.length row = List.length (hd [] alignment)) alignment ->
  exists ll,
    subLogLikeForMatrices alignment parentIndex subMatrix rootProb = Some ll /\
    List.length ll = List.length (hd [] alignment).
Proof.
  intros Hshape Hrect.
  destruct (pruned_column alignment parentIndex subMatrix rootProb 0 False Hshape Hrect)
    as [ll [E [Hlen _]]]; try contradiction.
  now exists ll.
Qed.

Lemma subLogLikeForMatrices_one_value_per_column_witness :
  exists ll,
    subLogLikeForMatrices [[0; 1; -1]; [1; 1; -1]]%Z [-1; 0]%Z [eye 2; eye 2] [1 / 2; 1 / 2]
      = Some ll /\
    List.length ll = List.length (hd [] [[0; 1; -1]; [1; 1; -1]]%Z).
Proof.
  apply (subLogLikeForMatrices_one_value_per_column
           [[0; 1; -1]; [1; 1; -1]]%Z [-1; 0]%Z [eye 2; eye 2] [1 / 2; 1 / 2]).
  - repeat split. repeat (apply Forall_cons; [split; reflexivity|]). apply Forall_nil.
  - repeat (apply Forall_cons; [reflexivity|]). apply Forall_nil.
Defined.

(** X10: a column that holds gaps only has log-likelihood zero (likelihood
    one), for every tree, when the rows of each branch matrix and the root
    probabilities sum to one. *)
Theorem gap_column_log_likelihood_is_zero
    (alignment : list (list Z)) (parentIndex : list Z) (subMatrix : list matrix)
    (rootProb : list R) (c : nat) :
  shapes_agree parentIndex subMatrix rootProb ->
  Forall (fun row => List.length row = List.length (hd [] alignment)) alignment ->
  (c < List.length (hd [] alignment))%nat ->
  Forall (fun row => nth c row 0%Z = (-1)%Z) alignment ->
  (forall m i, In m subMatrix -> (i < List.length (hd [] subMatrix))%nat ->
     sum (nth i m []) = 1) ->
  sum rootProb = 1 ->
  exists ll,
    subLogLikeForMatrices alignment parentIndex subMatrix rootProb = Some ll /\
    nth c ll 0 = 0.
Proof.
  intros Hshape Hrect Hc Hgap Hstoch Hsum.
  destruct (pruned_column alignment parentIndex subMatrix rootProb c True Hshape Hrect)
    as [ll [E [_ Hzero]]]; auto.
  exists ll. split; [exact E|]. now apply Hzero.
Qed.

Lemma gap_column_log_likelihood_is_zero_witness :
  exists ll,
    subLogLikeForMatrices [[0; 1; -1]; [1; 1; -1]]%Z [-1; 0]%Z [eye 2; eye 2] [1 / 2; 1 / 2]
      = Some ll /\
    nth 2 ll 0 = 0.
Proof.
  apply (gap_column_log_likelihood_is_zero
           [[0; 1; -1]; [1; 1; -1]]%Z [-1; 0]%Z [eye 2; eye 2] [1 / 2; 1 / 2] 2).
  - repeat split. repeat (apply Forall_cons; [split; reflexivity|]). apply Forall_nil.
  - repeat (apply Forall_cons; [reflexivity|]). apply Forall_nil.
  - cbn. lia.
  - repeat (apply Forall_cons; [reflexivity|]). apply Forall_nil.
  - intros m [|[|i]] Hin Hi; cbn in Hi; try lia;
      destruct Hin as [<-|[<-|[]]]; cbn; ring.
  - cbn. lra.
Defined.

(** X11: [subLogLike] gives log-likelihood zero to a column that holds gaps
    only, for every tree and all branch lengths, when the rows of the square
    rate matrix sum to zero and the root probabilities sum to one. *)
Theorem subLogLike_gap_column
    (alignment : list (list Z)) (distanceToParent : list R) (parentIndex : list Z)
    (subRate : matrix) (rootProb : list R) (c : nat) :
  square subRate = true ->
  (forall i, (i < List.length subRate)%nat -> sum (nth i subRate []) = 0) ->
  List.length parentIndex = List.length distanceToParent ->
  List.length rootProb = List.length subRate ->
  sum rootProb = 1 ->
  distanceToParent <> [] ->
  Forall (fun row => List.length row = List.length (hd [] alignment)) alignment ->
  (c < List.length (hd [] alignment))%nat ->
  Forall (fun row => nth c row 0%Z = (-1)%Z) alignment ->
  exists ll,
    subLogLike alignment distanceToParent parentIndex subRate rootProb = Some ll /\
    List.length ll = List.length (hd [] alignment) /\
    nth c ll 0 = 0.
Proof.
  intros Hsq Hzero Hp Hr Hsum Hne Hrect Hc Hgap.
  unfold subLogLike, computeSubMatrixForBranchLengths. rewrite Hsq.
  set (subMatrix := map _ distanceToParent).
  assert (Hshape : shapes_agree parentIndex subMatrix rootProb).
  { unfold shapes_agree, subMatrix. rewrite hd_branch_matrices by exact Hne.
    rewrite length_map. repeat split; try assumption. apply branch_matrices_shape. }
  destruct (pruned_column alignment parentIndex subMatrix rootProb c True Hshape Hrect)
    as [ll [E [Hlen Hz]]]; auto.
  - intros _ m i Hin Hi. unfold subMatrix in Hin, Hi.
    rewrite hd_branch_matrices in Hi by exact Hne.
    apply in_map_iff in Hin. destruct Hin as [d [<- _]].
    apply expm_row_sum; rewrite length_map; [|exact Hi].
    intros k Hk. now apply scaled_rows_sum.
  - exists ll. split; [exact E|]. split; [exact Hlen|]. now apply Hz.
Qed.

Lemma subLogLike_gap_column_witness :
  exists ll,
    subLogLike [[0; -1]; [1; -1]]%Z [0; 1 / 2] [-1; 0]%Z symmetricRate [1 / 2; 1 / 2]
      = Some ll /\
    List.length ll = List.length (hd [] [[0; -1]; [1; -1]]%Z) /\
    nth 1 ll 0 = 0.
Proof.
  apply (subLogLike_gap_column
           [[0; -1]; [1; -1]]%Z [0; 1 / 2] [-1; 0]%Z symmetricRate [1 / 2; 1 / 2] 1).
  - reflexivity.
  - intros [|[|i]] Hi; cbn in Hi; try lia; cbn; ring.
  - reflexivity.
  - reflexivity.
  - cbn. lra.
  - discriminate.
  - repeat (apply Forall_cons; [reflexivity|]). apply Forall_nil.
  - cbn. lia.
  - repeat (apply Forall_cons; [reflexivity|]). apply Forall_nil.
Defined.

End ColumnFacts.

(** ** Columns are pruned independently *)
Module IndependenceFacts.
Import Numeric Likelihood LikelihoodFacts SubModelFacts ColumnFacts.
Local Open Scope R_scope.

Local Notation "'matrix'" := (list (list R)).

Lemma jget_map {T U : Type} (g : T -> U) (d : T) (l : list T) (i : Z) :
  jget (g d) (map g l) i = g (jget d l i).
Proof. unfold jget. rewrite length_map. apply map_nth. Qed.

Lemma alter_map {T U : Type} (P : T -> Prop) (g : T -> U) (f : T -> T) (f' : U -> U)
    (l : list T) (k : nat) :
  (forall x, P x -> g (f x) = f' (g x)) -> Forall P l ->
  map g (alter f l k) = alter f' (map g l) k.
Proof.
  intros H. revert k. induction l as [|x l IH]; intros [|k] Hl; try reflexivity.
  - inversion Hl; subst. cbn. now rewrite H.
  - inversion Hl; subst. cbn. now rewrite IH.
Qed.

Lemma jupdate_map {T U : Type} (P : T -> Prop) (g : T -> U) (f : T -> T) (f' : U -> U)
    (l : list T) (i : Z) :
  (forall x, P x -> g (f x) = f' (g x)) -> Forall P l ->
  map g (jupdate f l i) = jupdate f' (map g l) i.
Proof.
  intros H Hl. unfold jupdate. rewrite length_map.
  destruct (_ && _); [now apply (alter_map P)|reflexivity].
Qed.

Lemma jget_default {T : Type} (d d' : T) (l : list T) (i : Z) :
  l <> [] -> jget d l i = jget d' l i.
Proof.
  intros Hne. unfold jget. apply nth_indep.
  destruct l as [|x l]; [contradiction|]. cbn [List.length].
  unfold normalize_index. cbn [List.length]. destruct (i <? 0)%Z; lia.
Qed.

Lemma pruneStep_rectangular (parentIndex : list Z) (subMatrix : list matrix)
    (C : nat) (state : pruning) (child : nat) :
  rectangular C state -> rectangular C (pruneStep parentIndex subMatrix state child).
Proof.
  destruct state as [L N]. intros [Hne [Hrows HN]]. cbn [fst snd] in *.
  unfold pruneStep.
  set (parent := jget 0%Z parentIndex (Z.of_nat child)).
  set (message := map _ (jget [] L (Z.of_nat child))).
  assert (Hmsg : List.length message = C).
  { unfold message. rewrite length_map.
    apply (jget_all (fun row : list (list R) => List.length row = C));
      [exact Hrows|contradiction]. }
  set (L1 := jupdate _ L parent).
  assert (H1 : Forall (fun row : list (list R) => List.length row = C) L1).
  { apply jupdate_all; [|exact Hrows]. intros row Hrow.
    rewrite length_map2. lia. }
  assert (Hne1 : L1 <> []).
  { intros E. apply (f_equal (@List.length _)) in E. unfold L1 in E.
    rewrite length_jupdate in E. destruct L; [contradiction|discriminate]. }
  set (maxLike := map vmax (jget [] L1 parent)).
  assert (Hmax : List.length maxLike = C).
  { unfold maxLike. rewrite length_map.
    apply (jget_all (fun row : list (list R) => List.length row = C));
      [exact H1|contradiction]. }
  unfold rectangular. cbn [fst snd]. split; [|split].
  - intros E. apply (f_equal (@List.length _)) in E.
    rewrite length_jupdate in E. destruct L1; [contradiction|discriminate].
  - apply jupdate_all; [|exact H1]. intros row Hrow.
    rewrite length_map2. lia.
  - rewrite length_map2, length_map. lia.
Qed.

Lemma pruneStep_column (parentIndex : list Z) (subMatrix : list matrix)
    (C c : nat) (state : pruning) (child : nat) :
  (c < C)%nat -> rectangular C state ->
  column_of c (pruneStep parentIndex subMatrix state child) =
  columnStep parentIndex subMatrix (column_of c state) child.
Proof.
  intros Hc. destruct state as [L N]. intros [Hne [Hrows HN]]. cbn [fst snd] in *.
  unfold pruneStep, columnStep, column_of. cbn [fst snd].
  set (g := fun row : list (list R) => nth c row []).
  set (parent := jget 0%Z parentIndex (Z.of_nat child)).
  set (P := jget [] subMatrix (Z.of_nat child)).
  set (message := map (matvec P) (jget [] L (Z.of_nat child))).
  assert (Hgne : forall l : list (list (list R)), l <> [] -> map g l <> []).
  { intros l H E. apply map_eq_nil in E. contradiction. }
  assert (Hjget : forall (l : list (list (list R))) i,
            l <> [] -> jget [] (map g l) i = g (jget [] l i)).
  { intros l i H. rewrite (jget_default [] (g [])) by now apply Hgne.
    apply jget_map. }
  assert (Hchild : List.length (jget [] L (Z.of_nat child)) = C).
  { apply (jget_all (fun row : list (list R) => List.length row = C));
      [exact Hrows|contradiction]. }
  assert (Hmsg : List.length message = C)
    by (unfold message; now rewrite length_map).
  assert (Emsg : nth c message [] = matvec P (jget [] (map g L) (Z.of_nat child))).
  { unfold message. rewrite (nth_map_in _ _ _ _ []) by lia.
    now rewrite Hjget. }
  set (L1 := jupdate (fun row => map2 (map2 Rmult) row message) L parent).
  assert (H1 : Forall (fun row : list (list R) => List.length row = C) L1).
  { apply jupdate_all; [|exact Hrows]. intros row Hrow.
    rewrite length_map2. lia. }
  assert (Hne1 : L1 <> []).
  { intros E. apply (f_equal (@List.length _)) in E. unfold L1 in E.
    rewrite length_jupdate in E. destruct L; [contradiction|discriminate]. }
  assert (E1 : map g L1 =
               jupdate (fun v => map2 Rmult v (nth c message [])) (map g L) parent).
  { unfold L1.
    apply (jupdate_map (fun row : list (list R) => List.length row = C)); [|exact Hrows].
    intros row Hrow. unfold g. apply nth_map2; lia. }
  set (maxLike := map vmax (jget [] L1 parent)).
  assert (Hrow1 : List.length (jget [] L1 parent) = C).
  { apply (jget_all (fun row : list (list R) => List.length row = C));
      [exact H1|contradiction]. }
  assert (Hmax : List.length maxLike = C)
    by (unfold maxLike; now rewrite length_map).
  assert (Emax : nth c maxLike 0 = vmax (jget [] (map g L1) parent)).
  { unfold maxLike. rewrite (nth_map_in _ _ _ _ []) by lia.
    now rewrite Hjget. }
  rewrite <- Emsg, <- E1, <- Emax. f_equal.
  - apply (jupdate_map (fun row : list (list R) => List.length row = C)); [|exact H1].
    intros row Hrow. unfold g. now rewrite (nth_map2 _ _ _ _ _ [] 0) by lia.
  - rewrite (nth_map2 _ _ _ _ _ 0 0) by (rewrite ?length_map; lia).
    now rewrite (nth_map_in _ _ _ _ 0) by lia.
Qed.

Lemma fold_column (parentIndex : list Z) (subMatrix : list matrix)
    (C c : nat) (children : list nat) (state : pruning) :
  (c < C)%nat -> rectangular C state ->
  rectangular C (fold_left (pruneStep parentIndex subMatrix) children state) /\
  column_of c (fold_left (pruneStep parentIndex subMatrix) children state) =
  fold_left (columnStep parentIndex subMatrix) children (column_of c state).
Proof.
  intros Hc. revert state. induction children as [|child rest IH]; intros state H.
  - split; [exact H|reflexivity].
  - cbn [fold_left]. rewrite <- (pruneStep_column _ _ C) by assumption.
    apply IH. now apply pruneStep_rectangular.
Qed.

Lemma rootLogLike_column (rootProb : list R) (C c : nat) (state : pruning) :
  (c < C)%nat -> rectangular C state ->
  nth c (rootLogLike rootProb state) 0 =
  snd (column_of c state) + ln (dot (jget [] (fst (column_of c state)) 0%Z) rootProb).
Proof.
  intros Hc [Hne [Hrows HN]]. unfold rootLogLike, column_of. cbn [fst snd].
  assert (Hroot : List.length (jget [] (fst state) 0%Z) = C).
  { apply (jget_all (fun row : list (list R) => List.length row = C));
      [exact Hrows|contradiction]. }
  rewrite (nth_map2 _ _ _ _ _ 0 0) by (rewrite ?length_map; lia).
  rewrite (nth_map_in _ _ _ _ []) by lia.
  rewrite (jget_default [] (nth c [] [])
             (map (fun row : list (list R) => nth c row []) (fst state)))
    by (intros E; apply map_eq_nil in E; contradiction).
  now rewrite (jget_map (fun row : list (list R) => nth c row [])).
Qed.

Lemma initial_rectangular (A : nat) (alignment : list (list Z)) :
  alignment <> [] ->
  Forall (fun row => List.length row = List.length (hd [] alignment)) alignment ->
  rectangular (List.length (hd [] alignment))
    (initialLikelihood A alignment, repeat 0 (List.length (hd [] alignment))).
Proof.
  intros Hne Hrect. unfold rectangular, initialLikelihood. cbn [fst snd].
  split; [|split].
  - intros E. apply map_eq_nil in E. contradiction.
  - apply Forall_forall. intros row Hrow. apply in_map_iff in Hrow.
    destruct Hrow as [toks [<- Htoks]]. rewrite length_map.
    rewrite Forall_forall in Hrect. now apply Hrect.
  - apply repeat_length.
Qed.

Lemma initial_column (A c : nat) (alignment : list (list Z)) :
  (c < List.length (hd [] alignment))%nat ->
  Forall (fun row => List.length row = List.length (hd [] alignment)) alignment ->
  column_of c (initialLikelihood A alignment, repeat 0 (List.length (hd [] alignment))) =
  (map (fun row => jget [] (tokenLookup A) (nth c row 0%Z + 1)%Z) alignment, 0).
Proof.
  intros Hc Hrect. unfold column_of, initialLikelihood. cbn [fst snd].
  rewrite map_map, nth_repeat. f_equal.
  apply map_ext_in. intros row Hrow. rewrite Forall_forall in Hrect.
  now rewrite (nth_map_in _ _ _ _ 0%Z) by (rewrite Hrect by exact Hrow; exact Hc).
Qed.

(** The value of column [c]: pruning run on that column alone *)
Lemma column_value
    (alignment : list (list Z)) (parentIndex : list Z) (subMatrix : list matrix)
    (rootProb : list R) (c : nat) :
  (c < List.length (hd [] alignment))%nat ->
  Forall (fun row => List.length row = List.length (hd [] alignment)) alignment ->
  let final :=
    fold_left (columnStep parentIndex subMatrix)
      (rev (seq 1 (List.length subMatrix - 1)))
      (map (fun row => jget [] (tokenLookup (List.length (hd [] subMatrix)))
                            (nth c row 0%Z + 1)%Z) alignment, 0) in
  nth c (rootLogLike rootProb (pruned alignment parentIndex subMatrix)) 0 =
  snd final + ln (dot (jget [] (fst final) 0%Z) rootProb).
Proof.
  intros Hc Hrect final.
  assert (Hne : alignment <> []) by (intros E; rewrite E in Hc; cbn in Hc; lia).
  pose proof (initial_rectangular (List.length (hd [] subMatrix)) alignment Hne Hrect)
    as Hinit.
  destruct (fold_column parentIndex subMatrix _ c
              (rev (seq 1 (List.length subMatrix - 1))) _ Hc Hinit) as [Hfinal Hcol].
  unfold pruned. rewrite (rootLogLike_column rootProb _ c _ Hc Hfinal).
  rewrite Hcol, initial_column by assumption. reflexivity.
Qed.

(** X12: columns are independent.  The log-likelihood
    [subLogLikeForMatrices] returns for a column of a rectangular alignment
    is the one it returns for that column taken alone, as an alignment of
    one column. *)
Theorem column_alone_has_same_log_likelihood
    (alignment : list (list Z)) (parentIndex : list Z) (subMatrix : list matrix)
    (rootProb : list R) (c : nat) :
  shapes_agree parentIndex subMatrix rootProb ->
  Forall (fun row => List.length row = List.length (hd [] alignment)) alignment ->
  (c < List.length (hd [] alignment))%nat ->
  exists all alone,
    subLogLikeForMatrices alignment parentIndex subMatrix rootProb = Some all /\
    subLogLikeForMatrices (map (fun row => [nth c row 0%Z]) alignment)
      parentIndex subMatrix rootProb = Some [alone] /\
    nth c all 0 = alone.
Proof.
  intros Hshape Hrect Hc.
  assert (Hne : alignment <> []) by (intros E; rewrite E in Hc; cbn in Hc; lia).
  set (single := map (fun row => [nth c row 0%Z]) alignment).
  assert (Hhd : List.length (hd [] single) = 1%nat)
    by (unfold single; destruct alignment; [contradiction|reflexivity]).
  assert (Hrect1 : Forall (fun row => List.length row = List.length (hd [] single)) single).
  { rewrite Hhd. apply Forall_forall. intros row Hrow. unfold single in Hrow.
    apply in_map_iff in Hrow. now destruct Hrow as [r [<- _]]. }
  destruct (pruned_column single parentIndex subMatrix rootProb 0 False Hshape Hrect1)
    as [ll [E [Hlen _]]]; try contradiction.
  rewrite Hhd in Hlen. destruct ll as [|alone [|? ?]]; try discriminate.
  exists (rootLogLike rootProb (pruned alignment parentIndex subMatrix)), alone.
  split; [now apply subLogLikeForMatrices_checked|]. split; [exact E|].
  rewrite subLogLikeForMatrices_checked in E by exact Hshape.
  assert (Ealone : alone = nth 0 (rootLogLike rootProb (pruned single parentIndex subMatrix)) 0)
    by (injection E as ->; reflexivity).
  rewrite Ealone, !column_value by (assumption || (rewrite Hhd; lia)).
  unfold single. rewrite map_map. reflexivity.
Qed.

Lemma column_alone_has_same_log_likelihood_witness :
  exists all alone,
    subLogLikeForMatrices [[0; 1; -1]; [1; 1; -1]]%Z [-1; 0]%Z [eye 2; eye 2] [1 / 2; 1 / 2]
      = Some all /\
    subLogLikeForMatrices (map (fun row => [nth 1 row 0%Z]) [[0; 1; -1]; [1; 1; -1]]%Z)
      [-1; 0]%Z [eye 2; eye 2] [1 / 2; 1 / 2] = Some [alone] /\
    nth 1 all 0 = alone.
Proof.
  apply (column_alone_has_same_log_likelihood
           [[0; 1; -1]; [1; 1; -1]]%Z [-1; 0]%Z [eye 2; eye 2] [1 / 2; 1 / 2] 1).
  - repeat split. repeat (apply Forall_cons; [split; reflexivity|]). apply Forall_nil.
  - repeat (apply Forall_cons; [reflexivity|]). apply Forall_nil.
  - cbn. lia.
Defined.

End IndependenceFacts.

(** ** Two sequences *)
Module PairFacts.
Import Numeric Likelihood LikelihoodFacts SubModelFacts ColumnFacts.
Local Open Scope R_scope.

Local Notation "'matrix'" := (list (list R)).

Lemma token_vector (A a : nat) :
  (a < A)%nat -> jget [] (tokenLookup A) (Z.of_nat a + 1)%Z = onehot A a.
Proof.
  intros Ha. unfold tokenLookup.
  rewrite jget_index by (cbn [List.length]; unfold eye; rewrite length_tabulate; lia).
  replace (Z.to_nat (Z.of_nat a + 1)) with (S a) by lia. cbn [nth].
  unfold eye. now rewrite row_tabulate.
Qed.

Lemma dot_comm (v w : list R) : dot v w = dot w v.
Proof.
  unfold dot. f_equal. revert w. induction v as [|x v IH]; intros [|y w]; try reflexivity.
  cbn [map2]. rewrite IH. f_equal. ring.
Qed.

Lemma dot_onehot (row : list R) (b : nat) :
  (b < List.length row)%nat -> dot row (onehot (List.length row) b) = nth b row 0.
Proof.
  intros Hb. unfold dot, onehot.
  pose proof (list_tabulated 0 row) as E.
  set (n := List.length row) in *. set (f := fun i => nth i row 0) in *.
  change (nth b row 0) with (f b). rewrite E, map2_map.
  rewrite (sum_ext_in _ (fun j => if (b =? j)%nat then f b else 0)).
  - apply sum_indicator. lia.
  - intros j _. destruct (Nat.eqb_spec b j) as [->|_]; ring.
Qed.

Lemma matvec_onehot (A b : nat) (m : matrix) :
  List.length m = A -> square m = true -> (b < A)%nat ->
  matvec m (onehot A b) = map (fun i => entry m i b) (seq 0 A).
Proof.
  intros Hlen Hsq Hb. unfold matvec.
  rewrite (list_tabulated [] m) at 1. rewrite map_map, Hlen.
  apply map_ext_in. intros i Hi. apply in_seq in Hi.
  rewrite <- Hlen at 1. rewrite <- (square_rows m i Hsq) by lia.
  apply dot_onehot. rewrite square_rows by (assumption || lia). lia.
Qed.

Lemma fold_max (l : list R) (c : R) :
  forall x, x <= c -> Forall (fun y => y <= c) l -> x = c \/ In c l ->
  fold_left Rmax l x = c.
Proof.
  induction l as [|y l IH]; intros x Hx Hl Hc.
  - destruct Hc as [Hc|[]]. exact Hc.
  - inversion Hl as [|? ? Hy Hl']; subst. cbn [fold_left]. apply IH.
    + now apply Rmax_lub.
    + exact Hl'.
    + destruct Hc as [->|[->|Hc]].
      * left. now apply Rmax_left.
      * left. now apply Rmax_right.
      * now right.
Qed.

Lemma vmax_single (A a : nat) (c : R) :
  (a < A)%nat -> 0 < c ->
  vmax (map (fun i => if (a =? i)%nat then c else 0) (seq 0 A)) = c.
Proof.
  intros Ha Hc.
  set (v := map (fun i => if (a =? i)%nat then c else 0) (seq 0 A)).
  assert (Hall : Forall (fun y => y <= c) v).
  { apply Forall_forall. intros y Hy. apply in_map_iff in Hy.
    destruct Hy as [i [<- _]]. destruct (a =? i)%nat; lra. }
  assert (Hin : In c v).
  { apply in_map_iff. exists a. rewrite Nat.eqb_refl. split; [reflexivity|].
    apply in_seq. lia. }
  clearbody v. destruct v as [|x rest]; [contradiction|].
  apply Forall_cons_iff in Hall. destruct Hall as [Hx Hrest].
  cbn [vmax]. apply fold_max; [exact Hx|exact Hrest|].
  destruct Hin as [Hin|Hin]; [now left|now right].
Qed.

Lemma pair_shapes (A : nat) (root child : matrix) (rootProb : list R) :
  List.length root = A -> square root = true ->
  List.length child = A -> square child = true ->
  List.length rootProb = A ->
  shapes_agree [-1; 0]%Z [root; child] rootProb.
Proof.
  intros Hr Hrs Hc Hcs Hp. unfold shapes_agree. cbn [hd List.length].
  split; [reflexivity|]. split; [congruence|].
  repeat (apply Forall_cons; [split; [congruence|assumption]|]). apply Forall_nil.
Qed.

(** Pruning a pair: the root holds [a], its child holds [b]. *)
Lemma pair_pruned (A a b : nat) (root child : matrix) :
  (a < A)%nat -> (b < A)%nat ->
  List.length root = A ->
  List.length child = A -> square child = true ->
  0 < entry child a b ->
  pruned [[Z.of_nat a]; [Z.of_nat b]] [-1; 0]%Z [root; child] =
  ([[onehot A a]; [onehot A b]], [0 + ln (entry child a b)]).
Proof.
  intros Ha Hb Hr Hc Hcs Hpos. unfold pruned, initialLikelihood.
  cbn [hd List.length Nat.sub seq rev app map fold_left repeat].
  rewrite Hr, !token_vector by assumption.
  unfold pruneStep.
  rewrite (jget_in_range 0%Z [-1; 0]%Z 1) by (cbn; lia).
  rewrite (jget_in_range [] [root; child] 1) by (cbn; lia).
  rewrite (jget_in_range [] [[onehot A a]; [onehot A b]] 1) by (cbn; lia).
  cbn [nth map].
  rewrite matvec_onehot by assumption.
  assert (E : map2 Rmult (onehot A a) (map (fun i => entry child i b) (seq 0 A)) =
              map (fun i => if (a =? i)%nat then entry child a b else 0) (seq 0 A)).
  { unfold onehot. rewrite map2_map. apply map_ext. intros i.
    destruct (Nat.eqb_spec a i) as [->|_]; ring. }
  set (v := map (fun i => if (a =? i)%nat then entry child a b else 0) (seq 0 A)) in *.
  assert (H1 : jupdate (fun row => map2 (map2 Rmult) row
                          [map (fun i => entry child i b) (seq 0 A)])
                 [[onehot A a]; [onehot A b]] 0 = [[v]; [onehot A b]]).
  { rewrite jupdate_in_range by (cbn; lia). cbn [Z.to_nat alter map2].
    now rewrite E. }
  rewrite H1.
  rewrite jget_index by (cbn; lia). cbn [Z.to_nat nth map].
  unfold v at 1 3. rewrite vmax_single by assumption.
  rewrite jupdate_in_range by (cbn; lia). cbn [Z.to_nat alter map2 map].
  unfold v. rewrite map_map.
  rewrite (map_ext _ (fun j => if (a =? j)%nat then 1 else 0))
    by (intros i; destruct (a =? i)%nat; field; lra).
  reflexivity.
Qed.

(** X13: two sequences of one column.  When the root holds letter [a], its
    child holds letter [b] and the child's branch matrix gives the change
    from [a] to [b] a positive probability, the log-likelihood is the log of
    that probability plus the log of the root probability of [a]. *)
Theorem pair_log_likelihood
    (A a b : nat) (root child : matrix) (rootProb : list R) :
  (a < A)%nat -> (b < A)%nat ->
  List.length root = A -> square root = true ->
  List.length child = A -> square child = true ->
  List.length rootProb = A ->
  0 < entry child a b ->
  subLogLikeForMatrices [[Z.of_nat a]; [Z.of_nat b]] [-1; 0]%Z [root; child] rootProb =
  Some [ln (entry child a b) + ln (nth a rootProb 0)].
Proof.
  intros Ha Hb Hr Hrs Hc Hcs Hp Hpos.
  rewrite subLogLikeForMatrices_checked by now apply (pair_shapes A).
  rewrite (pair_pruned A) by assumption.
  unfold rootLogLike. cbn [fst snd].
  rewrite jget_index by (cbn; lia). cbn [Z.to_nat nth map map2].
  rewrite dot_comm, <- Hp, dot_onehot by lia.
  do 2 f_equal. ring.
Qed.

Lemma pair_log_likelihood_witness :
  subLogLikeForMatrices [[Z.of_nat 0]; [Z.of_nat 1]] [-1; 0]%Z
    [eye 2; [[1 / 2; 1 / 2]; [1 / 4; 3 / 4]]] [1 / 3; 2 / 3] =
  Some [ln (entry [[1 / 2; 1 / 2]; [1 / 4; 3 / 4]] 0 1) + ln (nth 0 [1 / 3; 2 / 3] 0)].
Proof.
  apply (pair_log_likelihood 2 0 1 (eye 2) [[1 / 2; 1 / 2]; [1 / 4; 3 / 4]]
           [1 / 3; 2 / 3]); try reflexivity; try lia.
  cbn. lra.
Defined.

End PairFacts.

(** ** Validation, padding and the time grid *)
Module ShapeFacts.
Import Numeric Likelihood LikelihoodFacts.
Local Open Scope R_scope.

Local Notation "'matrix'" := (list (list R)).

(** *** What the validators accept *)
Lemma Rleb_spec (a b : R) : Rleb a b = true <-> a <= b.
Proof.
  unfold Rleb. destruct (Rle_dec a b); split; intros;
    try assumption; try reflexivity; try discriminate; contradiction.
Qed.

Lemma alignmentIsValid_accepts (alignment : list (list Z)) (alphabetSize : Z) :
  alignmentIsValid alignment alphabetSize = Passed <->
  forall row tok, In row alignment -> In tok row -> (-1 <= tok < alphabetSize)%Z.
Proof.
  unfold alignmentIsValid. split.
  - destruct (forallb (forallb (fun tok => (-1 <=? tok)%Z)) alignment) eqn:E1;
      [|discriminate].
    destruct (forallb (forallb (fun tok => (tok <? alphabetSize)%Z)) alignment) eqn:E2;
      [|discriminate].
    intros _ row tok Hrow Htok.
    rewrite forallb_forall in E1, E2.
    specialize (E1 row Hrow). specialize (E2 row Hrow).
    rewrite forallb_forall in E1, E2.
    specialize (E1 tok Htok). specialize (E2 tok Htok). lia.
  - intros H.
    assert (forallb (forallb (fun tok => (-1 <=? tok)%Z)) alignment = true) as ->.
    { apply forallb_forall. intros row Hrow. apply forallb_forall. intros tok Htok.
      specialize (H row tok Hrow Htok). lia. }
    assert (forallb (forallb (fun tok => (tok <? alphabetSize)%Z)) alignment = true) as ->.
    { apply forallb_forall. intros row Hrow. apply forallb_forall. intros tok Htok.
      specialize (H row tok Hrow Htok). lia. }
    reflexivity.
Qed.

Lemma le_arange_same_length (x : list Z) :
  le_arange x (List.length x) =
  Some (forallb (fun pi => (fst pi <=? Z.of_nat (snd pi))%Z)
          (combine x (seq 0 (List.length x)))).
Proof.
  unfold le_arange. destruct x as [|p [|q rest]].
  - reflexivity.
  - cbn. reflexivity.
  - cbn [List.length]. change (S (S (List.length rest)) =? 1)%nat with false.
    now rewrite Nat.eqb_refl.
Qed.

Lemma parents_in_order (x : list Z) (start : nat) :
  forallb (fun pi => (fst pi <=? Z.of_nat (snd pi))%Z)
    (combine x (seq start (List.length x))) = true <->
  forall i, (i < List.length x)%nat -> (nth i x 0 <= Z.of_nat (start + i))%Z.
Proof.
  revert start. induction x as [|p x IH]; intros start.
  - split; [intros _ i Hi; cbn in Hi; lia|reflexivity].
  - cbn [List.length seq combine forallb fst snd]. rewrite andb_true_iff, IH. split.
    + intros [Hp Hx] [|i] Hi; cbn [nth].
      * rewrite Nat.add_0_r. lia.
      * specialize (Hx i ltac:(lia)). replace (start + S i)%nat with (S start + i)%nat by lia.
        exact Hx.
    + intros H. split.
      * specialize (H 0%nat ltac:(lia)). cbn [nth] in H. rewrite Nat.add_0_r in H. lia.
      * intros i Hi. specialize (H (S i) ltac:(lia)). cbn [nth] in H.
        replace (S start + i)%nat with (start + S i)%nat by lia. exact H.
Qed.

Lemma parents_bounded_below (x : list Z) :
  forallb (fun p => (-1 <=? p)%Z) (tl x) = true <->
  forall i, (1 <= i < List.length x)%nat -> (-1 <= nth i x 0)%Z.
Proof.
  rewrite forallb_forall. destruct x as [|p x]; cbn [tl List.length].
  - split; [intros _ i Hi; lia|intros _ q []].
  - split.
    + intros H [|i] Hi; [lia|]. cbn [nth].
      specialize (H (nth i x 0%Z) ltac:(apply nth_In; lia)). lia.
    + intros H q Hq. destruct (In_nth _ _ 0%Z Hq) as [i [Hi <-]].
      specialize (H (S i) ltac:(lia)). cbn [nth] in H. lia.
Qed.

Lemma treeIsValid_accepts (distanceToParent : list R) (parentIndex : list Z) :
  treeIsValid distanceToParent parentIndex (List.length parentIndex) = Passed <->
  Forall (Rle 0) distanceToParent /\
  (forall i, (1 <= i < List.length parentIndex)%nat -> (-1 <= nth i parentIndex 0)%Z) /\
  (forall i, (i < List.length parentIndex)%nat -> (nth i parentIndex 0 <= Z.of_nat i)%Z).
Proof.
  unfold treeIsValid. rewrite le_arange_same_length.
  rewrite <- parents_bounded_below, <- (parents_in_order parentIndex 0).
  assert (Hd : forallb (fun d => Rleb 0 d) distanceToParent = true <->
               Forall (Rle 0) distanceToParent).
  { rewrite forallb_forall, Forall_forall. split; intros H d Hin.
    - now apply Rleb_spec, H.
    - now apply Rleb_spec, H. }
  rewrite <- Hd.
  destruct (forallb (fun d => Rleb 0 d) distanceToParent);
    destruct (forallb (fun p => (-1 <=? p)%Z) (tl parentIndex));
    destruct (forallb _ (combine parentIndex _)); cbn [negb];
    split; try discriminate; try tauto; intros [? [? ?]]; discriminate.
Qed.

(** *** Padding keeps a valid input valid *)
Lemma padded_alignment_valid (alignment : list (list Z)) (k c : nat) (alphabetSize : Z) :
  (0 <= alphabetSize)%Z ->
  alignmentIsValid alignment alphabetSize = Passed ->
  alignmentIsValid (padded_alignment alignment k c) alphabetSize = Passed.
Proof.
  intros HA H. rewrite alignmentIsValid_accepts in *.
  intros row tok Hrow Htok. unfold padded_alignment in Hrow.
  apply in_map_iff in Hrow. destruct Hrow as [row' [<- Hrow']].
  apply in_app_or in Htok. destruct Htok as [Htok|Htok].
  - apply in_app_or in Hrow'. destruct Hrow' as [Hrow'|Hrow'].
    + now apply (H row').
    + apply repeat_spec in Hrow'. subst row'. apply repeat_spec in Htok. lia.
  - apply repeat_spec in Htok. lia.
Qed.

Lemma length_padded_alignment (alignment : list (list Z)) (k c : nat) :
  List.length (padded_alignment alignment k c) = (List.length alignment + k)%nat.
Proof. unfold padded_alignment. now rewrite length_map, length_app, repeat_length. Qed.

Lemma padded_tree_valid (distanceToParent : list R) (parentIndex : list Z) (k : nat) :
  treeIsValid distanceToParent parentIndex (List.length parentIndex) = Passed ->
  treeIsValid (distanceToParent ++ repeat 0 k)
    (parentIndex ++ arange (Z.of_nat (List.length parentIndex))
                          (Z.of_nat (List.length parentIndex) + Z.of_nat k))
    (List.length parentIndex + k) = Passed.
Proof.
  intros H. apply treeIsValid_accepts in H. destruct H as [Hd [Hlow Hord]].
  set (R0 := List.length parentIndex) in *.
  set (extra := arange (Z.of_nat R0) (Z.of_nat R0 + Z.of_nat k)).
  assert (Hlen : List.length extra = k)
    by (unfold extra; rewrite length_arange; lia).
  assert (Hnth : forall i, (i < R0 + k)%nat ->
            nth i (parentIndex ++ extra) 0%Z =
            if (i <? R0)%nat then nth i parentIndex 0%Z else Z.of_nat i).
  { intros i Hi. destruct (Nat.ltb_spec i R0) as [Hlt|Hge].
    - now apply app_nth1.
    - rewrite app_nth2 by exact Hge. unfold extra.
      rewrite nth_arange by lia. fold R0. lia. }
  replace (R0 + k)%nat with (List.length (parentIndex ++ extra))
    by (rewrite length_app, Hlen; reflexivity).
  apply treeIsValid_accepts. rewrite length_app, Hlen. fold R0.
  split; [|split].
  - apply Forall_app. split; [exact Hd|].
    apply Forall_forall. intros d Hin. apply repeat_spec in Hin. lra.
  - intros i Hi. rewrite Hnth by lia.
    destruct (Nat.ltb_spec i R0); [apply Hlow; lia|lia].
  - intros i Hi. rewrite Hnth by lia.
    destruct (Nat.ltb_spec i R0); [apply Hord; lia|lia].
Qed.

(** *** The padded dimension *)
Lemma pow2_pos (k : Z) : (0 <= k)%Z -> (0 < 2 ^ k)%Z.
Proof. intros H. apply Z.pow_pos_nonneg; lia. Qed.

Lemma bit_length_nonneg (z : Z) : (0 <= bit_length z)%Z.
Proof.
  unfold bit_length. destruct (z =? 0)%Z; [lia|].
  pose proof (Z.log2_nonneg (Z.abs z)). lia.
Qed.

Lemma bit_length_pred_pow2 (k : Z) : (0 <= k)%Z -> bit_length (2 ^ k - 1) = k.
Proof.
  intros Hk. unfold bit_length.
  destruct (Z.eq_dec k 0) as [->|Hne]; [reflexivity|].
  assert (2 <= 2 ^ k)%Z
    by (change 2%Z with (2 ^ 1)%Z at 1; apply Z.pow_le_mono_r; lia).
  destruct (Z.eqb_spec (2 ^ k - 1) 0); [lia|].
  rewrite Z.abs_eq by lia.
  change (2 ^ k - 1)%Z with (Z.pred (2 ^ k)).
  rewrite Z.log2_pred_pow2 by lia. lia.
Qed.

(** *** Where a branch length falls in the grid *)
Lemma digitize_bracket (g : nat -> R) (x : R) (len : nat) :
  forall start,
  let d := digitize x (map g (seq start len)) in
  (d <= len)%nat /\
  ((d < len)%nat -> x < g (start + d)%nat) /\
  ((0 < d)%nat -> g (start + d - 1)%nat <= x).
Proof.
  induction len as [|len IH]; intros start; cbv zeta.
  - cbn. repeat split; intros; lia.
  - cbn [seq map digitize]. destruct (Rlt_dec x (g start)) as [Hlt|Hge].
    + repeat split; [lia| |intros; lia]. intros _. now rewrite Nat.add_0_r.
    + destruct (IH (S start)) as [Hle [Hup Hlow]].
      set (d := digitize x (map g (seq (S start) len))) in *.
      repeat split; [lia| |].
      * intros Hd. replace (start + S d)%nat with (S start + d)%nat by lia.
        apply Hup. lia.
      * intros _. destruct d as [|d].
        -- replace (start + 1 - 1)%nat with start by lia. lra.
        -- replace (start + S (S d) - 1)%nat with (S start + S d - 1)%nat by lia.
           apply Hlow. lia.
Qed.

(** X14: with as many rows as parent indices, [treeIsValid] passes exactly
    when no distance is negative, every parent index but the first is at
    least -1, and every parent index is at most its own position.  It does
    not compare the number of distances with the number of rows, and puts
    no lower bound on the first parent index. *)
Theorem treeIsValid_accepts_exactly (distanceToParent : list R) (parentIndex : list Z) :
  treeIsValid distanceToParent parentIndex (List.length parentIndex) = Passed <->
  Forall (Rle 0) distanceToParent /\
  (forall i, (1 <= i < List.length parentIndex)%nat -> (-1 <= nth i parentIndex 0)%Z) /\
  (forall i, (i < List.length parentIndex)%nat -> (nth i parentIndex 0 <= Z.of_nat i)%Z).
Proof. exact (treeIsValid_accepts distanceToParent parentIndex). Qed.

(** X15: padding keeps a valid input valid.  When [padAlignment] returns,
    the alignment it returns passes [alignmentIsValid] and the tree it
    returns passes [treeIsValid] if the given ones do, for an alphabet size
    that is not negative and one parent index per alignment row. *)
Theorem padAlignment_keeps_validity
    (alignment : list (list Z)) (parentIndex : list Z) (distanceToParent : list R)
    (nRows nCols : option Z) (colMultiplier rowMultiplier : R) (alphabetSize : Z)
    (alignment' : list (list Z)) (parentIndex' : list Z) (distanceToParent' : list R) :
  padAlignment alignment parentIndex distanceToParent nRows nCols
    colMultiplier rowMultiplier = Some (alignment', parentIndex', distanceToParent') ->
  List.length parentIndex = List.length alignment ->
  (0 <= alphabetSize)%Z ->
  alignmentIsValid alignment alphabetSize = Passed ->
  treeIsValid distanceToParent parentIndex (List.length alignment) = Passed ->
  alignmentIsValid alignment' alphabetSize = Passed /\
  treeIsValid distanceToParent' parentIndex' (List.length alignment') = Passed.
Proof.
  intros Hpad Hlen HA Halign Htree.
  destruct (padAlignment_shape _ _ _ _ _ _ _ _ _ _ Hpad) as [k [c [-> [-> ->]]]].
  split; [now apply padded_alignment_valid|].
  rewrite length_padded_alignment, <- Hlen in *.
  now apply padded_tree_valid.
Qed.

Lemma padAlignment_keeps_validity_witness :
  alignmentIsValid [[0; 1; -1; -1]; [1; 1; -1; -1]; [0; 0; -1; -1]; [-1; -1; -1; -1]]%Z 2
    = Passed /\
  treeIsValid [0; 1; 1; 0] [-1; 0; 0; 3]%Z
    (List.length [[0; 1; -1; -1]; [1; 1; -1; -1]; [0; 0; -1; -1]; [-1; -1; -1; -1]]%Z)
    = Passed.
Proof.
  apply (padAlignment_keeps_validity
           [[0; 1]; [1; 1]; [0; 0]]%Z [-1; 0; 0]%Z [0; 1; 1]
           (Some 4%Z) (Some 4%Z) 2 2 2%Z).
  - reflexivity.
  - reflexivity.
  - lia.
  - reflexivity.
  - unfold treeIsValid. cbn [forallb]. rewrite !Rleb_true by lra. reflexivity.
Defined.

(** X16: for a length of at least one, [padDimension (len, 2)] is the
    smallest power of two that is not below [len], and padding a padded
    length again changes nothing. *)
Theorem padDimension_smallest_power_of_two (len : Z) :
  (1 <= len)%Z ->
  exists k : nat,
    padDimension len 2 = (2 ^ Z.of_nat k)%Z /\
    (len <= 2 ^ Z.of_nat k)%Z /\
    (forall j : nat, (len <= 2 ^ Z.of_nat j)%Z -> (2 ^ Z.of_nat k <= 2 ^ Z.of_nat j)%Z) /\
    padDimension (padDimension len 2) 2 = padDimension len 2.
Proof.
  intros Hlen. pose proof (bit_length_nonneg (len - 1)) as Hb.
  exists (Z.to_nat (bit_length (len - 1))).
  rewrite !padDimension_two, !Z.shiftl_1_l, Z2Nat.id by exact Hb.
  split; [reflexivity|]. split; [|split].
  - pose proof (padDimension_two_ge len Hlen) as H.
    now rewrite padDimension_two, Z.shiftl_1_l in H.
  - intros j Hj. apply Z.pow_le_mono_r; [lia|].
    unfold bit_length in *. destruct (Z.eqb_spec (len - 1) 0) as [E|E]; [lia|].
    rewrite Z.abs_eq in * by lia.
    destruct (Z_lt_le_dec (Z.of_nat j) (Z.log2 (len - 1) + 1)) as [Hlt|Hge]; [|exact Hge].
    exfalso.
    pose proof (Z.log2_spec (len - 1) ltac:(lia)) as [Hlow _].
    assert (2 ^ Z.of_nat j <= 2 ^ Z.log2 (len - 1))%Z
      by (apply Z.pow_le_mono_r; lia).
    lia.
  - now rewrite bit_length_pred_pow2 by exact Hb.
Qed.

Lemma padDimension_smallest_power_of_two_witness :
  exists k : nat,
    padDimension 5 2 = (2 ^ Z.of_nat k)%Z /\
    (5 <= 2 ^ Z.of_nat k)%Z /\
    (forall j : nat, (5 <= 2 ^ Z.of_nat j)%Z -> (2 ^ Z.of_nat k <= 2 ^ Z.of_nat j)%Z) /\
    padDimension (padDimension 5 2) 2 = padDimension 5 2.
Proof. apply (padDimension_smallest_power_of_two 5). lia. Defined.

(** X17: the table time a positive branch length below [tMax] is given is
    greater than the branch length.  Between [tMin] and [tMax] the branch
    length falls between two neighbouring grid times and gets the index of
    the upper one; below [tMin] it gets index 2, the grid time after
    [tMin]. *)
Theorem discretizeBranchLength_rounds_up (tMin tMax : R) (nSteps : nat) (t : R) :
  0 < tMin -> tMin < tMax -> (2 <= nSteps)%nat -> 0 < t < tMax ->
  let i := discretizeBranchLength t (tMin, tMax, nSteps) in
  let times := getDiscretizedTimes (tMin, tMax, nSteps) in
  (2 <= i <= nSteps)%nat /\
  t < nth i times 0 /\
  (tMin <= t -> nth (i - 1) times 0 <= t) /\
  (t < tMin -> i = 2%nat).
Proof.
  intros Hpos Hlt Hsteps [Hlow Hup] i times.
  assert (Ht : t <> 0) by lra.
  assert (Hi : i = S (digitize (clip t tMin tMax) (geomspace tMin tMax nSteps))).
  { unfold i, discretizeBranchLength. now destruct (Req_dec_T t 0). }
  destruct (Rlt_le_dec t tMin) as [Hbelow|Hin].
  - assert (Hclip : clip t tMin tMax = gridTime tMin tMax nSteps 0).
    { rewrite (gridTime_first tMin tMax nSteps Hpos Hlt). unfold clip.
      rewrite Rmax_right by lra. apply Rmin_left. lra. }
    rewrite Hclip, (geomspace_grid tMin tMax nSteps) in Hi.
    rewrite (digitize_grid_from tMin tMax nSteps Hpos Hlt Hsteps) in Hi by lia.
    change (0 - 0 + 1)%nat with 1%nat in Hi.
    rewrite Hi. split; [lia|]. split; [|split; [lra|reflexivity]].
    unfold times. rewrite (nth_times tMin tMax nSteps) by lia.
    pose proof (gridTime_increasing tMin tMax nSteps Hpos Hlt Hsteps 0 1 ltac:(lia)).
    rewrite (gridTime_first tMin tMax nSteps Hpos Hlt) in *. lra.
  - rewrite (clip_inside tMin tMax) in Hi by lra.
    pose proof (digitize_bracket (gridTime tMin tMax nSteps) t nSteps 0) as Hd.
    cbv zeta in Hd. rewrite <- (geomspace_grid tMin tMax nSteps) in Hd.
    set (d := digitize t (geomspace tMin tMax nSteps)) in *.
    destruct Hd as [Hle [Habove Hbelow]]. cbn [Nat.add] in *.
    assert (Hd1 : (1 <= d)%nat).
    { destruct d as [|d]; [|lia]. exfalso.
      specialize (Habove ltac:(lia)).
      rewrite (gridTime_first tMin tMax nSteps Hpos Hlt) in Habove. lra. }
    assert (Hd2 : (d < nSteps)%nat).
    { destruct (Nat.eq_dec d nSteps) as [E|E]; [|lia]. exfalso.
      specialize (Hbelow ltac:(lia)). rewrite E in Hbelow.
      rewrite (gridTime_last tMin tMax nSteps Hpos Hlt Hsteps) in Hbelow. lra. }
    rewrite Hi. split; [lia|].
    replace (S d - 1)%nat with (S (d - 1)) by lia.
    unfold times. rewrite !(nth_times tMin tMax nSteps) by lia.
    split; [apply Habove; lia|]. split; [intros _; apply Hbelow; lia|lra].
Qed.

Lemma discretizeBranchLength_rounds_up_witness :
  let i := discretizeBranchLength 5 (1 / 1000, 10, 400%nat) in
  let times := getDiscretizedTimes (1 / 1000, 10, 400%nat) in
  (2 <= i <= 400)%nat /\
  5 < nth i times 0 /\
  (1 / 1000 <= 5 -> nth (i - 1) times 0 <= 5) /\
  (5 < 1 / 1000 -> i = 2%nat).
Proof.
  apply (discretizeBranchLength_rounds_up (1 / 1000) 10 400 5); try lra. lia.
Defined.

(** X18: a branch of length zero gets the identity matrix:
    [computeSubMatrixForBranchLengths] returns the identity for every zero
    distance, and with the default grid the table of discretized times
    holds the identity at index 0, the index [discretizeBranchLength] gives
    to a zero branch length. *)
Theorem zero_branch_length_gives_identity (subRate : matrix) (distanceToParent : list R) :
  square subRate = true ->
  (exists subMatrix,
     computeSubMatrixForBranchLengths distanceToParent subRate = Some subMatrix /\
     forall r, (r < List.length distanceToParent)%nat -> nth r distanceToParent 0 = 0 ->
       nth r subMatrix [] = eye (List.length subRate)) /\
  (exists table,
     computeSubMatrixForDiscretizedTimes subRate defaultDiscretizationParams = Some table /\
     discretizeBranchLength 0 defaultDiscretizationParams = 0%nat /\
     computeSubMatrixForDiscretizedBranchLengths [0] table defaultDiscretizationParams =
       [eye (List.length subRate)]).
Proof.
  intros Hsq. split.
  - unfold computeSubMatrixForBranchLengths. rewrite Hsq.
    eexists. split; [reflexivity|]. intros r Hr Hzero.
    rewrite (nth_map_in _ _ _ _ 0) by exact Hr.
    rewrite Hzero. apply expm_at_zero_distance.
  - destruct (zero_length_lookup subRate Hsq) as [D [_ [table [Htable Hlook]]]].
    exists table. auto.
Qed.

Lemma zero_branch_length_gives_identity_witness :
  (exists subMatrix,
     computeSubMatrixForBranchLengths [0; 1] symmetricRate = Some subMatrix /\
     forall r, (r < List.length [0; 1])%nat -> nth r [0; 1] 0 = 0 ->
       nth r subMatrix [] = eye (List.length symmetricRate)) /\
  (exists table,
     computeSubMatrixForDiscretizedTimes symmetricRate defaultDiscretizationParams
       = Some table /\
     discretizeBranchLength 0 defaultDiscretizationParams = 0%nat /\
     computeSubMatrixForDiscretizedBranchLengths [0] table defaultDiscretizationParams =
       [eye (List.length symmetricRate)]).
Proof. exact (zero_branch_length_gives_identity symmetricRate [0; 1] eq_refl). Defined.

End ShapeFacts.

(** ** Parsing a model *)
Module ParseFacts.
Import Numeric Likelihood Historian TestCigar LikelihoodFacts SubModelFacts.
Local Open Scope R_scope.
Local Open Scope string_scope.

Local Notation "'matrix'" := (list (list R)).



Lemma parsed_indelParams (params : paramsJson) alphabet mixture indelParams :
  parseHistorianParams params = Returned (alphabet, mixture, indelParams) ->
  List.length indelParams = 4%nat.
Proof.
  unfold parseHistorianParams. destruct (Historian.alphabet params); [|discriminate].
  destruct (match Historian.mixture params with
            | Some components => each (parseSubRate l) components
            | None => each (parseSubRate l) [top params]
            end); try discriminate.
  intros [= _ _ <-]. reflexivity.
Qed.



(** X20: [main] never gets past its assertions: what [parseHistorianParams]
    returns holds four indel parameters, and [main] asserts that it holds
    one. *)
Theorem main_never_proceeds (modelJson : paramsJson) :
  main_assertions modelJson <> Proceeds.
Proof.
  unfold main_assertions.
  destruct (parseHistorianParams modelJson) as [[[letters components] indelParams]| |] eqn:E;
    try discriminate.
  rewrite (parsed_indelParams _ _ _ _ E).
  destruct (negb (List.length components =? 1)%nat); discriminate.
Qed.

End ParseFacts.

(** ** Writing a model and reading it back *)
Module RoundTrip.
Import Numeric Likelihood Historian LikelihoodFacts SubModelFacts.
Local Open Scope R_scope.
Local Open Scope string_scope.

Local Notation "'matrix'" := (list (list R)).

Lemma lookup_app {V : Type} (key : string) (d d' : dict V) :
  lookup key (d ++ d')%list =
  match lookup key d with
  | Some v => Some v
  | None => lookup key d'
  end.
Proof.
  induction d as [|[k v] d IH]; [reflexivity|].
  cbn [app lookup]. destruct (String.eqb key k); [reflexivity|exact IH].
Qed.

(** Looking a letter up in a comprehension over letter indices *)
Lemma lookup_comprehension {V : Type} (letters : list string) (f : nat -> V)
    (indices : list nat) (j : nat) :
  NoDup letters -> (j < List.length letters)%nat ->
  Forall (fun i => (i < List.length letters)%nat) indices ->
  lookup (nth j letters "")
    (comprehension (map (fun i => (nth i letters "", f i)) indices)) =
  if existsb (Nat.eqb j) indices then Some (f j) else None.
Proof.
  intros Hnd Hj. unfold comprehension.
  induction indices as [|i indices IH]; intros Hall; [reflexivity|].
  inversion Hall as [|? ? Hi Hrest]; subst.
  cbn [map rev existsb]. rewrite lookup_app, IH by exact Hrest.
  destruct (existsb (Nat.eqb j) indices).
  - now rewrite orb_true_r.
  - rewrite orb_false_r. cbn [lookup].
    destruct (Nat.eqb_spec j i) as [->|Hne].
    + now rewrite String.eqb_refl.
    + destruct (String.eqb_spec (nth j letters "") (nth i letters "")) as [E|_];
        [|reflexivity].
      exfalso. apply Hne. now apply (proj1 (NoDup_nth letters "") Hnd).
Qed.

Lemma all_indices (letters : list string) :
  Forall (fun i => (i < List.length letters)%nat) (letterIndices letters).
Proof. apply Forall_forall. intros i Hi. apply in_seq in Hi. lia. Qed.

Lemma index_listed (n j : nat) : (j < n)%nat -> existsb (Nat.eqb j) (seq 0 n) = true.
Proof.
  intros Hj. apply existsb_exists. exists j. split; [apply in_seq; lia|].
  apply Nat.eqb_refl.
Qed.

Lemma index_filtered (n i j : nat) :
  (j < n)%nat ->
  existsb (Nat.eqb j) (filter (fun j => negb (i =? j)%nat) (seq 0 n)) = negb (i =? j)%nat.
Proof.
  intros Hj. destruct (Nat.eqb_spec i j) as [->|Hne]; cbn [negb].
  - apply not_true_is_false. intros H. apply existsb_exists in H.
    destruct H as [k [Hk Ek]]. apply filter_In in Hk. destruct Hk as [_ Hk].
    apply Nat.eqb_eq in Ek. subst k. now rewrite Nat.eqb_refl in Hk.
  - apply existsb_exists. exists j. split; [|apply Nat.eqb_refl].
    apply filter_In. split; [apply in_seq; lia|].
    now rewrite (proj2 (Nat.eqb_neq i j)).
Qed.

(** What the parser reads back from the dicts of one model *)
Lemma rates_read_back (letters : list string) (subRate : matrix) (rootProb : list R)
    (rates : dict (dict R)) (i j : nat) :
  NoDup letters -> (i < List.length letters)%nat -> (j < List.length letters)%nat ->
  subrate (toSubRate letters subRate rootProb) = Some rates ->
  get (get rates (nth i letters "") []) (nth j letters "") 0 =
  if (i =? j)%nat then 0 else jget 0 (jget [] subRate (Z.of_nat i)) (Z.of_nat j).
Proof.
  intros Hnd Hi Hj [= <-]. unfold get at 2.
  rewrite (lookup_comprehension letters _ (letterIndices letters) i Hnd Hi)
    by apply all_indices.
  unfold letterIndices at 1. rewrite index_listed by exact Hi.
  unfold get.
  rewrite (lookup_comprehension letters _ _ j Hnd Hj).
  - unfold letterIndices. rewrite index_filtered by exact Hj.
    now destruct (i =? j)%nat.
  - apply Forall_forall. intros k Hk. apply filter_In in Hk. destruct Hk as [Hk _].
    apply in_seq in Hk. lia.
Qed.

Lemma weights_read_back (letters : list string) (subRate : matrix) (rootProb : list R)
    (probs : dict R) (i : nat) :
  NoDup letters -> (i < List.length letters)%nat ->
  rootprob (toSubRate letters subRate rootProb) = Some probs ->
  get probs (nth i letters "") 0 = jget 0 rootProb (Z.of_nat i).
Proof.
  intros Hnd Hi [= <-]. unfold get.
  rewrite (lookup_comprehension letters _ (letterIndices letters) i Hnd Hi)
    by apply all_indices.
  unfold letterIndices. now rewrite index_listed by exact Hi.
Qed.

Lemma normalizeRootProb_normalized (rootProb : list R) :
  sum rootProb = 1 -> normalizeRootProb rootProb = rootProb.
Proof.
  intros H. unfold normalizeRootProb. rewrite H.
  rewrite <- (map_id rootProb) at 2. apply map_ext. intros p. field.
Qed.

Lemma parseSubRate_letters (letters : list string) (p : subModelJson) :
  letters <> [] ->
  parseSubRate letters p =
  match subrate p with
  | None => KeyError "subrate"
  | Some rates =>
      match rootprob p with
      | None => KeyError "rootprob"
      | Some probs =>
          Returned
            (normalizeSubModel
               (map (fun i => map (fun j => get (get rates i []) j 0) letters) letters)
               (map (fun i => get probs i 0) letters))
      end
  end.
Proof. intros H. destruct letters; [contradiction|reflexivity]. Qed.

Lemma parseSubRate_toSubRate (letters : list string) (m : matrix * list R) :
  NoDup letters -> letters <> [] -> normalized (List.length letters) m ->
  parseSubRate letters (toSubRate letters (fst m) (snd m)) = Returned m.
Proof.
  intros Hnd Hne [[Hlen [Hrows [Hoff Hzero]]] [Hplen Hsum]].
  destruct m as [Q p]. cbn [fst snd] in *.
  set (n := List.length letters) in *.
  assert (Hsq : square Q = true).
  { unfold square. apply forallb_forall. intros row Hrow.
    destruct (In_nth _ _ [] Hrow) as [i [Hi <-]].
    rewrite Hlen in *. rewrite Hrows by exact Hi. apply Nat.eqb_refl. }
  rewrite parseSubRate_letters by exact Hne.
  destruct (subrate (toSubRate letters Q p)) as [rates|] eqn:Erates; [|discriminate].
  destruct (rootprob (toSubRate letters Q p)) as [probs|] eqn:Eprobs; [|discriminate].
  unfold normalizeSubModel. f_equal. f_equal.
  - (* the rate matrix *)
    set (T := map (fun i => map (fun j => get (get rates i []) j 0) letters) letters).
    assert (HT : T = tabulate n (fun i j => if (i =? j)%nat then 0 else entry Q i j)).
    { unfold T, tabulate. rewrite (list_tabulated "" letters) at 1. rewrite map_map.
      apply map_ext_in. intros i Hi. apply in_seq in Hi.
      rewrite (list_tabulated "" letters) at 1. rewrite map_map.
      apply map_ext_in. intros j Hj. apply in_seq in Hj.
      rewrite (rates_read_back letters Q p rates i j Hnd) by (assumption || lia).
      destruct (i =? j)%nat; [reflexivity|].
      rewrite (jget_in_range [] Q i) by (rewrite Hlen; unfold n; lia).
      rewrite (jget_in_range 0 (nth i Q []) j)
        by (rewrite Hrows by (unfold n; lia); unfold n; lia).
      reflexivity. }
    rewrite HT, normalizeSubRate_entries by apply square_tabulate.
    rewrite length_tabulate.
    etransitivity; [|symmetry; exact (square_entries Q Hsq)]. rewrite Hlen.
    apply tabulate_ext. intros i j Hi Hj.
    rewrite !entry_tabulate by assumption.
    assert (Hsum_i : sum (map (fun k => Rabs (entry (tabulate n
                        (fun i j => if (i =? j)%nat then 0 else entry Q i j)) i k))
                        (seq 0 n)) = - entry Q i i).
    { rewrite (sum_ext_in _ (fun k => entry Q i k -
                                      (if (i =? k)%nat then entry Q i i else 0))).
      - rewrite sum_minus_indicator by exact Hi.
        unfold entry at 1.
        rewrite <- (Hrows i Hi) at 1.
        rewrite <- (list_tabulated 0 (nth i Q [])), Hzero by exact Hi. ring.
      - intros k Hk. apply in_seq in Hk. rewrite entry_tabulate by lia.
        destruct (Nat.eqb_spec i k) as [->|Hik].
        + rewrite Rabs_R0. ring.
        + rewrite Rabs_right by (apply Rle_ge, Hoff; lia). ring. }
    rewrite Hsum_i.
    destruct (Nat.eqb_spec i j) as [->|Hij].
    + rewrite Rabs_R0. ring.
    + rewrite Rabs_right by (apply Rle_ge, Hoff; lia). ring.
  - (* the root distribution *)
    assert (Hp : map (fun i => get probs i 0) letters = p).
    { rewrite (list_tabulated "" letters) at 1. rewrite map_map.
      etransitivity; [|symmetry; exact (list_tabulated 0 p)]. rewrite Hplen. fold n.
      apply map_ext_in. intros i Hi. apply in_seq in Hi.
      rewrite (weights_read_back letters Q p probs i Hnd) by (assumption || lia).
      apply jget_in_range. lia. }
    rewrite Hp. now apply normalizeRootProb_normalized.
Qed.

Lemma each_toSubRate (letters : list string) (mixture : list (matrix * list R)) :
  NoDup letters -> letters <> [] ->
  Forall (normalized (List.length letters)) mixture ->
  each (parseSubRate letters) (map (fun m => toSubRate letters (fst m) (snd m)) mixture) =
  Returned mixture.
Proof.
  intros Hnd Hne. induction 1 as [|m mixture Hm _ IH]; [reflexivity|].
  cbn [map each]. now rewrite parseSubRate_toSubRate, IH.
Qed.

Lemma indel_read_back (indelParams : list R) :
  List.length indelParams = 4%nat ->
  map (fun name =>
         get (comprehension
                (combine ["insrate"; "delrate"; "insextprob"; "delextprob"] indelParams))
             name 0)
      ["insrate"; "delrate"; "insextprob"; "delextprob"] = indelParams.
Proof.
  destruct indelParams as [|a [|b [|c [|d [|e rest]]]]]; try discriminate.
  intros _. reflexivity.
Qed.

(** X21: round trip.  For letters that are distinct, normalized models over
    them and four indel parameters, parsing the document that holds the
    letters and the two dicts [toHistorianParams] writes gives back the
    letters, the models and the indel parameters. *)
Theorem parseHistorianParams_reads_back
    (letters : list string) (mixture : list (matrix * list R)) (indelParams : list R) :
  NoDup letters -> letters <> [] ->
  Forall (normalized (List.length letters)) mixture ->
  List.length indelParams = 4%nat ->
  parseHistorianParams (document letters (toHistorianParams letters mixture indelParams)) =
  Returned (letters, mixture, indelParams).
Proof.
  intros Hnd Hne Hmix Hindel.
  assert (Hone : forall m, normalized (List.length letters) m ->
            each (parseSubRate letters) [toSubRate letters (fst m) (snd m)] =
            Returned [m])
    by (intros m Hm; cbn [each]; now rewrite parseSubRate_toSubRate).
  pose proof (each_toSubRate letters mixture Hnd Hne Hmix) as Hall.
  unfold parseHistorianParams, toHistorianParams, document.
  destruct mixture as [|[Q p] [|m' rest]]; cbn [fst snd].
  - cbn [Historian.alphabet Historian.mixture Historian.numbers].
    change (map (fun m => toSubRate letters (fst m) (snd m)) [])
      with (@nil subModelJson).
    cbn [each]. now rewrite indel_read_back.
  - cbn [Historian.alphabet Historian.mixture Historian.numbers Historian.top].
    inversion Hmix as [|? ? Hm _]; subst.
    specialize (Hone (Q, p) Hm). cbn [fst snd] in Hone.
    rewrite Hone. now rewrite indel_read_back.
  - cbn [Historian.alphabet Historian.mixture Historian.numbers].
    rewrite Hall. now rewrite indel_read_back.
Qed.

Lemma parseHistorianParams_reads_back_witness :
  parseHistorianParams
    (document ["A"; "C"]
       (toHistorianParams ["A"; "C"] [(symmetricRate, [1 / 4; 3 / 4])] [1; 2; 3; 4])) =
  Returned (["A"; "C"], [(symmetricRate, [1 / 4; 3 / 4])], [1; 2; 3; 4]).
Proof.
  apply (parseHistorianParams_reads_back ["A"; "C"]
           [(symmetricRate, [1 / 4; 3 / 4])] [1; 2; 3; 4]).
  - repeat constructor; cbn; intuition discriminate.
  - discriminate.
  - apply Forall_cons; [|apply Forall_nil]. split; [|split].
    + split; [reflexivity|]. split; [|split].
      * intros [|[|i]] Hi; cbn in Hi; try lia; reflexivity.
      * intros [|[|i]] [|[|j]] Hi Hj Hij; cbn in Hi, Hj; try lia;
          try contradiction; cbn; lra.
      * intros [|[|i]] Hi; cbn in Hi; try lia; cbn; ring.
    + reflexivity.
    + cbn. lra.
  - reflexivity.
Defined.

End RoundTrip.

(** ** The loop as a truncated while loop *)
Module LoopSemantics.
Import Float BoundedWhileLoop BoundedWhileLoopFacts.

Section While.
Context {V : Type}.
Variable cond_fun : V -> bool.
Variable body_fun : V -> V.

Local Notation "'step'" := (guarded_step cond_fun body_fun).

(** [n] guarded turns are the body iterated until the predicate fails, [n]
    times at most. *)
Lemma guarded_turns (n : nat) (v : V) :
  exists j, (j <= n)%nat /\
    Nat.iter n step v = Nat.iter j body_fun v /\
    (forall i, (i < j)%nat -> cond_fun (Nat.iter i body_fun v) = true) /\
    ((j < n)%nat -> cond_fun (Nat.iter j body_fun v) = false).
Proof.
  induction n as [|n [j [Hj [Hrun [Hbefore Hstop]]]]].
  - exists 0%nat. repeat split; [lia|intros i Hi; lia|intros H; lia].
  - rewrite Nat.iter_succ, Hrun. unfold guarded_step.
    destruct (cond_fun (Nat.iter j body_fun v)) eqn:E.
    + assert (j = n) as ->.
      { destruct (Nat.eq_dec j n) as [e|ne]; [exact e|].
        specialize (Hstop ltac:(lia)). congruence. }
      exists (Datatypes.S n). repeat split; [lia| |intros H; lia].
      intros i Hi. destruct (Nat.eq_dec i n) as [->|Hne]; [exact E|].
      apply Hbefore. lia.
    + exists j. repeat split; [lia|exact Hbefore|intros _; exact E].
Qed.

Lemma stopped_for_good (n m : nat) (v : V) :
  (n <= m)%nat -> cond_fun (Nat.iter n step v) = false ->
  Nat.iter m step v = Nat.iter n step v.
Proof.
  intros Hle Hstop. replace m with ((m - n) + n)%nat by lia.
  rewrite iter_add. now apply guarded_step_stopped.
Qed.

End While.

Lemma unrolled_steps_log2 (p : positive) :
  Z.of_nat (unrolled_steps p) = (2 ^ Z.log2 (Z.pos p))%Z.
Proof.
  induction p as [p IH|p IH|]; [| |reflexivity].
  - change (Z.pos p~1) with (2 * Z.pos p + 1)%Z.
    rewrite Z.log2_succ_double by lia.
    rewrite Z.pow_succ_r by apply Z.log2_nonneg.
    cbn [unrolled_steps]. lia.
  - change (Z.pos p~0) with (2 * Z.pos p)%Z.
    rewrite Z.log2_double by lia.
    rewrite Z.pow_succ_r by apply Z.log2_nonneg.
    cbn [unrolled_steps]. lia.
Qed.

Section Optimizer.
Context {S : Type}.
Variable score_fun : S -> float.
Variable update_fun : S -> S.
Variable min_inc : float.
Variable init_state : S.

Local Notation "'step'" :=
  (guarded_step (cond_fun min_inc) (body_fun score_fun update_fun)).
Local Notation "'start'" := (init_val score_fun init_state).
Local Notation "'seen'" := (visited score_fun update_fun min_inc init_state).
Local Notation "'scored' s" := (score_fun s, s) (at level 10).

Lemma visited_grows (n m : nat) : (n <= m)%nat -> incl (seen n) (seen m).
Proof.
  intros Hle p Hp. unfold visited, run in *. rewrite map_map in *.
  apply in_map_iff in Hp. destruct Hp as [j [<- Hj]].
  apply in_map_iff. exists j. split; [reflexivity|].
  apply in_seq in Hj. apply in_seq. lia.
Qed.

Lemma larger_budget_not_worse (n m : nat) :
  (n <= m)%nat ->
  gt (fst (best (Nat.iter n step start))) (fst (best (Nat.iter m step start))) = false.
Proof.
  intros Hle. apply best_not_exceeded. apply (visited_grows n m Hle). apply best_visited.
Qed.

Lemma prev_body (v : loop_val) :
  fst (fst (body_fun score_fun update_fun v)) = fst (current v).
Proof. destruct v as [[prev [cs cst]] [bs bst]]. reflexivity. Qed.

Lemma cond_needs_increase (v : @loop_val S) :
  gt (fst (current v)) (fst (fst v)) = false -> cond_fun min_inc v = false.
Proof.
  destruct v as [[prev [cs cst]] [bs bst]]. unfold current. cbn [fst snd].
  intros H. unfold cond_fun. now rewrite H.
Qed.

(** Where the best pair stands at the end of [n] turns: it is the current
    pair, or the loop has stopped and it is the pair before the current
    one. *)
Lemma best_is_recent (n : nat) :
  let v := Nat.iter n step start in
  exists j, (j <= n)%nat /\
    current v = scored (Nat.iter j update_fun init_state) /\
    (best v = current v \/
     cond_fun min_inc v = false /\
     exists i, j = Datatypes.S i /\
       best v = scored (Nat.iter i update_fun init_state) /\
       gt (fst (current v)) (fst (best v)) = false).
Proof.
  induction n as [|n IH]; cbv zeta in *.
  - exists 0%nat. split; [lia|]. split; [reflexivity|]. left. reflexivity.
  - destruct IH as [j [Hj [Hcur Hbest]]].
    rewrite Nat.iter_succ. set (v := Nat.iter n step start) in *.
    unfold guarded_step. destruct (cond_fun min_inc v) eqn:E.
    + destruct Hbest as [Hbest|[Hstop _]]; [|congruence].
      exists (Datatypes.S j). split; [lia|].
      rewrite current_body, best_body, Hcur. cbn [snd]. split; [reflexivity|].
      rewrite Hbest, Hcur. cbn [fst].
      destruct (gt (score_fun (update_fun (Nat.iter j update_fun init_state)))
                   (score_fun (Nat.iter j update_fun init_state))) eqn:G.
      * left. reflexivity.
      * right. split.
        -- apply cond_needs_increase.
           rewrite prev_body, current_body, Hcur. cbn [fst snd]. exact G.
        -- exists j. repeat split. exact G.
    + exists j. split; [lia|]. split; [exact Hcur|].
      destruct Hbest as [Hbest|[_ Hprev]]; [left; exact Hbest|].
      right. split; [exact E|exact Hprev].
Qed.

End Optimizer.

(** X22: for a power-of-two [max_steps], [bounded_while_loop] returns what a
    while loop cut off after [max_steps] turns returns: the body iterated [j]
    times on the initial value, where [j <= max_steps], the predicate holds
    before each of the [j] turns, and it fails on the value returned unless
    all [max_steps] turns were used. *)
Theorem bounded_while_loop_is_truncated_while
    {V : Type} (cond_fun : V -> bool) (body_fun : V -> V) (init_val : V) (k : nat) :
  exists j, (j <= Z.to_nat (2 ^ Z.of_nat k))%nat /\
    bounded_while_loop cond_fun body_fun init_val (2 ^ Z.of_nat k) =
      Ok (Nat.iter j body_fun init_val) /\
    (forall i, (i < j)%nat -> cond_fun (Nat.iter i body_fun init_val) = true) /\
    ((j < Z.to_nat (2 ^ Z.of_nat k))%nat ->
     cond_fun (Nat.iter j body_fun init_val) = false).
Proof.
  destruct (guarded_turns cond_fun body_fun (Z.to_nat (2 ^ Z.of_nat k)) init_val)
    as [j [Hj [Hrun [Hbefore Hstop]]]].
  exists j. rewrite bounded_while_loop_pow2, Hrun. auto.
Qed.

(** X23: on any positive [max_steps], [_while_loop] runs a power of two of
    guarded turns (a turn applies the body where the predicate holds): the
    largest power of two that is not above [max_steps], which is more than
    half of it. *)
Theorem while_loop_rounds_down_to_power_of_two
    {V : Type} (cond_fun : V -> bool) (body_fun : V -> V) (v : V) (max_steps : positive) :
  let turns := (2 ^ Z.log2 (Z.pos max_steps))%Z in
  (turns <= Z.pos max_steps < 2 * turns)%Z /\
  snd (_while_loop cond_fun body_fun (cond_fun v, v) max_steps) =
    Nat.iter (Z.to_nat turns) (guarded_step cond_fun body_fun) v.
Proof.
  intros turns. split.
  - pose proof (Z.log2_spec (Z.pos max_steps) ltac:(lia)) as H.
    rewrite Z.pow_succ_r in H by apply Z.log2_nonneg. exact H.
  - rewrite while_loop_unrolls. cbn [snd]. f_equal.
    unfold turns. rewrite <- unrolled_steps_log2. now rewrite Nat2Z.id.
Qed.

(** X24: once the predicate fails on the value a run returns, a larger
    power-of-two [max_steps] returns the same value. *)
Theorem bounded_while_loop_budget_stable
    {V : Type} (cond_fun : V -> bool) (body_fun : V -> V) (init_val v : V)
    (k k' : nat) :
  (k <= k')%nat ->
  bounded_while_loop cond_fun body_fun init_val (2 ^ Z.of_nat k) = Ok v ->
  cond_fun v = false ->
  bounded_while_loop cond_fun body_fun init_val (2 ^ Z.of_nat k') = Ok v.
Proof.
  intros Hle Hrun Hstop. rewrite bounded_while_loop_pow2 in *.
  injection Hrun as <-. f_equal.
  apply stopped_for_good; [|exact Hstop].
  apply Z2Nat.inj_le; try (apply Z.pow_nonneg; lia).
  apply Z.pow_le_mono_r; lia.
Qed.

Lemma bounded_while_loop_budget_stable_witness :
  bounded_while_loop (fun n => (n <? 3)%nat) Datatypes.S 0%nat (2 ^ Z.of_nat 3) = Ok 3%nat.
Proof.
  apply (bounded_while_loop_budget_stable (fun n => (n <? 3)%nat) Datatypes.S
           0%nat 3%nat 2 3).
  - lia.
  - reflexivity.
  - reflexivity.
Defined.

(** X25: a larger step budget never returns a worse score: for power-of-two
    budgets [2^k <= 2^k'], the score returned with [2^k] steps is not greater
    than the one returned with [2^k'] steps, and the latter is [>=] the
    former when the scores are numbers. *)
Theorem optimize_larger_budget_not_worse
    {S : Type} (score_fun : S -> float) (update_fun : S -> S)
    (min_inc : float) (init_state : S) (k k' : nat) :
  (k <= k')%nat ->
  exists r r',
    bounded_optimize score_fun update_fun min_inc init_state (2 ^ Z.of_nat k) = Ok r /\
    bounded_optimize score_fun update_fun min_inc init_state (2 ^ Z.of_nat k') = Ok r' /\
    gt (fst r) (fst r') = false /\
    ((forall s, score_fun s <> NaN) -> ge (fst r') (fst r) = true).
Proof.
  intros Hle.
  assert (Hn : (Z.to_nat (2 ^ Z.of_nat k) <= Z.to_nat (2 ^ Z.of_nat k'))%nat).
  { apply Z2Nat.inj_le; try (apply Z.pow_nonneg; lia).
    apply Z.pow_le_mono_r; lia. }
  do 2 eexists. rewrite !bounded_optimize_pow2.
  split; [reflexivity|]. split; [reflexivity|].
  pose proof (larger_budget_not_worse score_fun update_fun min_inc init_state _ _ Hn) as G.
  split; [exact G|].
  intros Hnum. apply not_gt_ge; [| |exact G].
  - destruct (visited_produced score_fun update_fun min_inc init_state _ _
                (best_visited score_fun update_fun min_inc init_state
                   (Z.to_nat (2 ^ Z.of_nat k)))) as [j [_ ->]].
    apply Hnum.
  - destruct (visited_produced score_fun update_fun min_inc init_state _ _
                (best_visited score_fun update_fun min_inc init_state
                   (Z.to_nat (2 ^ Z.of_nat k')))) as [j [_ ->]].
    apply Hnum.
Qed.

Lemma optimize_larger_budget_not_worse_witness :
  let score_fun := fun s : nat => Fin (inject_Z (Z.of_nat s)) in
  exists r r',
    bounded_optimize score_fun Datatypes.S (Fin (1 # 1000)) 0%nat (2 ^ Z.of_nat 1) = Ok r /\
    bounded_optimize score_fun Datatypes.S (Fin (1 # 1000)) 0%nat (2 ^ Z.of_nat 2) = Ok r' /\
    gt (fst r) (fst r') = false /\
    ((forall s, score_fun s <> NaN) -> ge (fst r') (fst r) = true).
Proof.
  apply (optimize_larger_budget_not_worse
           (fun s : nat => Fin (inject_Z (Z.of_nat s))) Datatypes.S
           (Fin (1 # 1000)) 0%nat 1 2).
  lia.
Defined.

(** X26: the loop goes on only while the score increases, so the pair
    [bounded_optimize] returns for a power-of-two [max_steps] is the last
    state the run produced with its score, or the state produced just before
    it, and then the last score is not greater than the one returned. *)
Theorem optimize_returns_last_or_previous
    {S : Type} (score_fun : S -> float) (update_fun : S -> S)
    (min_inc : float) (init_state : S) (k : nat) :
  let n := Z.to_nat (2 ^ Z.of_nat k) in
  let v := Nat.iter n (guarded_step (cond_fun min_inc) (body_fun score_fun update_fun))
                    (init_val score_fun init_state) in
  let produced := fun j => Nat.iter j update_fun init_state in
  exists j, (j <= n)%nat /\
    current v = (score_fun (produced j), produced j) /\
    (bounded_optimize score_fun update_fun min_inc init_state (2 ^ Z.of_nat k) =
       Ok (score_fun (produced j), produced j) \/
     exists i, j = Datatypes.S i /\
       bounded_optimize score_fun update_fun min_inc init_state (2 ^ Z.of_nat k) =
         Ok (score_fun (produced i), produced i) /\
       gt (score_fun (produced j)) (score_fun (produced i)) = false).
Proof.
  intros n v produced.
  destruct (best_is_recent score_fun update_fun min_inc init_state n)
    as [j [Hj [Hcur Hbest]]].
  fold v in Hcur, Hbest.
  exists j. split; [exact Hj|]. split; [exact Hcur|].
  rewrite bounded_optimize_pow2. fold n. fold v.
  destruct Hbest as [Hbest|[_ [i [-> [Hbest G]]]]].
  - left. now rewrite Hbest, Hcur.
  - right. exists i. split; [reflexivity|]. split; [now rewrite Hbest|].
    rewrite Hcur, Hbest in G. exact G.
Qed.

End LoopSemantics.

(** ** More on the indel model *)
Module IndelFacts.
Import Numeric H20 H20Facts.
Local Open Scope R_scope.

Lemma length_ediff1d (ts : list R) : List.length (ediff1d ts) = (List.length ts - 1)%nat.
Proof.
  induction ts as [|t0 [|t1 rest] IH]; try reflexivity.
  change (ediff1d (t0 :: t1 :: rest)) with ((t1 - t0) :: ediff1d (t1 :: rest)).
  cbn [List.length] in *. rewrite IH. lia.
Qed.

Lemma length_removelast {T : Type} (l : list T) :
  List.length (removelast l) = (List.length l - 1)%nat.
Proof.
  induction l as [|x [|y l] IH]; try reflexivity.
  change (removelast (x :: y :: l)) with (x :: removelast (y :: l)).
  cbn [List.length] in *. rewrite IH. lia.
Qed.

(** [scan] returns one state per step, the last of them being the final
    state. *)
Lemma scan_trajectory (field : vector_field) (params : indelParams)
    (xs : list (R * R)) (y : counts) :
  List.length (snd (scan field params y xs)) = List.length xs /\
  last (y :: snd (scan field params y xs)) y = fst (scan field params y xs).
Proof.
  revert y. induction xs as [|[t dt] xs IH]; intros y; [split; reflexivity|].
  cbn [scan].
  destruct (RK4body field params y (t, dt)) as [y1 y_out] eqn:Eb.
  assert (y_out = y1) as -> by (unfold RK4body in Eb; congruence).
  destruct (IH y1) as [Hlen Hlast].
  destruct (scan field params y1 xs) as [y_end ys].
  cbn [fst snd] in *. split; [cbn [List.length]; now rewrite Hlen|].
  change (last (y :: y1 :: ys) y) with (last (y1 :: ys) y).
  rewrite <- Hlast. cbn [last]. destruct ys as [|z ys]; [reflexivity|].
  clear. revert z. induction ys as [|w ys IH]; intros z; [reflexivity|].
  change (last (z :: w :: ys) y) with (last (w :: ys) y).
  change (last (z :: w :: ys) y1) with (last (w :: ys) y1).
  apply IH.
Qed.



Lemma scan_run (params : indelParams) (ts : list R) :
  ts <> [] ->
  exists y1 ys,
    (if (List.length ts =? 0)%nat then AssertionError
     else
       let dts := ediff1d ts in
       let '(y1, ys) :=
         scan derivs params (initCounts params) (combine (removelast ts) dts) in
       Completed (y1, initCounts params :: ys, ts)) =
      Completed (y1, initCounts params :: ys, ts) /\
    S (List.length ys) = List.length ts /\
    last (initCounts params :: ys) (initCounts params) = y1.
Proof.
  intros Hne. destruct ts as [|t0 rest]; [contradiction|].
  cbn [List.length Nat.eqb]. cbv zeta.
  pose proof (scan_trajectory derivs params
                (combine (removelast (t0 :: rest)) (ediff1d (t0 :: rest)))
                (initCounts params)) as [Hlen Hlast].
  destruct (scan derivs params (initCounts params) _) as [y1 ys].
  cbn [fst snd] in *. exists y1, ys.
  split; [reflexivity|]. split; [|exact Hlast].
  rewrite Hlen, length_combine, length_removelast, length_ediff1d.
  cbn [List.length]. lia.
Qed.

(** [gmrate] is defined unless a rate is zero or the two rates cancel. *)
Lemma gmrate_defined (lam mu : R) :
  lam <> 0 -> mu <> 0 -> lam + mu <> 0 ->
  1 / lam + 1 / mu <> 0 /\ 1 / (1 / lam + 1 / mu) <> 0.
Proof.
  intros Hl Hm Hs.
  assert (E : 1 / lam + 1 / mu = (lam + mu) / (lam * mu)) by (field; tauto).
  assert (Hp : lam * mu <> 0) by (apply Rmult_integral_contrapositive; tauto).
  assert (H : 1 / lam + 1 / mu <> 0).
  { rewrite E. unfold Rdiv. apply Rmult_integral_contrapositive. split; [exact Hs|].
    apply Rinv_neq_0_compat, Hp. }
  split; [exact H|].
  unfold Rdiv at 1. rewrite Rmult_1_l. apply Rinv_neq_0_compat, H.
Qed.

Lemma gmrate_raises (lam mu : R) :
  lam <> 0 -> mu <> 0 -> lam + mu = 0 -> 1 / lam + 1 / mu = 0.
Proof.
  intros Hl Hm Hs. replace (1 / lam + 1 / mu) with ((lam + mu) / (lam * mu))
    by (field; tauto).
  rewrite Hs. unfold Rdiv. ring.
Qed.

Lemma divide_defined (a b : R) : b <> 0 -> divide a b = Completed (a / b).
Proof. intros H. unfold divide. now destruct (Req_dec_T b 0). Qed.

Lemma divide_raises (a : R) : divide a 0 = ZeroDivisionError.
Proof. unfold divide. now destruct (Req_dec_T 0 0). Qed.

Lemma unclipped (row : list R) :
  Forall (Rle 0) row -> sum row = 1 ->
  map (fun e => e / sum (map (Rmax 0) row)) (map (Rmax 0) row) = row.
Proof.
  intros Hpos Hsum.
  assert (E : map (Rmax 0) row = row).
  { clear Hsum. induction Hpos as [|e row He _ IH]; [reflexivity|].
    cbn [map]. rewrite IH, Rmax_right by exact He. reflexivity. }
  rewrite E, Hsum. clear. induction row as [|e row IH]; [reflexivity|].
  cbn [map]. rewrite IH. f_equal. field.
Qed.

(** X27: at time zero [L = M = 1] and the denominator in [derivs] is
    [y * b].  So the guard fires exactly when [y * b <= 0], and [derivs] is
    then [(- lam - mu, lam, lam, 0)] whatever the counts [a], [u] and [q]
    are; on the initial counts it fires for all parameters.  When
    [y * b > 0] the value is that of the main formula, whose last component
    is divided by [smallest_float32]. *)
Theorem derivs_at_start (lam mu x y a b u q : R) :
  x <> 1 -> y <> 1 ->
  lm 0 mu y * (1 - y) + lm 0 lam x * q * y
    + lm 0 lam x * lm 0 mu y * (y * (1 + b - q) - 1) = y * b /\
  derivs 0 (a, b, u, q) (lam, mu, x, y) =
    (if Rlt_dec 0 (y * b)
     then (mu * b * u * (1 - y) / (y * b) - (lam + mu) * a,
           - b * (mu * b) / (y * b) + lam * (1 - b),
           - u * (mu * b) / (y * b) + lam * a,
           - (q * lam / (1 - y)) / smallest_float32)
     else (- lam - mu, lam, lam, 0)) /\
  derivs 0 (initCounts (lam, mu, x, y)) (lam, mu, x, y) = (- lam - mu, lam, lam, 0).
Proof.
  intros Hx Hy.
  assert (L1 : lm 0 lam x = 1).
  { unfold lm. replace (- lam * 0 / (1 - x)) with 0 by (unfold Rdiv; ring).
    apply exp_0. }
  assert (M1 : lm 0 mu y = 1).
  { unfold lm. replace (- mu * 0 / (1 - y)) with 0 by (unfold Rdiv; ring).
    apply exp_0. }
  assert (D : forall b' q', 1 * (1 - y) + 1 * q' * y + 1 * 1 * (y * (1 + b' - q') - 1)
                            = y * b') by (intros; ring).
  split; [rewrite L1, M1; apply D|].
  split.
  - unfold derivs. rewrite L1, M1, D.
    destruct (Rlt_dec 0 (y * b)) as [Hpos|_]; [|reflexivity].
    destruct (Rlt_dec 1 1) as [H|_]; [lra|].
    componentwise ltac:(unfold Rdiv; ring).
  - unfold derivs, initCounts. rewrite L1, M1, D.
    destruct (Rlt_dec 0 (y * 0)) as [H|_]; [lra|reflexivity].
Qed.

Lemma derivs_at_start_witness :
  derivs 0 (1 / 2, 1 / 4, 1 / 8, 1 / 16) (1, 1, 1 / 2, 1 / 2) =
    (if Rlt_dec 0 (1 / 2 * (1 / 4))
     then (1 * (1 / 4) * (1 / 8) * (1 - 1 / 2) / (1 / 2 * (1 / 4)) - (1 + 1) * (1 / 2),
           - (1 / 4) * (1 * (1 / 4)) / (1 / 2 * (1 / 4)) + 1 * (1 - 1 / 4),
           - (1 / 8) * (1 * (1 / 4)) / (1 / 2 * (1 / 4)) + 1 * (1 / 2),
           - (1 / 16 * 1 / (1 - 1 / 2)) / smallest_float32)
     else (- (1) - 1, 1, 1, 0)) /\
  derivs 0 (initCounts (1, 1, 1 / 2, 1 / 2)) (1, 1, 1 / 2, 1 / 2) = (- (1) - 1, 1, 1, 0).
Proof.
  apply (derivs_at_start 1 1 (1 / 2) (1 / 2) (1 / 2) (1 / 4) (1 / 8) (1 / 16)); lra.
Defined.

(** X28: the rows of the matrix [transitionMatrixFromCounts] builds sum to one
    before normalization, for all counts and parameters; when none of its
    entries is negative, normalization returns it unchanged. *)
Theorem transitionMatrixFromCounts_rows_sum_to_one
    (t : R) (params : indelParams) (cnt : counts) :
  Forall (fun row => List.length row = 3%nat /\ sum row = 1)
         (transitionMatrixFromCounts t params cnt false) /\
  (Forall (Forall (Rle 0)) (transitionMatrixFromCounts t params cnt false) ->
   transitionMatrixFromCounts t params cnt true =
   transitionMatrixFromCounts t params cnt false).
Proof.
  pose proof (rows_from_counts_sum t params cnt) as Hrows.
  split; [exact Hrows|].
  intros Hpos. rewrite fromCounts_norm.
  induction (transitionMatrixFromCounts t params cnt false) as [|row mx IH];
    [reflexivity|].
  inversion Hrows as [|? ? [_ Hsum] Hrows']; subst.
  inversion Hpos as [|? ? Hrow Hpos']; subst.
  cbn [map]. rewrite IH by assumption. f_equal. now apply unclipped.
Qed.

Lemma transitionMatrixFromCounts_rows_sum_to_one_witness :
  transitionMatrixFromCounts 1 (0, 0, 0, 0) (1, 0, 0, 0) true =
  transitionMatrixFromCounts 1 (0, 0, 0, 0) (1, 0, 0, 0) false.
Proof.
  apply (transitionMatrixFromCounts_rows_sum_to_one 1 (0, 0, 0, 0) (1, 0, 0, 0)).
  rewrite fromCounts_no_indel.
  repeat (apply Forall_cons; [repeat (apply Forall_cons; [lra|]); apply Forall_nil|]).
  apply Forall_nil.
Defined.

(** X29: [integrateCounts_RK4] on given times.  With a rate that is zero, or
    rates that cancel, it raises [ZeroDivisionError] at [gmrate], before it
    looks at the times.  Otherwise it fails its assertion on an empty list
    of times, and on any other list it returns the times as given and a
    trajectory with one entry per time, which starts with the initial counts
    and ends with the final counts it returns. *)
Theorem integrateCounts_RK4_trajectory
    (t lam mu x y : R) (steps : nat) (ts : list R) :
  let params := (lam, mu, x, y) in
  (lam = 0 \/ mu = 0 \/ lam + mu = 0 ->
   integrateCounts_RK4 t params steps (Some ts) = ZeroDivisionError) /\
  (lam <> 0 -> mu <> 0 -> lam + mu <> 0 -> ts = [] ->
   integrateCounts_RK4 t params steps (Some ts) = AssertionError) /\
  (lam <> 0 -> mu <> 0 -> lam + mu <> 0 -> ts <> [] ->
   exists y1 ys,
     integrateCounts_RK4 t params steps (Some ts) =
       Completed (y1, initCounts params :: ys, ts) /\
     S (List.length ys) = List.length ts /\
     last (initCounts params :: ys) (initCounts params) = y1).
Proof.
  intros params. unfold params, integrateCounts_RK4.
  split; [|split].
  - destruct (Req_dec_T lam 0) as [-> | Hl]; [intros _; now rewrite divide_raises|].
    destruct (Req_dec_T mu 0) as [-> | Hm];
      [intros _; now rewrite divide_defined, divide_raises|].
    intros [H|[H|H]]; try contradiction.
    rewrite !divide_defined by assumption. cbn [bind].
    rewrite (gmrate_raises lam mu Hl Hm H). now rewrite divide_raises.
  - intros Hl Hm Hs ->. destruct (gmrate_defined lam mu Hl Hm Hs) as [Hg _].
    rewrite !divide_defined by assumption. cbn [bind].
    rewrite divide_defined by exact Hg. reflexivity.
  - intros Hl Hm Hs Hne. destruct (gmrate_defined lam mu Hl Hm Hs) as [Hg _].
    rewrite !divide_defined by assumption. cbn [bind].
    rewrite divide_defined by exact Hg. cbn [bind].
    apply (scan_run (lam, mu, x, y)), Hne.
Qed.

Lemma integrateCounts_RK4_trajectory_witness :
  integrateCounts_RK4 1 (0, 1, 1 / 2, 1 / 2) 100 (Some [0; 1 / 2; 1]) =
    ZeroDivisionError /\
  integrateCounts_RK4 1 (1, 1, 1 / 2, 1 / 2) 100 (Some []) = AssertionError /\
  exists y1 ys,
    integrateCounts_RK4 1 (1, 1, 1 / 2, 1 / 2) 100 (Some [0; 1 / 2; 1]) =
      Completed (y1, initCounts (1, 1, 1 / 2, 1 / 2) :: ys, [0; 1 / 2; 1]) /\
    S (List.length ys) = List.length [0; 1 / 2; 1] /\
    last (initCounts (1, 1, 1 / 2, 1 / 2) :: ys) (initCounts (1, 1, 1 / 2, 1 / 2)) = y1.
Proof.
  split; [|split].
  - apply (integrateCounts_RK4_trajectory 1 0 1 (1 / 2) (1 / 2) 100 [0; 1 / 2; 1]).
    left. reflexivity.
  - apply (integrateCounts_RK4_trajectory 1 1 1 (1 / 2) (1 / 2) 100 []);
      try lra. reflexivity.
  - apply (integrateCounts_RK4_trajectory 1 1 1 (1 / 2) (1 / 2) 100 [0; 1 / 2; 1]);
      try lra. discriminate.
Defined.



End IndelFacts.
